(** * The client side of the page space: [webapp/src/space.ts]

    A model of the class [Space]: the request correlator [wsCall], the
    update exchange ([pushUpdates], [pullUpdates]), the page registry
    kept in [allPages] and the index wrappers.

    The class is written against an event channel and promises.  The
    model keeps both explicit: the channel is a record with the
    one-shot listeners and the messages sent so far, promises live in
    a table indexed by allocation order, and the body of an [async]
    method is a small program whose [Await] nodes are exactly the
    places where the source awaits [wsCall]. *)

From Stdlib Require Import ZArith NArith Ascii.
From stdpp Require Import base tactics option list numbers strings pretty sorting.

Local Open Scope string_scope.
Local Open Scope list_scope.
#[local] Set Warnings "-register-all".

(** ** Values *)

(** What TypeScript calls [any]: the values that travel over the
    channel and that callbacks receive.  Numbers are the integral ones
    plus [NaN]. *)
Inductive any : Type :=
| VUndefined
| VNull
| VBool (b : bool)
| VNum (n : Z)
| VNaN
| VStr (s : string)
| VArr (l : list any)
| VObj (fields : list (string * any)).

(** The test of [if (err)]. *)
Definition truthy (v : any) : bool :=
  match v with
  | VUndefined | VNull | VNaN => false
  | VBool b => b
  | VNum n => negb (n =? 0)%Z
  | VStr EmptyString => false
  | VStr (String _ _) => true
  | VArr _ | VObj _ => true
  end.

(** [v == null]: the two values [?.] stops at and on which a property
    read throws. *)
Definition nullish (v : any) : bool :=
  match v with
  | VUndefined | VNull => true
  | _ => false
  end.

Fixpoint assoc (k : string) (fields : list (string * any)) : any :=
  match fields with
  | [] => VUndefined
  | (k', v) :: rest => if String.eqb k k' then v else assoc k rest
  end.

(** [v.k] for a [v] that is not nullish: a missing property, and any
    property of a primitive or of an array that the channel can deliver,
    reads as [undefined]. *)
Definition prop (k : string) (v : any) : any :=
  match v with
  | VObj fields => assoc k fields
  | _ => VUndefined
  end.

Definition TypeError : any := VObj [("name", VStr "TypeError")].
Definition RangeError : any := VObj [("name", VStr "RangeError")].

(** The values that have an identity of their own. *)
Definition is_object (v : any) : bool :=
  match v with
  | VArr _ | VObj _ => true
  | _ => false
  end.

(** [v === w] for two values of which one at least is a primitive or
    has just arrived: an object that arrives is a new one and equal to
    no other, and [NaN] is not equal to itself. *)
Definition strict_eq (v w : any) : bool :=
  match v, w with
  | VUndefined, VUndefined | VNull, VNull => true
  | VBool a, VBool b => Bool.eqb a b
  | VNum a, VNum b => (a =? b)%Z
  | VStr a, VStr b => String.eqb a b
  | _, _ => false
  end.

(** SameValueZero, the comparison of [Set], on the same values: it
    differs from [===] on [NaN]. *)
Definition same_value (v w : any) : bool :=
  match v, w with
  | VNaN, VNaN => true
  | _, _ => strict_eq v w
  end.

(** ** Sets

    A [Set] compares objects by reference and primitives by value.  An
    entry is a value together with a reference: the identity of the
    object when the value is one, and for a primitive a mark that
    tells the entries of one set apart.  The list is in insertion
    order, the order [forEach] and [Array.from] follow.  [Set_has],
    [Set_add] and [Set_delete] are those of an entry looked for by its
    reference: an object, or an entry that [forEach] hands out. *)
Definition JSSet (A : Type) : Type := list (positive * A).

Definition Set_has {A} (o : positive * A) (s : JSSet A) : bool :=
  bool_decide (o.1 ∈ s.*1).

Definition Set_add {A} (o : positive * A) (s : JSSet A) : JSSet A :=
  if Set_has o s then s else s ++ [o].

Definition Set_delete {A} (o : positive * A) (s : JSSet A) : JSSet A :=
  filter (λ x, x.1 ≠ o.1) s.

Definition Array_from {A} (s : JSSet A) : list A := s.*2.

(** [s.add(v)] for a value that has just arrived: an object goes by
    its reference, a primitive is in the set when a value that is the
    same is. *)
Definition Set_add_value (o : positive * any) (s : JSSet any) : JSSet any :=
  if is_object o.2 then Set_add o s
  else if existsb (same_value o.2) (Array_from s) then s
  else s ++ [o].

(** [s.forEach(f)] for a callback that adds nothing and throws, if it
    does, before it has changed the set: every entry of [s] is visited
    in order unless it was deleted before its turn, up to the first
    one at which [f] throws.  The result is what was thrown and the
    set as it is left. *)
Fixpoint forEach_from {A} (f : positive * A → JSSet A → any + JSSet A)
    (todo : list (positive * A)) (cur : JSSet A) : option any * JSSet A :=
  match todo with
  | [] => (None, cur)
  | x :: rest =>
      if Set_has x cur then
        match f x cur with
        | inl e => (Some e, cur)
        | inr cur' => forEach_from f rest cur'
        end
      else forEach_from f rest cur
  end.

Definition Set_forEach {A} (f : positive * A → JSSet A → any + JSSet A)
    (s : JSSet A) : option any * JSSet A :=
  forEach_from f s s.

(** [new Set(l)] for the values [l] of an iterable that has just
    arrived. *)
Definition new_Set (l : list (positive * any)) : JSSet any :=
  fold_left (λ s o, Set_add_value o s) l [].

(** The characters of a string. *)
Fixpoint chars (s : string) : list ascii :=
  match s with
  | EmptyString => []
  | String c s' => c :: chars s'
  end.

(** What [new Set(v)] iterates: the elements of an array, the
    characters of a string, nothing for [null] and [undefined]; any
    other value that can arrive is not iterable. *)
Definition iterate (v : any) : option (list any) :=
  match v with
  | VUndefined | VNull => Some []
  | VArr l => Some l
  | VStr s => Some ((λ c, VStr (String c EmptyString)) <$> chars s)
  | _ => None
  end.

(** ** Events of the space *)

(** [SpaceEvents].  [cursorSnapshot] is the one member of
    [CollabEvents] this file names; its payload is only passed on.
    An event the server pushes carries whatever the server sent for
    the one parameter its type declares.  [pageListUpdated] carries
    the set of the registry: the event keeps its entries as they are
    when it is emitted. *)
Inductive SpaceEvents : Type :=
| connect
| cursorSnapshot (args : list any)
| pageCreated (meta : any)
| pageChanged (meta : any)
| pageDeleted (name : any)
| pageListUpdated (pages : list any).

(** ** Updates *)

(** What the file uses of [@codemirror/state]: the two operations of
    [ChangeSet], and [Text.of].  [fromJSON] yields [None] where the
    library throws; [Text_of] yields the text it builds or what it
    throws. *)
Class ChangeSetLib : Type := {
  ChangeSet : Type;
  toJSON : ChangeSet → any;
  fromJSON : any → option ChangeSet;
  Text : Type;
  Text_of : any → any + Text
}.

(** What the library promises of the pair. *)
Definition json_roundtrip `{ChangeSetLib} : Prop :=
  ∀ cs : ChangeSet, fromJSON (toJSON cs) = Some cs.

(** The smallest change sets there are, those that only retain text:
    such a set is the list of the lengths it retains, and so is its
    JSON.  With them comes a text as the list of its lines, made the
    way [Text.of] goes about its argument: it reads [.length], refuses
    a length of 0, takes an only line that is not truthy for the empty
    text, and else iterates the argument and reads the length of every
    line.  They serve where a theorem is tried on a concrete update or
    page. *)
Definition as_length (v : any) : option Z :=
  match v with
  | VNum n => Some n
  | _ => None
  end.

Definition lines_of (v : any) : any + list any :=
  match v with
  | VUndefined | VNull => inl TypeError
  | VArr [] | VStr EmptyString => inl RangeError
  | VArr [line] => if truthy line then inr [line] else inr [VStr EmptyString]
  | VArr lines => if existsb nullish lines then inl TypeError else inr lines
  | VStr s => inr ((λ c, VStr (String c EmptyString)) <$> chars s)
  | VObj fields =>
      match assoc "length" fields with
      | VNum 0 => inl RangeError
      | VNum 1 =>
          if truthy (assoc "0" fields) then inl TypeError
          else inr [VStr EmptyString]
      | _ => inl TypeError
      end
  | _ => inl TypeError
  end.

Definition retaining : ChangeSetLib := {|
  ChangeSet := list Z;
  toJSON := λ cs, VArr (VNum <$> cs);
  fromJSON := λ v,
    match v with
    | VArr l => mapM as_length l
    | _ => None
    end;
  Text := list any;
  Text_of := lines_of
|}.

(** A [StateEffect]: the effect type it was made by and its value. *)
Inductive StateEffectType : Type :=
| cursorEffect
| otherEffect (tag : string).

Record StateEffect : Type := mkStateEffect {
  effectType : StateEffectType;
  value : any
}.

(** Modelled from the spec: [cursorEffect.of] of [./cursorEffect], which
    makes the "cursor effect" that "rides alongside a change set". *)
Definition cursorEffect_of (v : any) : StateEffect :=
  mkStateEffect cursorEffect v.

(** The characters that are decimal digits. *)
Definition digit (c : ascii) : bool :=
  let n := nat_of_ascii c in (48 <=? n)%nat && (n <=? 57)%nat.

Section Space.
Context `{ChangeSetLib}.

(** [Update] of [@codemirror/collab]; [effects] is optional.  The
    client identifier is whatever the other side put there, a string
    when the update is well typed. *)
Record Update : Type := mkUpdate {
  changes : ChangeSet;
  effects : option (list StateEffect);
  clientID : any
}.

(** The object literal [pushUpdates] maps every update to. *)
Definition pushUpdates_wire (u : Update) : any :=
  VObj [("clientID", clientID u);
        ("changes", toJSON (changes u));
        ("cursors", match effects u with
                    | Some es => VArr (map value es)
                    | None => VUndefined
                    end)].

(** [e => cursorEffect.of(e.value)]; reading a property of [null] or
    [undefined] throws. *)
Definition pullUpdates_effect (e : any) : any + StateEffect :=
  if nullish e then inl TypeError else inr (cursorEffect_of (prop "value" e)).

Fixpoint Array_map_throwing {A} (f : any → any + A) (l : list any)
    : any + list A :=
  match l with
  | [] => inr []
  | x :: rest =>
      match f x with
      | inl e => inl e
      | inr y =>
          match Array_map_throwing f rest with
          | inl e => inl e
          | inr ys => inr (y :: ys)
          end
      end
  end.

(** [u.effects?.map(...)]: nothing when the field is nullish, a mapped
    array when it is an array, and no [map] to call otherwise. *)
Definition pullUpdates_effects (v : any) : any + option (list StateEffect) :=
  match v with
  | VUndefined | VNull => inr None
  | VArr es =>
      match Array_map_throwing pullUpdates_effect es with
      | inl e => inl e
      | inr l => inr (Some l)
      end
  | _ => inl TypeError
  end.

(** The object literal [pullUpdates] maps every received update to;
    the fields are evaluated in the order written. *)
Definition pullUpdates_update (u : any) : any + Update :=
  if nullish u then inl TypeError else
  match fromJSON (prop "changes" u) with
  | None => inl RangeError
  | Some cs =>
      match pullUpdates_effects (prop "effects" u) with
      | inl e => inl e
      | inr effs => inr (mkUpdate cs effs (prop "clientID" u))
      end
  end.

(** ** Promises and method bodies *)

(** Modelled from the spec: [CollabDocument] of [./collab], the "base
    text, current version, and a mapping from remote client identifier
    to last known cursor position".  The mapping is kept as the object
    whose entries it is made of. *)
Record CollabDocument : Type := mkCollabDocument {
  doc_text : Text;
  doc_version : any;
  doc_cursors : any
}.

(** What a promise of this class is fulfilled with: a value off the
    channel, the updates [pullUpdates] builds, the array of
    [listPages], or the document of [openPage]. *)
Inductive answer : Type :=
| AValue (v : any)
| AUpdates (us : list Update)
| APages (ps : list any)
| ADocument (d : CollabDocument).

Inductive PromiseState : Type :=
| Pending
| Resolved (a : answer)
| Rejected (e : any).

(** The body of an [async] method, up to its next [await].  Every
    [await] of the file waits, directly or through another method, for
    a [wsCall]; a rejection is never caught, so it ends the body. *)
Inductive proc : Type :=
| Return (a : answer)
| Throw (e : any)
| IncReqId (k : proc)
| Await (eventName : string) (args : list any) (k : any → proc)
| IfSocket (yes no : proc)
| SocketEmit (eventName : string) (args : list any) (k : proc)
| ArrayFromAllPages (k : list any → proc).

(** [await m; k] for a method body [m]. *)
Fixpoint bind (m : proc) (k : answer → proc) : proc :=
  match m with
  | Return a => k a
  | Throw e => Throw e
  | IncReqId m' => IncReqId (bind m' k)
  | Await ev args k' => Await ev args (λ v, bind (k' v) k)
  | IfSocket yes no => IfSocket (bind yes k) (bind no k)
  | SocketEmit ev args m' => SocketEmit ev args (bind m' k)
  | ArrayFromAllPages k' => ArrayFromAllPages (λ ps, bind (k' ps) k)
  end.

(** What is chained on the promise of a [wsCall]: the [then] of the
    constructor, or the rest of an [async] method together with the
    promise that method returned. *)
Inductive reaction : Type :=
| ListPagesThen
| AsyncCont (k : any → proc) (outer : nat).

(** ** The channel *)

(** A message handed to [socket.emit].  A correlated request carries
    its identifier first; [closePage] sends none. *)
Record Request : Type := mkRequest {
  req_event : string;
  req_id : option N;
  req_args : list any
}.

(** What the class uses of a [Socket]: the listeners registered with
    [once], each settling one promise, and the messages emitted. *)
Record Socket : Type := mkSocket {
  listeners : list (string * nat);
  outbox : list Request
}.

Definition freshSocket : Socket := mkSocket [] [].

(** ** The object *)

(** The fields [socket], [reqId] and [allPages], and around them what
    the run time holds: the promises made so far, what waits on them,
    what [emit] has handed to subscribers, and the next free object
    reference.  [reqId] counts in [N]: a JavaScript number counts
    exactly in the range a session can reach. *)
Record Space : Type := mkSpace {
  socket : option Socket;
  reqId : N;
  allPages : JSSet any;
  promises : list PromiseState;
  awaiting : list (nat * reaction);
  emitted : list SpaceEvents;
  nextRef : positive
}.

Definition set_socket (x : option Socket) (s : Space) : Space :=
  mkSpace x (reqId s) (allPages s) (promises s) (awaiting s) (emitted s) (nextRef s).
Definition set_reqId (x : N) (s : Space) : Space :=
  mkSpace (socket s) x (allPages s) (promises s) (awaiting s) (emitted s) (nextRef s).
Definition set_allPages (x : JSSet any) (s : Space) : Space :=
  mkSpace (socket s) (reqId s) x (promises s) (awaiting s) (emitted s) (nextRef s).
Definition set_promises (x : list PromiseState) (s : Space) : Space :=
  mkSpace (socket s) (reqId s) (allPages s) x (awaiting s) (emitted s) (nextRef s).
Definition set_awaiting (x : list (nat * reaction)) (s : Space) : Space :=
  mkSpace (socket s) (reqId s) (allPages s) (promises s) x (emitted s) (nextRef s).
Definition set_emitted (x : list SpaceEvents) (s : Space) : Space :=
  mkSpace (socket s) (reqId s) (allPages s) (promises s) (awaiting s) x (nextRef s).
Definition set_nextRef (x : positive) (s : Space) : Space :=
  mkSpace (socket s) (reqId s) (allPages s) (promises s) (awaiting s) (emitted s) x.

(** Modelled from the spec: [emit] of the [EventEmitter] in [./event],
    whose "emission delivers synchronously to all currently registered
    subscribers for that name".  The log keeps the calls of
    [this.emit] in the order in which they are made; the two handlers
    the class registers for itself run inside [receive_pushed]. *)
Definition emit (e : SpaceEvents) (s : Space) : Space :=
  set_emitted (emitted s ++ [e]) s.

(** [new Promise(...)]: the promise is the next entry of the table. *)
Definition new_Promise (s : Space) : nat * Space :=
  (length (promises s), set_promises (promises s ++ [Pending]) s).

(** [resolve] and [reject]: only a pending promise changes. *)
Definition settle (p : nat) (st : PromiseState) (s : Space) : Space :=
  match promises s !! p with
  | Some Pending => set_promises (<[p := st]> (promises s)) s
  | _ => s
  end.

(** The name of the response event, [`${eventName}Resp${this.reqId}`]. *)
Definition respName (eventName : string) (id : N) : string :=
  eventName +:+ "Resp" +:+ pretty id.

(** [wsCall(eventName, ...args)].  The executor of the promise runs at
    once: the counter goes up, the listener is registered, the request
    is emitted.  Without a socket [this.socket!.once] throws inside the
    executor, which rejects the promise. *)
Definition wsCall (eventName : string) (args : list any) (s : Space)
    : nat * Space :=
  let '(p, s) := new_Promise s in
  let s := set_reqId (reqId s + 1) s in
  match socket s with
  | Some sock =>
      let sock := mkSocket (listeners sock ++ [(respName eventName (reqId s), p)])
                           (outbox sock) in
      let sock := mkSocket (listeners sock)
                           (outbox sock ++ [mkRequest eventName (Some (reqId s)) args]) in
      (p, set_socket (Some sock) s)
  | None => (p, settle p (Rejected TypeError) s)
  end.

(** Runs a method body for the promise [outer] until it returns,
    throws or has to wait. *)
Fixpoint exec (outer : nat) (c : proc) (s : Space) : Space :=
  match c with
  | Return a => settle outer (Resolved a) s
  | Throw e => settle outer (Rejected e) s
  | IncReqId k => exec outer k (set_reqId (reqId s + 1) s)
  | Await eventName args k =>
      let '(p, s) := wsCall eventName args s in
      match promises s !! p with
      | Some (Rejected e) => settle outer (Rejected e) s
      | _ => set_awaiting (awaiting s ++ [(p, AsyncCont k outer)]) s
      end
  | IfSocket yes no =>
      match socket s with
      | Some _ => exec outer yes s
      | None => exec outer no s
      end
  | SocketEmit eventName args k =>
      match socket s with
      | Some sock =>
          let sock := mkSocket (listeners sock)
                               (outbox sock ++ [mkRequest eventName None args]) in
          exec outer k (set_socket (Some sock) s)
      | None => settle outer (Rejected TypeError) s
      end
  | ArrayFromAllPages k => exec outer (k (Array_from (allPages s))) s
  end.

(** A call of an [async] method with body [c]: the promise it returns
    and the state once the body has run to its first [await]. *)
Definition call (c : proc) (s : Space) : nat * Space :=
  let '(p, s) := new_Promise s in (p, exec p c s).

(** ** The public methods *)

(** [{ key, value }]. *)
Definition KV : Type := string * any.


Definition pullUpdates (pageName : string) (version : Z) : proc :=
  Await "page.pullUpdates" [VStr pageName; VNum version] (λ updates,
    match updates with
    | VArr us =>
        match Array_map_throwing pullUpdates_update us with
        | inl e => Throw e
        | inr l => Return (AUpdates l)
        end
    | _ => Throw TypeError
    end).

Definition listPages : proc :=
  ArrayFromAllPages (λ ps, Return (APages ps)).

(** [new CollabDocument(Text.of(pageJSON.text), pageJSON.version, new
    Map(Object.entries(pageJSON.cursors)))], the arguments evaluated in
    the order written: reading [.text] of a nullish answer throws, then
    [Text.of] may, then [Object.entries] does on a nullish argument. *)
Definition new_CollabDocument (pageJSON : any) : proc :=
  if nullish pageJSON then Throw TypeError else
  match Text_of (prop "text" pageJSON) with
  | inl e => Throw e
  | inr text =>
      if nullish (prop "cursors" pageJSON) then Throw TypeError else
      Return (ADocument (mkCollabDocument text (prop "version" pageJSON)
                           (prop "cursors" pageJSON)))
  end.

Definition openPage (name : string) : proc :=
  IncReqId (Await "page.openPage" [VStr name] new_CollabDocument).

Definition closePage (name : string) : proc :=
  SocketEmit "page.closePage" [VStr name] (Return (AValue VUndefined)).

Definition readPage (name : string) : proc :=
  Await "page.readPage" [VStr name] (λ r, Return (AValue r)).

Definition writePage (name text : string) : proc :=
  Await "page.writePage" [VStr name; VStr text] (λ r, Return (AValue r)).

Definition deletePage (name : string) : proc :=
  Await "page.deletePage" [VStr name] (λ r, Return (AValue r)).

Definition getPageMeta (name : string) : proc :=
  Await "page.getPageMeta" [VStr name] (λ r, Return (AValue r)).

Definition indexSet (pageName key : string) (value : any) : proc :=
  Await "index.set" [VStr pageName; VStr key; value]
    (λ _, Return (AValue VUndefined)).

Fixpoint indexBatchSet (pageName : string) (kvs : list KV) : proc :=
  match kvs with
  | [] => Return (AValue VUndefined)
  | (key, value) :: rest =>
      bind (indexSet pageName key value) (λ _, indexBatchSet pageName rest)
  end.

Definition indexGet (pageName key : string) : proc :=
  Await "index.get" [VStr pageName; VStr key] (λ r, Return (AValue r)).

Definition indexScanPrefixForPage (pageName keyPrefix : string) : proc :=
  Await "index.scanPrefixForPage" [VStr pageName; VStr keyPrefix]
    (λ r, Return (AValue r)).

Definition indexScanPrefixGlobal (keyPrefix : string) : proc :=
  Await "index.scanPrefixGlobal" [VStr keyPrefix] (λ r, Return (AValue r)).

Definition indexDeletePrefixForPage (pageName keyPrefix : string) : proc :=
  Await "index.deletePrefixForPage" [VStr keyPrefix]
    (λ _, Return (AValue VUndefined)).

Definition indexDelete (pageName key : string) : proc :=
  Await "index.delete" [VStr pageName; VStr key]
    (λ _, Return (AValue VUndefined)).

(** ** The page registry *)

(** A value that arrives over the channel is a new one: it gets the
    next reference. *)
Definition alloc (m : any) (s : Space) : (positive * any) * Space :=
  ((nextRef s, m), set_nextRef (nextRef s + 1)%positive s).

Fixpoint alloc_all (l : list any) (s : Space)
    : list (positive * any) * Space :=
  match l with
  | [] => ([], s)
  | m :: rest =>
      let '(o, s) := alloc m s in
      let '(os, s) := alloc_all rest s in
      (o :: os, s)
  end.

(** The handler [pageCreated: (meta) => ...] of the constructor. *)
Definition on_pageCreated (meta : positive * any) (s : Space) : Space :=
  let s := set_allPages (Set_add_value meta (allPages s)) s in
  emit (pageListUpdated (Array_from (allPages s))) s.

(** The callback [(meta) => ...] of the loop of [pageDeleted]: reading
    [.name] of an entry that is [null] or [undefined] throws. *)
Definition delete_if_named (name' : any) (meta : positive * any)
    (cur : JSSet any) : any + JSSet any :=
  if nullish meta.2 then inl TypeError
  else if strict_eq name' (prop "name" meta.2)
       then inr (Set_delete meta cur)
       else inr cur.

(** The handler [pageDeleted: (name) => ...] of the constructor.  When
    the loop throws, the handler is left at once: the set stays as the
    loop left it and no [pageListUpdated] is emitted. *)
Definition on_pageDeleted (name' : any) (s : Space) : Space :=
  let '(thrown, pages) := Set_forEach (delete_if_named name') (allPages s) in
  let s := set_allPages pages s in
  match thrown with
  | None => emit (pageListUpdated (Array_from (allPages s))) s
  | Some _ => s
  end.

(** The callback [(pages) => ...] the constructor chains on its
    [listPages] request.  [pages] is whatever the server answered:
    [new Set(pages)] holds what iterating it gives, and throws when it
    is not iterable; then the callback ends there, and nothing looks at
    the promise [then] returned. *)
Definition then_listPages (pages : any) (s : Space) : Space :=
  match iterate pages with
  | Some l =>
      let '(objs, s) := alloc_all l s in
      let s := set_allPages (new_Set objs) s in
      emit (pageListUpdated (Array_from (allPages s))) s
  | None => s
  end.

(** ** Messages from the server *)

(** A message is one of the five the constructor forwards, or the
    response to a request: it bears the name
    [`${eventName}Resp${id}`] and carries the two fields of a
    response.  A message of another name has no listener. *)
Inductive Incoming : Type :=
| Pushed (e : SpaceEvents)
| Response (eventName : string) (id : N) (err result : any).

(** The listener [(...args) => this.emit(eventName, ...args)] and, for
    the two events the class itself subscribes to, its own handler,
    the first subscriber there is.  Nothing listens on the socket for
    [pageListUpdated]. *)
Definition receive_pushed (e : SpaceEvents) (s : Space) : Space :=
  match e with
  | pageCreated meta =>
      let '(o, s) := alloc meta s in
      on_pageCreated o (emit e s)
  | pageDeleted name' => on_pageDeleted name' (emit e s)
  | pageListUpdated _ => s
  | _ => emit e s
  end.

(** The listener [(err, result) => ...] of [wsCall], for promise [p]. *)
Definition wsCall_response (p : nat) (err result : any) (s : Space) : Space :=
  if truthy err then settle p (Rejected err) s
  else settle p (Resolved (AValue result)) s.

Definition react (r : reaction) (st : PromiseState) (s : Space) : Space :=
  match r, st with
  | ListPagesThen, Resolved (AValue pages) => then_listPages pages s
  | AsyncCont k outer, Resolved (AValue v) => exec outer (k v) s
  | AsyncCont k outer, Rejected e => settle outer (Rejected e) s
  | _, _ => s
  end.

(** Once [p] is settled, whatever waited on it runs, in the order in
    which it was chained. *)
Definition run_reactions (p : nat) (s : Space) : Space :=
  match promises s !! p with
  | None | Some Pending => s
  | Some st =>
      let rs := filter (λ x, x.1 = p) (awaiting s) in
      let s := set_awaiting (filter (λ x, x.1 ≠ p) (awaiting s)) s in
      fold_left (λ s x, react x.2 st s) rs s
  end.

(** A response event: the one-shot listeners of that name are taken off
    the socket and called, then the promise reactions run. *)
Definition receive_response (eventName : string) (err result : any)
    (s : Space) : Space :=
  match socket s with
  | None => s
  | Some sock =>
      let hit := filter (λ x, x.1 = eventName) (listeners sock) in
      let sock := mkSocket (filter (λ x, x.1 ≠ eventName) (listeners sock))
                           (outbox sock) in
      let s := set_socket (Some sock) s in
      let s := fold_left (λ s x, wsCall_response x.2 err result s) hit s in
      fold_left (λ s x, run_reactions x.2 s) hit s
  end.

Definition receive (i : Incoming) (s : Space) : Space :=
  match i with
  | Pushed e => receive_pushed e s
  | Response eventName id err result =>
      receive_response (respName eventName id) err result s
  end.

(** ** Construction and sessions *)

(** [new Space(socket)]: the forwarding listeners and the two handlers
    are those of [receive_pushed]; what remains is the first request
    and the callback chained on it. *)
Definition constructor (sock : Socket) : Space :=
  let s := mkSpace (Some sock) 0 [] [] [] [] 1 in
  let '(p, s) := wsCall "page.listPages" [] s in
  set_awaiting (awaiting s ++ [(p, ListPagesThen)]) s.

(** What can happen to a space: a method is called, a message
    arrives. *)
Inductive action : Type :=
| Invoke (c : proc)
| Receive (i : Incoming).

Definition step (s : Space) (a : action) : Space :=
  match a with
  | Invoke c => (call c s).2
  | Receive i => receive i s
  end.

Definition run (acts : list action) (s : Space) : Space :=
  fold_left step acts s.

(** ** Views of a state *)

(** The messages sent so far, oldest first, and the identifiers of the
    correlated requests among them. *)
Definition sent (s : Space) : list Request :=
  match socket s with
  | Some sock => outbox sock
  | None => []
  end.

Definition sent_ids (s : Space) : list N :=
  omap req_id (sent s).

(** The one-shot listeners that still wait for their event. *)
Definition listening (s : Space) : list (string * nat) :=
  match socket s with
  | Some sock => listeners sock
  | None => []
  end.

(** The promises of the [async] methods that are suspended. *)
Definition outer_of (r : reaction) : option nat :=
  match r with
  | AsyncCont _ outer => Some outer
  | ListPagesThen => None
  end.

Definition outers (s : Space) : list nat :=
  omap (λ x, outer_of x.2) (awaiting s).

(** The state once the listeners of [eventName] are off the socket. *)
Definition without_listeners (eventName : string) (s : Space) : Space :=
  match socket s with
  | Some sock =>
      set_socket
        (Some (mkSocket (filter (λ x, x.1 ≠ eventName) (listeners sock))
                        (outbox sock))) s
  | None => s
  end.

(** The outcome the listener of [wsCall] gives its promise. *)
Definition outcome (err result : any) : PromiseState :=
  if truthy err then Rejected err else Resolved (AValue result).

(** What holds of the correlator in every state a session reaches:
    every listener waits under the response name of an identifier
    already handed out, no two for the same identifier, under the same
    name or for the same promise, and always for a pending promise;
    whatever is chained on a promise has its listener; a suspended
    method is suspended once and its own promise is pending; the
    identifiers sent grow. *)
Record wf (s : Space) : Prop := mk_wf {
  wf_socket : is_Some (socket s);
  wf_keys : ∀ key p, (key, p) ∈ listening s →
    ∃ ev id, key = respName ev id ∧ (id ≤ reqId s)%N;
  wf_ids : ∀ ev1 ev2 id p1 p2,
    (respName ev1 id, p1) ∈ listening s → (respName ev2 id, p2) ∈ listening s →
    ev1 = ev2;
  wf_keys_nodup : NoDup (listening s).*1;
  wf_targets_nodup : NoDup (listening s).*2;
  wf_targets_pending : ∀ key p, (key, p) ∈ listening s →
    promises s !! p = Some Pending;
  wf_awaiting_nodup : NoDup (awaiting s).*1;
  wf_awaiting_listen : ∀ p r, (p, r) ∈ awaiting s → p ∈ (listening s).*2;
  wf_outers_nodup : NoDup (outers s);
  wf_outers_pending : ∀ o, o ∈ outers s →
    promises s !! o = Some Pending ∧ o ∉ (listening s).*2;
  wf_listPages : ∀ p, (p, ListPagesThen) ∈ awaiting s →
    ("page.listPagesResp1", p) ∈ listening s;
  wf_sent_sorted : StronglySorted N.lt (sent_ids s);
  wf_sent_bound : Forall (λ id, 0 < id ≤ reqId s)%N (sent_ids s)
}.

(** Two states that differ in the registry at most, and two that
    differ in the correlator at most. *)
Definition same_correlator (s s' : Space) : Prop :=
  socket s' = socket s ∧ reqId s' = reqId s ∧ promises s' = promises s ∧
  awaiting s' = awaiting s.

Definition same_registry (s s' : Space) : Prop :=
  allPages s' = allPages s ∧ emitted s' = emitted s ∧ nextRef s' = nextRef s.

(** A settled promise stays as it is, what was sent stays sent, the
    counter does not go back. *)
Definition grows (s s' : Space) : Prop :=
  (∀ q st, promises s !! q = Some st → st ≠ Pending → promises s' !! q = Some st) ∧
  sent s `prefix_of` sent s' ∧
  (reqId s ≤ reqId s')%N.

(** Every listener and every reaction is still there. *)
Definition extends (s s' : Space) : Prop :=
  (∀ x, x ∈ listening s → x ∈ listening s') ∧
  (∀ x, x ∈ awaiting s → x ∈ awaiting s').

(** The names of the pages in the registry, in insertion order: what
    [.name] reads of each entry. *)
Definition page_names (s : Space) : list any :=
  prop "name" <$> Array_from (allPages s).

(** The requests of a batch, numbered from [first], and the responses
    [rs] to the first of them, in the order of the requests. *)
Fixpoint index_set_requests (pageName : string) (first : N) (kvs : list KV)
    : list Request :=
  match kvs with
  | [] => []
  | (key, value) :: rest =>
      mkRequest "index.set" (Some first) [VStr pageName; VStr key; value]
        :: index_set_requests pageName (first + 1) rest
  end.

Fixpoint index_set_responses (first : N) (rs : list (any * any))
    : list action :=
  match rs with
  | [] => []
  | r :: rest =>
      Receive (Response "index.set" first r.1 r.2)
        :: index_set_responses (first + 1) rest
  end.

(** A session in which the server names no page twice: what it
    answers the first request with holds no two entries of the same
    name, and a page it announces as created bears a name the registry
    does not hold. *)
Definition names_once (s : Space) (a : action) : Prop :=
  match a with
  | Receive (Pushed (pageCreated meta)) => prop "name" meta ∉ page_names s
  | Receive (Response eventName id err result) =>
      respName eventName id = "page.listPagesResp1" →
      ∀ l, iterate result = Some l → NoDup (prop "name" <$> l)
  | _ => True
  end.

Fixpoint names_once_all (acts : list action) (s : Space) : Prop :=
  match acts with
  | [] => True
  | a :: rest => names_once s a ∧ names_once_all rest (step s a)
  end.

(** The references in the registry are distinct and were handed out. *)
Definition registry_ok (s : Space) : Prop :=
  NoDup (allPages s).*1 ∧
  Forall (λ r, r < nextRef s)%positive (allPages s).*1.

(** What [new Set(l)] keeps of the values [l]: every object, and of the
    primitives that are the same value the first.  [seen] is what the
    set holds already. *)
Fixpoint distinct_from (seen l : list any) : list any :=
  match l with
  | [] => []
  | v :: rest =>
      if negb (is_object v) && existsb (same_value v) seen
      then distinct_from seen rest
      else v :: distinct_from (seen ++ [v]) rest
  end.

Definition distinct (l : list any) : list any := distinct_from [] l.

(** An entry [pageDeleted(name')] keeps when it comes to it. *)
Definition not_named (name' : any) (o : positive * any) : bool :=
  negb (strict_eq name' (prop "name" o.2)).

(** ** Views for the properties of the methods and of the event log *)

(** The methods that make one request and wait for its answer, each
    with the event it names, the arguments it was called with, and
    whether it hands the answer to its caller. *)
Inductive request_method : Type :=
| ReadPage (name : string)
| WritePage (name text : string)
| DeletePage (name : string)
| GetPageMeta (name : string)
| IndexSet (pageName key : string) (value : any)
| IndexGet (pageName key : string)
| IndexScanPrefixForPage (pageName keyPrefix : string)
| IndexScanPrefixGlobal (keyPrefix : string)
| IndexDelete (pageName key : string).

Definition method_body (m : request_method) : proc :=
  match m with
  | ReadPage name => readPage name
  | WritePage name text => writePage name text
  | DeletePage name => deletePage name
  | GetPageMeta name => getPageMeta name
  | IndexSet pageName key value => indexSet pageName key value
  | IndexGet pageName key => indexGet pageName key
  | IndexScanPrefixForPage pageName keyPrefix =>
      indexScanPrefixForPage pageName keyPrefix
  | IndexScanPrefixGlobal keyPrefix => indexScanPrefixGlobal keyPrefix
  | IndexDelete pageName key => indexDelete pageName key
  end.

Definition method_event (m : request_method) : string :=
  match m with
  | ReadPage _ => "page.readPage"
  | WritePage _ _ => "page.writePage"
  | DeletePage _ => "page.deletePage"
  | GetPageMeta _ => "page.getPageMeta"
  | IndexSet _ _ _ => "index.set"
  | IndexGet _ _ => "index.get"
  | IndexScanPrefixForPage _ _ => "index.scanPrefixForPage"
  | IndexScanPrefixGlobal _ => "index.scanPrefixGlobal"
  | IndexDelete _ _ => "index.delete"
  end.

Definition method_arguments (m : request_method) : list any :=
  match m with
  | ReadPage name => [VStr name]
  | WritePage name text => [VStr name; VStr text]
  | DeletePage name => [VStr name]
  | GetPageMeta name => [VStr name]
  | IndexSet pageName key value => [VStr pageName; VStr key; value]
  | IndexGet pageName key => [VStr pageName; VStr key]
  | IndexScanPrefixForPage pageName keyPrefix => [VStr pageName; VStr keyPrefix]
  | IndexScanPrefixGlobal keyPrefix => [VStr keyPrefix]
  | IndexDelete pageName key => [VStr pageName; VStr key]
  end.

Definition hands_back (m : request_method) : bool :=
  match m with
  | IndexSet _ _ _ | IndexDelete _ _ => false
  | _ => true
  end.

(** The page list of the last [pageListUpdated] in a log. *)
Definition page_list_of (e : SpaceEvents) : option (list any) :=
  match e with
  | pageListUpdated pages => Some pages
  | _ => None
  end.

Definition last_page_list (log : list SpaceEvents) : option (list any) :=
  last (omap page_list_of log).

(** The events of a log that came from the socket: everything but the
    [pageListUpdated] the class emits itself. *)
Definition passed_on (log : list SpaceEvents) : list SpaceEvents :=
  filter (λ e, is_Some (page_list_of e) → False) log.

(** The event an action makes the socket hand to a handler of the
    constructor, which registers one for [connect], [cursorSnapshot],
    [pageCreated], [pageChanged] and [pageDeleted]. *)
Definition heard (a : action) : option SpaceEvents :=
  match a with
  | Receive (Pushed (pageListUpdated _)) => None
  | Receive (Pushed e) => Some e
  | _ => None
  end.

(** The last page list handed to the subscribers is the registry, and
    before any was handed out the registry is empty; or the registry
    holds an entry at which the loop of [pageDeleted] throws. *)
Definition listed (s : Space) : Prop :=
  last_page_list (emitted s) = Some (Array_from (allPages s)) ∨
  (last_page_list (emitted s) = None ∧ allPages s = []) ∨
  Exists (λ o, nullish o.2 = true) (allPages s).

(** Every listener of [s'] was one of [s] or waits for an identifier
    handed out after [s]. *)
Definition new_or_old (s s' : Space) : Prop :=
  ∀ x, x ∈ listening s' →
    x ∈ listening s ∨ ∃ ev id, x.1 = respName ev id ∧ (reqId s < id)%N.

(** [key] is not the response name of an identifier still to come. *)
Definition not_to_come (s : Space) (key : string) : Prop :=
  ∀ ev id, key = respName ev id → (id ≤ reqId s)%N.

End Space.

(** ** Concrete pages, updates and sessions *)

Definition page_a : any := VObj [("name", VStr "a"); ("lastModified", VNum 1)].
Definition page_b : any := VObj [("name", VStr "b"); ("lastModified", VNum 2)].
Definition page_c : any := VObj [("name", VStr "c")].

Definition update_with_cursor : @Update retaining :=
  @mkUpdate retaining [3%Z] (Some [cursorEffect_of (VNum 7)]) (VStr "c1").

Definition listed_then_changed : list (@action retaining) :=
  [Receive (Response "page.listPages" 1 VNull
     (VArr [VObj [("name", VStr "a"); ("lastModified", VNum 1)];
            VObj [("name", VStr "b"); ("lastModified", VNum 2)]]));
   Receive (Pushed (pageDeleted (VStr "a")));
   Receive (Pushed (pageCreated page_a))].

(** The page list of the scenario of the specification, and one the
    server could send with an entry that is no page. *)
Definition listed_a_b : any :=
  VArr [VObj [("name", VStr "a")]; VObj [("name", VStr "b")]].

Definition listed_with_null : any :=
  VArr [VObj [("name", VStr "a")]; VNull; VObj [("name", VStr "a")]].

Definition three_entries : list KV :=
  [("k1", VNum 1); ("k2", VNum 2); ("k3", VNum 3)].

(** An update as the server sends it, with the cursor 7 as an effect. *)
Definition pulled_with_cursor : any :=
  VObj [("clientID", VStr "c2"); ("changes", VArr [VNum 3]);
        ("effects", VArr [VObj [("value", VNum 7)]])].

(** The answer to [openPage] for a page of two lines at version 4. *)
Definition opened_page : any :=
  VObj [("text", VArr [VStr "# Title"; VStr "body"]); ("version", VNum 4);
        ("cursors", VObj [("c1", VNum 7)])].

(** What [pullUpdates] reads from it. *)
Definition update_pulled : @Update retaining :=
  @mkUpdate retaining [3%Z] (Some [cursorEffect_of (VNum 7)]) (VStr "c2").

(** * Properties *)

(** ** Response names

    The name of a response event ends in the decimal digits of the
    identifier, after a letter: two such names agree only when the
    event names and the identifiers agree. *)

Lemma chars_app s t : chars (s +:+ t) = chars s ++ chars t.
Proof. induction s as [|c s IH]; simpl; [done|by rewrite IH]. Qed.

Lemma chars_inj s t : chars s = chars t → s = t.
Proof.
  revert t; induction s as [|c s IH]; intros [|d t]; simpl; try done.
  intros [= -> Heq]. f_equal. by apply IH.
Qed.

Lemma pretty_N_char_digit x : digit (pretty_N_char x) = true.
Proof. unfold pretty_N_char. by repeat case_match. Qed.

Lemma pretty_N_go_digits x s :
  ∃ d, chars (pretty_N_go x s) = d ++ chars s ∧ Forall (λ c, digit c = true) d.
Proof.
  revert s. induction (N.lt_wf_0 x) as [x _ IH]; intros s.
  destruct (decide (x = 0%N)) as [->|Hx].
  - exists []. by rewrite pretty_N_go_0.
  - rewrite pretty_N_go_step by lia.
    destruct (IH (x `div` 10)%N) with (s := String (pretty_N_char (x `mod` 10)) s)
      as (d & Hd & Hall).
    { apply N.div_lt; lia. }
    exists (d ++ [pretty_N_char (x `mod` 10)%N]). split.
    + rewrite Hd. simpl. by rewrite <-app_assoc.
    + apply Forall_app. split; [done|]. repeat constructor. apply pretty_N_char_digit.
Qed.

Lemma pretty_N_digits (x : N) : Forall (λ c, digit c = true) (chars (pretty x)).
Proof.
  unfold pretty, pretty_N. case_decide.
  - by repeat constructor.
  - destruct (pretty_N_go_digits x EmptyString) as (d & -> & Hd).
    simpl. by rewrite app_nil_r.
Qed.

(** Two strings that end in a run of digits after a character that is
    none agree on the run and on what comes before. *)
Lemma digit_suffix_inj (l1 l2 d1 d2 : list ascii) (c1 c2 : ascii) :
  digit c1 = false → digit c2 = false →
  Forall (λ c, digit c = true) d1 → Forall (λ c, digit c = true) d2 →
  l1 ++ c1 :: d1 = l2 ++ c2 :: d2 → l1 = l2 ∧ d1 = d2.
Proof.
  intros Hc1 Hc2 Hd1 Hd2. revert l2.
  induction l1 as [|a l1 IH]; intros [|b l2]; simpl; intros Heq.
  - by simplify_eq.
  - injection Heq as -> ->. apply Forall_app in Hd1 as [_ Hd1].
    apply Forall_cons in Hd1 as [? _]. congruence.
  - injection Heq as -> <-. apply Forall_app in Hd2 as [_ Hd2].
    apply Forall_cons in Hd2 as [? _]. congruence.
  - injection Heq as -> Heq. destruct (IH _ Heq) as [-> ->]. done.
Qed.

Lemma respName_inj e1 e2 (i1 i2 : N) :
  respName e1 i1 = respName e2 i2 → e1 = e2 ∧ i1 = i2.
Proof.
  unfold respName. intros Heq. apply (f_equal chars) in Heq.
  rewrite !chars_app in Heq. change (chars "Resp") with (chars "Res" ++ ["p"%char]) in Heq.
  rewrite <-!app_assoc, !app_assoc in Heq.
  rewrite <-!(app_assoc _ ["p"%char]) in Heq. simpl in Heq.
  apply digit_suffix_inj in Heq as [He Hi]; try done; try apply pretty_N_digits.
  split.
  - apply app_inv_tail in He. by apply chars_inj.
  - apply chars_inj in Hi. by apply (inj pretty).
Qed.

(** ** Lists and promises *)

Section Promises.
Context `{ChangeSetLib}.

(** *** Association lists without repeated keys *)

Lemma filter_key_none {K V} `{EqDecision K} (l : list (K * V)) (k : K) :
  k ∉ l.*1 → filter (λ x, x.1 = k) l = [] ∧ filter (λ x, x.1 ≠ k) l = l.
Proof.
  induction l as [|[k' v] l IH]; simpl; [done|].
  rewrite not_elem_of_cons. intros [Hne Hnot]. destruct (IH Hnot) as [IH1 IH2].
  rewrite filter_cons_False by (simpl; congruence).
  rewrite filter_cons_True by (simpl; congruence).
  by rewrite IH1, IH2.
Qed.

Lemma filter_key_hit {K V} `{EqDecision K} (l : list (K * V)) (k : K) (v : V) :
  NoDup l.*1 → (k, v) ∈ l →
  filter (λ x, x.1 = k) l = [(k, v)] ∧
  (∀ x, x ∈ filter (λ x, x.1 ≠ k) l ↔ x ∈ l ∧ x ≠ (k, v)).
Proof.
  induction l as [|[k' v'] l IH]; simpl; [by rewrite elem_of_nil|].
  rewrite NoDup_cons, elem_of_cons. intros [Hk' Hnd] [Heq|Hin].
  - injection Heq as <- <-. destruct (filter_key_none l k Hk') as [E1 E2].
    rewrite filter_cons_True by done. rewrite filter_cons_False by (simpl; tauto).
    rewrite E1, E2. split; [done|]. intros [k2 v2]. rewrite elem_of_cons. split.
    + intros Hx. split; [tauto|]. intros [= -> ->]. apply Hk'.
      apply list_elem_of_fmap. by exists (k, v).
    + tauto.
  - assert (k' ≠ k) as Hne.
    { intros ->. apply Hk'. apply list_elem_of_fmap. by exists (k, v). }
    destruct (IH Hnd Hin) as [E1 E2].
    rewrite filter_cons_False by (simpl; congruence).
    rewrite filter_cons_True by (simpl; congruence).
    split; [done|]. intros x. rewrite !elem_of_cons, E2. split.
    + intros [->|[??]]; [|tauto]. split; [tauto|]. congruence.
    + tauto.
Qed.

Lemma NoDup_fst_functional {K V} (l : list (K * V)) k v1 v2 :
  NoDup l.*1 → (k, v1) ∈ l → (k, v2) ∈ l → v1 = v2.
Proof.
  induction l as [|[k' v'] l IH]; simpl; [by rewrite elem_of_nil|].
  rewrite NoDup_cons, !elem_of_cons. intros [Hk' Hnd] [E1|H1] [E2|H2].
  - congruence.
  - injection E1 as <- <-. destruct Hk'. apply list_elem_of_fmap. by exists (k, v2).
  - injection E2 as <- <-. destruct Hk'. apply list_elem_of_fmap. by exists (k, v1).
  - by apply IH.
Qed.

Lemma NoDup_snd_functional {K V} (l : list (K * V)) k1 k2 v :
  NoDup l.*2 → (k1, v) ∈ l → (k2, v) ∈ l → k1 = k2.
Proof.
  induction l as [|[k' v'] l IH]; simpl; [by rewrite elem_of_nil|].
  rewrite NoDup_cons, !elem_of_cons. intros [Hk' Hnd] [E1|H1] [E2|H2].
  - congruence.
  - injection E1 as <- <-. destruct Hk'. apply list_elem_of_fmap. by exists (k2, v).
  - injection E2 as <- <-. destruct Hk'. apply list_elem_of_fmap. by exists (k1, v).
  - by apply IH.
Qed.

(** *** The setters and the views *)

Lemma settle_frame p st s :
  socket (settle p st s) = socket s ∧ reqId (settle p st s) = reqId s ∧
  allPages (settle p st s) = allPages s ∧ awaiting (settle p st s) = awaiting s ∧
  emitted (settle p st s) = emitted s ∧ nextRef (settle p st s) = nextRef s.
Proof. unfold settle. by repeat case_match. Qed.

Lemma settle_pending p st s :
  promises s !! p = Some Pending →
  promises (settle p st s) = <[p := st]> (promises s).
Proof. unfold settle. by intros ->. Qed.

Lemma settle_not_pending p st s :
  promises s !! p ≠ Some Pending → settle p st s = s.
Proof. unfold settle. intros Hp. by repeat case_match. Qed.

Lemma settle_pending_or p st s :
  promises (settle p st s) = <[p := st]> (promises s) ∨ settle p st s = s.
Proof. unfold settle. repeat case_match; auto. Qed.

Lemma settle_lookup_ne p q st s :
  p ≠ q → promises (settle p st s) !! q = promises s !! q.
Proof.
  intros. destruct (settle_pending_or p st s) as [-> | ->]; [|done].
  by rewrite list_lookup_insert_ne.
Qed.

Lemma settle_lookup_pending p st s :
  promises s !! p = Some Pending → promises (settle p st s) !! p = Some st.
Proof.
  intros Hp. rewrite settle_pending by done.
  apply list_lookup_insert_eq. by eapply lookup_lt_Some.
Qed.

Lemma settle_lookup_settled p q st st' s :
  promises s !! q = Some st' → st' ≠ Pending →
  promises (settle p st s) !! q = Some st'.
Proof.
  intros Hq Hne. destruct (decide (p = q)) as [->|]; [|by rewrite settle_lookup_ne].
  rewrite settle_not_pending; [done|congruence].
Qed.

Lemma settle_length p st s : length (promises (settle p st s)) = length (promises s).
Proof.
  destruct (settle_pending_or p st s) as [-> | ->]; [apply length_insert|done].
Qed.

Lemma settle_views p st s :
  listening (settle p st s) = listening s ∧ sent (settle p st s) = sent s ∧
  outers (settle p st s) = outers s.
Proof.
  unfold listening, sent, outers.
  destruct (settle_frame p st s) as (-> & _ & _ & -> & _). done.
Qed.

End Promises.

(** ** The invariant of the correlator *)

Section Invariant.
Context `{ChangeSetLib}.

Lemma wsCall_attached ev args s sock :
  socket s = Some sock →
  wsCall ev args s =
    (length (promises s),
     mkSpace
       (Some (mkSocket
          (listeners sock ++ [(respName ev (reqId s + 1), length (promises s))])
          (outbox sock ++ [mkRequest ev (Some (reqId s + 1)%N) args])))
       (reqId s + 1) (allPages s) (promises s ++ [Pending]) (awaiting s)
       (emitted s) (nextRef s)).
Proof. destruct s; simpl. by intros ->. Qed.

Lemma wf_same s s' :
  socket s' = socket s → reqId s' = reqId s → promises s' = promises s →
  awaiting s' = awaiting s → wf s → wf s'.
Proof.
  intros Hs Hr Hp Ha [].
  constructor; unfold listening, sent_ids, sent, outers in *;
    rewrite ?Hs, ?Hr, ?Hp, ?Ha; done.
Qed.

Lemma wf_target_lt s key p : wf s → (key, p) ∈ listening s → p < length (promises s).
Proof. intros Hwf Hin. eapply lookup_lt_Some, wf_targets_pending; eauto. Qed.

Lemma wf_target_lt' s p : wf s → p ∈ (listening s).*2 → p < length (promises s).
Proof.
  intros Hwf ([key p'] & -> & Hin)%list_elem_of_fmap. by eapply wf_target_lt.
Qed.

Lemma wf_outer_lt s o : wf s → o ∈ outers s → o < length (promises s).
Proof. intros Hwf Hin. eapply lookup_lt_Some, wf_outers_pending; eauto. Qed.

Lemma elem_of_outers s o :
  o ∈ outers s ↔ ∃ p k, (p, AsyncCont k o) ∈ awaiting s.
Proof.
  unfold outers. rewrite list_elem_of_omap. split.
  - intros ([p [|k o']] & Hin & Hr); simplify_eq/=. eauto.
  - intros (p & k & Hin). by exists (p, AsyncCont k o).
Qed.

Lemma wf_wsCall ev args s : wf s → wf (wsCall ev args s).2.
Proof.
  intros Hwf. destruct (wf_socket _ Hwf) as [[L O] Hsock].
  rewrite (wsCall_attached _ _ _ _ Hsock). simpl.
  assert (listening s = L) as HL by (unfold listening; by rewrite Hsock).
  assert (sent_ids s = omap req_id O) as HO by (unfold sent_ids, sent; by rewrite Hsock).
  destruct Hwf as [_ Hk Hid Hkn Htn Htp Han Hal Hon Hop Hlp Hss Hsb].
  rewrite HL in *. rewrite HO in *.
  assert (∀ ev' id p, (respName ev' id, p) ∈ L → (id ≤ reqId s)%N) as Hold.
  { intros ev' id p Hin. destruct (Hk _ _ Hin) as (ev2 & id2 & Heq & ?).
    apply respName_inj in Heq as [_ ->]. done. }
  constructor; unfold listening, sent_ids, sent, outers in *; simpl.
  - done.
  - intros key p [Hin|Hin%list_elem_of_singleton]%elem_of_app.
    + destruct (Hk _ _ Hin) as (ev' & id & -> & ?). exists ev', id. split; [done|lia].
    + injection Hin as -> ->. exists ev, (reqId s + 1)%N. split; [done|lia].
  - intros ev1 ev2 id p1 p2 [H1|H1%list_elem_of_singleton]%elem_of_app
      [H2|H2%list_elem_of_singleton]%elem_of_app.
    + by eapply Hid.
    + injection H2 as [_ ->]%respName_inj _. apply Hold in H1. lia.
    + injection H1 as [_ ->]%respName_inj _. apply Hold in H2. lia.
    + injection H1 as [-> _]%respName_inj _. injection H2 as [-> _]%respName_inj _. done.
  - rewrite fmap_app. apply NoDup_app. split_and!; [done| |apply NoDup_singleton].
    intros key ([key' p] & -> & Hin)%list_elem_of_fmap. simpl.
    rewrite list_elem_of_singleton. intros Heq.
    destruct (Hk _ _ Hin) as (ev' & id & -> & ?).
    apply respName_inj in Heq as [_ ->]. lia.
  - rewrite fmap_app. apply NoDup_app. split_and!; [done| |apply NoDup_singleton].
    intros p ([key p'] & -> & Hin)%list_elem_of_fmap. simpl.
    rewrite list_elem_of_singleton. intros ->.
    apply Htp, lookup_lt_Some in Hin. lia.
  - intros key p [Hin|Hin%list_elem_of_singleton]%elem_of_app.
    + rewrite lookup_app_l; [by eapply Htp|]. eapply lookup_lt_Some, Htp, Hin.
    + injection Hin as -> ->. by apply list_lookup_middle.
  - done.
  - intros p r Hin. rewrite fmap_app, elem_of_app. left. by eapply Hal.
  - done.
  - intros o Ho. destruct (Hop o Ho) as [Hp Hnin]. split.
    + rewrite lookup_app_l; [done|]. by eapply lookup_lt_Some.
    + rewrite fmap_app, elem_of_app. intros [?|Heq%list_elem_of_singleton]; [done|].
      simpl in Heq. apply lookup_lt_Some in Hp. lia.
  - intros p Hin. rewrite elem_of_app. left. by apply Hlp.
  - rewrite omap_app. simpl. apply StronglySorted_app_2; [|done|].
    + intros x y Hx Hy%list_elem_of_singleton. subst y.
      rewrite Forall_forall in Hsb. apply Hsb in Hx. lia.
    + repeat constructor.
  - rewrite omap_app, Forall_app. simpl. split.
    + eapply Forall_impl; [done|]. simpl. intros; lia.
    + repeat constructor; lia.
Qed.

Lemma wf_settle_fresh o st s :
  wf s → o ∉ (listening s).*2 → o ∉ outers s → wf (settle o st s).
Proof.
  intros Hwf Hol Hoo.
  destruct (settle_frame o st s) as (Hs & Hr & _ & Ha & _).
  destruct (settle_views o st s) as (HL & HS & HO).
  destruct Hwf as [Hso Hk Hid Hkn Htn Htp Han Hal Hon Hop Hlp Hss Hsb].
  constructor; unfold sent_ids; rewrite ?HL, ?HS, ?HO, ?Hs, ?Hr, ?Ha; try done.
  - intros key p Hin. rewrite settle_lookup_ne; [by eapply Htp|].
    intros ->. apply Hol. apply list_elem_of_fmap. by exists (key, p).
  - intros o' Ho'. destruct (Hop o' Ho'). split; [|done].
    rewrite settle_lookup_ne; [done|]. by intros ->.
Qed.

Lemma wf_set_reqId n s : wf s → (reqId s ≤ n)%N → wf (set_reqId n s).
Proof.
  intros [Hso Hk Hid Hkn Htn Htp Han Hal Hon Hop Hlp Hss Hsb] Hle.
  constructor; try done.
  - intros key p Hin. destruct (Hk key p Hin) as (ev & id & -> & ?).
    exists ev, id. split; [done|]. simpl. lia.
  - eapply Forall_impl; [exact Hsb|]. simpl. intros; lia.
Qed.

Lemma wf_exec c : ∀ o s,
  wf s → promises s !! o = Some Pending → o ∉ (listening s).*2 → o ∉ outers s →
  wf (exec o c s).
Proof.
  induction c as [a|e|k IH|ev args k _|yes IHy no IHn|ev args k IH|k IH];
    intros o s Hwf Hop Hol Hoo; simpl.
  - by apply wf_settle_fresh.
  - by apply wf_settle_fresh.
  - apply IH; try done. apply wf_set_reqId; [done|lia].
  - destruct (wf_socket _ Hwf) as [[L O] Hsock].
    pose proof (wf_wsCall ev args s Hwf) as Hwf'.
    rewrite (wsCall_attached _ _ _ _ Hsock) in Hwf' |- *. simpl in Hwf'. cbn [fst snd].
    cbn [promises]. rewrite (list_lookup_middle _ [] Pending) by done.
    assert (listening s = L) as HL by (unfold listening; by rewrite Hsock).
    rewrite HL in *.
    destruct Hwf' as [Hso' Hk' Hid' Hkn' Htn' Htp' Han' Hal' Hon' Hop' Hlp' Hss' Hsb'].
    unfold listening, sent_ids, sent, outers in *; simpl in *.
    constructor; unfold listening, sent_ids, sent, outers; simpl; try done.
    + rewrite fmap_app. apply NoDup_app. split_and!; [done| |apply NoDup_singleton].
      intros p Hp. simpl. rewrite list_elem_of_singleton. intros ->.
      apply list_elem_of_fmap in Hp as ([p r] & Heq & Hin). simpl in Heq.
      pose proof (wf_awaiting_listen _ Hwf _ _ Hin) as Hl.
      apply wf_target_lt' in Hl; [lia|done].
    + intros p r [Hin|Hin%list_elem_of_singleton]%elem_of_app; [by eapply Hal'|].
      injection Hin as -> ->. rewrite fmap_app, elem_of_app. right.
      simpl. apply list_elem_of_singleton. done.
    + rewrite omap_app. simpl. apply NoDup_app. split_and!; [done| |apply NoDup_singleton].
      intros o' Ho'. rewrite list_elem_of_singleton. by intros ->.
    + intros o'. rewrite omap_app, elem_of_app. simpl.
      intros [Ho'|Ho'%list_elem_of_singleton]; [by apply Hop'|]. subst o'.
      apply lookup_lt_Some in Hop as Hlt. split.
      * by rewrite lookup_app_l.
      * rewrite fmap_app, elem_of_app. simpl. rewrite list_elem_of_singleton. intros [?|?]; [done|lia].
    + intros p [Hin|Hin%list_elem_of_singleton]%elem_of_app; [by apply Hlp'|done].
  - destruct (wf_socket _ Hwf) as [sock Hsock]. rewrite Hsock. by apply IHy.
  - destruct (wf_socket _ Hwf) as [[L O] Hsock]. rewrite Hsock. apply IH.
    + destruct Hwf as [Hso Hk Hid Hkn Htn Htp Han Hal Hon Hop' Hlp Hss Hsb].
      unfold listening, sent_ids, sent, outers in *. rewrite Hsock in *.
      constructor; unfold listening, sent_ids, sent, outers; simpl; try done.
      * by rewrite omap_app, app_nil_r.
      * by rewrite omap_app, app_nil_r.
    + done.
    + unfold listening in *. by rewrite Hsock in Hol.
    + done.
  - by apply IH.
Qed.

Lemma wf_call c s : wf s → wf (call c s).2.
Proof.
  intros Hwf. unfold call, new_Promise. cbn [fst snd].
  assert (wf (set_promises (promises s ++ [Pending]) s)) as Hwf'.
  { destruct Hwf as [Hso Hk Hid Hkn Htn Htp Han Hal Hon Hop Hlp Hss Hsb].
    constructor; try done.
    - intros key p Hin. simpl. rewrite lookup_app_l; [by eapply Htp|].
      eapply lookup_lt_Some, Htp, Hin.
    - intros o Ho. destruct (Hop o Ho) as [Hp ?]. split; [|done]. simpl.
      rewrite lookup_app_l; [done|]. by eapply lookup_lt_Some. }
  apply wf_exec; [done|..].
  - simpl. by apply list_lookup_middle.
  - intros Hin. apply (wf_target_lt' _ _ Hwf) in Hin. lia.
  - intros Hin. apply (wf_outer_lt _ _ Hwf) in Hin. lia.
Qed.

End Invariant.

(** ** One response *)

Lemma omap_filter_sublist {A B} (f : A → option B) (P : A → Prop)
    `{∀ x, Decision (P x)} (l : list A) :
  omap f (filter P l) `sublist_of` omap f l.
Proof.
  induction l as [|x l IH]; simpl; [done|].
  destruct (decide (P x)).
  - rewrite filter_cons_True by done. simpl.
    destruct (f x); [by apply sublist_skip|done].
  - rewrite filter_cons_False by done.
    destruct (f x); [by apply sublist_cons|done].
Qed.

Lemma fmap_filter_sublist {A B} (f : A → B) (P : A → Prop)
    `{∀ x, Decision (P x)} (l : list A) :
  f <$> filter P l `sublist_of` f <$> l.
Proof.
  induction l as [|x l IH]; simpl; [done|].
  destruct (decide (P x)).
  - rewrite filter_cons_True by done. by apply sublist_skip.
  - rewrite filter_cons_False by done. by apply sublist_cons.
Qed.

Lemma omap_without_key {K V B} `{EqDecision K} (f : K * V → option B)
    (l : list (K * V)) (k : K) (v : V) (b : B) :
  NoDup (omap f l) → (k, v) ∈ l → f (k, v) = Some b →
  b ∉ omap f (filter (λ x, x.1 ≠ k) l).
Proof.
  induction l as [|[k' v'] l IH]; simpl; [by rewrite elem_of_nil|].
  intros Hnd [Heq|Hin]%elem_of_cons Hf.
  - injection Heq as <- <-. rewrite Hf in Hnd. apply NoDup_cons in Hnd as [Hb _].
    rewrite filter_cons_False by (simpl; tauto).
    intros Hin. apply Hb. eapply elem_of_sublist; [exact Hin|].
    apply omap_filter_sublist.
  - destruct (decide (k' ≠ k)).
    + rewrite filter_cons_True by done. simpl.
      destruct (f (k', v')) as [b'|] eqn:Hf'; [|by apply IH].
      apply NoDup_cons in Hnd as [Hb' Hnd]. rewrite not_elem_of_cons. split; [|by apply IH].
      intros ->. apply Hb'. apply list_elem_of_omap. by exists (k, v).
    + rewrite filter_cons_False by done. apply IH; [|done..].
      destruct (f (k', v')); [by apply NoDup_cons in Hnd as [_ ?]|done].
Qed.

Section Responses.
Context `{ChangeSetLib}.

Lemma wsCall_response_outcome p err result s :
  wsCall_response p err result s = settle p (outcome err result) s.
Proof. unfold wsCall_response, outcome. by destruct (truthy err). Qed.

Lemma outcome_not_pending err result : outcome err result ≠ Pending.
Proof. unfold outcome. by destruct (truthy err). Qed.

Lemma without_listeners_miss key s :
  key ∉ (listening s).*1 → without_listeners key s = s.
Proof.
  unfold without_listeners, listening. destruct s as [[[L O]|] ? ? ? ? ? ?]; simpl; [|done].
  intros Hk. destruct (filter_key_none L key Hk) as [_ ->]. done.
Qed.

Lemma receive_response_miss key err result s :
  key ∉ (listening s).*1 → receive_response key err result s = s.
Proof.
  intros Hk. pose proof (without_listeners_miss key s Hk) as Hw.
  unfold receive_response, without_listeners, listening in *.
  destruct (socket s) as [[L O]|]; [|done]. simpl in *.
  destruct (filter_key_none L key Hk) as [-> _]. simpl. done.
Qed.

Lemma receive_response_hit key p err result s :
  NoDup (listening s).*1 → (key, p) ∈ listening s →
  receive_response key err result s =
    run_reactions p (settle p (outcome err result) (without_listeners key s)).
Proof.
  intros Hnd Hin. unfold receive_response, without_listeners, listening in *.
  destruct (socket s) as [[L O]|]; [|by apply elem_of_nil in Hin]. simpl in *.
  destruct (filter_key_hit L key p Hnd Hin) as [-> _]. simpl.
  by rewrite wsCall_response_outcome.
Qed.

Lemma run_reactions_miss p st s :
  promises s !! p = Some st → p ∉ (awaiting s).*1 → run_reactions p s = s.
Proof.
  intros Hp Hk. unfold run_reactions. rewrite Hp.
  destruct (filter_key_none (awaiting s) p Hk) as [-> ->].
  destruct st; [done|by destruct s..].
Qed.

Lemma run_reactions_hit p r st s :
  promises s !! p = Some st → st ≠ Pending →
  NoDup (awaiting s).*1 → (p, r) ∈ awaiting s →
  run_reactions p s =
    react r st (set_awaiting (filter (λ x, x.1 ≠ p) (awaiting s)) s).
Proof.
  intros Hp Hst Hnd Hin. unfold run_reactions. rewrite Hp.
  destruct (filter_key_hit (awaiting s) p r Hnd Hin) as [-> _].
  by destruct st.
Qed.

Lemma without_listeners_views key s :
  is_Some (socket s) →
  is_Some (socket (without_listeners key s)) ∧
  listening (without_listeners key s) = filter (λ x, x.1 ≠ key) (listening s) ∧
  sent (without_listeners key s) = sent s ∧
  reqId (without_listeners key s) = reqId s ∧
  promises (without_listeners key s) = promises s ∧
  awaiting (without_listeners key s) = awaiting s ∧
  allPages (without_listeners key s) = allPages s ∧
  emitted (without_listeners key s) = emitted s ∧
  nextRef (without_listeners key s) = nextRef s.
Proof.
  intros [sock Hs]. unfold without_listeners, listening, sent. rewrite Hs. simpl.
  split_and!; eauto.
Qed.

(** The state between the call of the listener and the reaction. *)
Lemma fired_views key p st s :
  wf s → (key, p) ∈ listening s →
  let s3 := set_awaiting (filter (λ x, x.1 ≠ p) (awaiting s))
              (settle p st (without_listeners key s)) in
  is_Some (socket s3) ∧
  listening s3 = filter (λ x, x.1 ≠ key) (listening s) ∧
  sent s3 = sent s ∧ reqId s3 = reqId s ∧
  promises s3 = <[p := st]> (promises s) ∧
  awaiting s3 = filter (λ x, x.1 ≠ p) (awaiting s) ∧
  allPages s3 = allPages s ∧ emitted s3 = emitted s ∧ nextRef s3 = nextRef s.
Proof.
  intros Hwf Hin.
  destruct (without_listeners_views key s (wf_socket _ Hwf))
    as (Hso' & HL' & HS' & Hr' & Hp' & Ha' & Hg' & He' & Hn').
  set (s1 := without_listeners key s) in *.
  destruct (settle_frame p st s1) as (Hso2 & Hr2 & Hg2 & Ha2 & He2 & Hn2).
  destruct (settle_views p st s1) as (HL2 & HS2 & HO2).
  assert (promises (settle p st s1) = <[p := st]> (promises s)) as Hp2.
  { rewrite settle_pending.
    - by rewrite Hp'.
    - rewrite Hp'. exact (wf_targets_pending _ Hwf _ _ Hin). }
  set (s2 := settle p st s1) in *. clearbody s2 s1. intros s3.
  assert (listening s3 = listening s2 ∧ sent s3 = sent s2) as [-> ->] by done.
  subst s3. cbn. rewrite Hso2, Hr2, Hg2, He2, Hn2, Hp2, HL2, HS2.
  split_and!; done.
Qed.

Lemma wf_fired key p st s :
  wf s → (key, p) ∈ listening s → st ≠ Pending →
  wf (set_awaiting (filter (λ x, x.1 ≠ p) (awaiting s))
        (settle p st (without_listeners key s))).
Proof.
  intros Hwf Hin Hst.
  destruct (fired_views key p st s Hwf Hin)
    as (Hso3 & HL3 & HS3 & Hr3 & Hp3 & Ha3 & _).
  set (s3 := set_awaiting _ _) in *. clearbody s3.
  assert (∀ k' p', (k', p') ∈ listening s3 → (k', p') ∈ listening s ∧ p' ≠ p) as Hsub.
  { intros k' p'. rewrite HL3, list_elem_of_filter. simpl. intros [Hne Hin']. split; [done|].
    intros ->. apply Hne. eapply NoDup_snd_functional; [apply wf_targets_nodup| |]; eauto. }
  assert (∀ q, q ∈ (listening s).*2 → q ≠ p → q ∈ (listening s3).*2) as Hkeep.
  { intros q ([k' q'] & -> & Hin')%list_elem_of_fmap Hne. simpl in *.
    apply list_elem_of_fmap. exists (k', q'). split; [done|].
    rewrite HL3. apply list_elem_of_filter. split; [|done]. simpl. intros ->.
    apply Hne. eapply NoDup_fst_functional; [apply wf_keys_nodup| |]; eauto. }
  assert (outers s3 `sublist_of` outers s) as Hosub.
  { unfold outers. rewrite Ha3. apply omap_filter_sublist. }
  constructor.
  - done.
  - intros k' p' [Hin' _]%Hsub. destruct (wf_keys _ Hwf _ _ Hin') as (ev & id & -> & ?).
    exists ev, id. split; [done|]. by rewrite Hr3.
  - intros ev1 ev2 id p1 p2 [H1 _]%Hsub [H2 _]%Hsub.
    exact (wf_ids _ Hwf _ _ _ _ _ H1 H2).
  - rewrite HL3. eapply sublist_NoDup; [apply (wf_keys_nodup _ Hwf)|].
    apply fmap_filter_sublist.
  - rewrite HL3. eapply sublist_NoDup; [apply (wf_targets_nodup _ Hwf)|].
    apply fmap_filter_sublist.
  - intros k' p' [Hin' Hne]%Hsub. rewrite Hp3.
    rewrite list_lookup_insert_ne by done. exact (wf_targets_pending _ Hwf _ _ Hin').
  - rewrite Ha3.
    eapply sublist_NoDup; [apply (wf_awaiting_nodup _ Hwf)|]. apply fmap_filter_sublist.
  - intros q r. rewrite Ha3, list_elem_of_filter. simpl.
    intros [Hne Hin']. apply Hkeep; [|done]. exact (wf_awaiting_listen _ Hwf _ _ Hin').
  - eapply sublist_NoDup; [apply (wf_outers_nodup _ Hwf)|done].
  - intros o Ho. eapply elem_of_sublist in Ho; [|exact Hosub].
    destruct (wf_outers_pending _ Hwf o Ho) as [Hpo Hnl].
    assert (o ≠ p) as Hne.
    { intros ->. apply Hnl. apply list_elem_of_fmap. by exists (key, p). }
    split.
    + rewrite Hp3. by rewrite list_lookup_insert_ne.
    + intros ([k' o'] & -> & [Hin' _]%Hsub)%list_elem_of_fmap. apply Hnl.
      apply list_elem_of_fmap. by exists (k', o').
  - intros q. rewrite Ha3, list_elem_of_filter. simpl.
    intros [Hne Hin']. apply (wf_listPages _ Hwf) in Hin'.
    rewrite HL3. apply list_elem_of_filter. split; [|done]. simpl. intros Heq.
    apply Hne. rewrite Heq in Hin'.
    eapply NoDup_fst_functional; [apply wf_keys_nodup| |]; eauto.
  - unfold sent_ids. rewrite HS3. apply Hwf.
  - unfold sent_ids. rewrite HS3, Hr3. apply Hwf.
Qed.

End Responses.

Section Sessions.
Context `{ChangeSetLib}.

(** *** What the registry leaves alone, and what the methods do *)

Lemma wf_same_correlator s s' : same_correlator s s' → wf s → wf s'.
Proof. intros (? & ? & ? & ?). by apply wf_same. Qed.

Lemma alloc_all_spec l s :
  same_correlator s (alloc_all l s).2 ∧
  allPages (alloc_all l s).2 = allPages s ∧
  emitted (alloc_all l s).2 = emitted s ∧
  (alloc_all l s).1.*2 = l ∧
  NoDup (alloc_all l s).1.*1 ∧
  Forall (λ r, nextRef s ≤ r < nextRef (alloc_all l s).2)%positive (alloc_all l s).1.*1 ∧
  (nextRef s ≤ nextRef (alloc_all l s).2)%positive.
Proof.
  revert s. induction l as [|m l IH]; intros s; simpl.
  - split_and!; try done; try constructor; lia.
  - destruct (IH (set_nextRef (nextRef s + 1)%positive s))
      as ((?&?&?&?) & ? & ? & Hl & Hnd & Hall & Hle).
    destruct (alloc_all l _) as [os s'] eqn:Heq. simpl in *.
    split_and!; try done.
    + f_equal. exact Hl.
    + constructor; [|exact Hnd]. intros Hin. rewrite Forall_forall in Hall.
      apply Hall in Hin. lia.
    + constructor; [lia|]. eapply Forall_impl; [exact Hall|]. simpl. intros; lia.
    + lia.
Qed.

Lemma then_listPages_correlator pages s : same_correlator s (then_listPages pages s).
Proof.
  unfold then_listPages. destruct (iterate pages) as [l|]; [|done].
  destruct (alloc_all_spec l s) as (Hc & _). destruct (alloc_all l s) as [os s'].
  exact Hc.
Qed.

Lemma on_pageDeleted_correlator n s : same_correlator s (on_pageDeleted n s).
Proof.
  unfold on_pageDeleted. destruct (Set_forEach _ _) as [[e|] pages]; done.
Qed.

Lemma receive_pushed_correlator e s : same_correlator s (receive_pushed e s).
Proof.
  destruct e as [|args|meta|meta|n|ps]; try done.
  apply (on_pageDeleted_correlator n (emit (pageDeleted n) s)).
Qed.

Lemma exec_registry c : ∀ o s, same_registry s (exec o c s).
Proof.
  induction c as [a|e|k IH|ev args k _|yes IHy no IHn|ev args k IH|k IH];
    intros o s; simpl.
  - destruct (settle_frame o (Resolved a) s) as (_ & _ & ? & _ & ? & ?). done.
  - destruct (settle_frame o (Rejected e) s) as (_ & _ & ? & _ & ? & ?). done.
  - apply (IH o (set_reqId _ s)).
  - unfold wsCall, new_Promise. simpl. destruct (socket s) as [sock|]; simpl.
    + rewrite (list_lookup_middle _ [] Pending) by done. done.
    + set (s1 := settle _ _ _). 
      assert (same_registry s s1) as Hs1.
      { unfold s1. destruct (settle_frame (length (promises s)) (Rejected TypeError)
          (set_reqId (reqId s + 1) (set_promises (promises s ++ [Pending]) s)))
          as (_ & _ & ? & _ & ? & ?). done. }
      clearbody s1. destruct (promises s1 !! _) as [[]|]; try done.
      destruct (settle_frame o (Rejected e) s1) as (_ & _ & ? & _ & ? & ?).
      destruct Hs1 as (? & ? & ?). split_and!; congruence.
  - destruct (socket s); [apply IHy|apply IHn].
  - destruct (socket s) as [sock|].
    + apply (IH o (set_socket _ s)).
    + destruct (settle_frame o (Rejected TypeError) s) as (_ & _ & ? & _ & ? & ?). done.
  - apply IH.
Qed.

Lemma call_registry c s : same_registry s (call c s).2.
Proof. unfold call, new_Promise. simpl. apply (exec_registry c _ (set_promises _ s)). Qed.

(** *** The cases of a response *)

Lemma set_awaiting_id s : set_awaiting (awaiting s) s = s.
Proof. by destruct s. Qed.

Lemma run_reactions_settled p st s :
  promises s !! p = Some st → st ≠ Pending → NoDup (awaiting s).*1 →
  let s3 := set_awaiting (filter (λ x, x.1 ≠ p) (awaiting s)) s in
  ((p ∉ (awaiting s).*1) ∧ run_reactions p s = s3) ∨
  (∃ r, (p, r) ∈ awaiting s ∧ run_reactions p s = react r st s3).
Proof.
  intros Hp Hst Hnd s3. destruct (decide (p ∈ (awaiting s).*1)) as [Hin|Hnin].
  - right. apply list_elem_of_fmap in Hin as ([p' r] & -> & Hin). exists r.
    split; [done|]. by apply run_reactions_hit.
  - left. split; [done|]. rewrite (run_reactions_miss p st) by done.
    unfold s3. destruct (filter_key_none (awaiting s) p Hnin) as [_ ->].
    by rewrite set_awaiting_id.
Qed.

(** What a response does to the call it answers: the listener goes,
    the promise takes the outcome, and the reaction chained on it, if
    any, runs on that state. *)
Lemma receive_response_cases key p err result s :
  wf s → (key, p) ∈ listening s →
  let st := outcome err result in
  let s3 := set_awaiting (filter (λ x, x.1 ≠ p) (awaiting s))
              (settle p st (without_listeners key s)) in
  wf s3 ∧
  (((p ∉ (awaiting s).*1) ∧ receive_response key err result s = s3) ∨
   (∃ r, (p, r) ∈ awaiting s ∧ receive_response key err result s = react r st s3)).
Proof.
  intros Hwf Hin st s3.
  pose proof (outcome_not_pending err result) as Hst. fold st in Hst.
  split; [by apply wf_fired|].
  rewrite (receive_response_hit key p) by (done || apply Hwf). fold st.
  destruct (without_listeners_views key s (wf_socket _ Hwf))
    as (_ & _ & _ & _ & Hp1 & Ha1 & _).
  set (s1 := without_listeners key s) in *.
  destruct (settle_frame p st s1) as (_ & _ & _ & Ha2 & _).
  assert (promises (settle p st s1) !! p = Some st) as Hp2.
  { apply settle_lookup_pending. rewrite Hp1. exact (wf_targets_pending _ Hwf _ _ Hin). }
  unfold s3. fold s1. set (s2 := settle p st s1) in *.
  assert (awaiting s2 = awaiting s) as Ha by congruence. clearbody s2.
  rewrite <-Ha. apply run_reactions_settled; try done.
  rewrite Ha. apply Hwf.
Qed.

Lemma wf_react p r st s s3 key :
  wf s → (key, p) ∈ listening s → (p, r) ∈ awaiting s →
  s3 = set_awaiting (filter (λ x, x.1 ≠ p) (awaiting s))
         (settle p st (without_listeners key s)) →
  wf s3 → wf (react r st s3).
Proof.
  intros Hwf Hin Hr Hs3 Hwf3.
  destruct (fired_views key p st s Hwf Hin)
    as (Hso3 & HL3 & HS3 & Hr3 & Hp3 & Ha3 & _).
  rewrite <-Hs3 in *. clear Hs3.
  destruct r as [|k o]; simpl.
  - destruct st as [|[pages| | |]|]; try done.
    eapply wf_same_correlator; [apply then_listPages_correlator|done].
  - assert (o ∈ outers s) as Ho by (apply elem_of_outers; eauto).
    destruct (wf_outers_pending _ Hwf o Ho) as [Hpo Hnl].
    assert (o ≠ p) as Hne.
    { intros ->. apply Hnl. apply list_elem_of_fmap. by exists (key, p). }
    assert (promises s3 !! o = Some Pending) as Hpo3.
    { by rewrite Hp3, list_lookup_insert_ne. }
    assert (o ∉ (listening s3).*2) as Hnl3.
    { rewrite HL3. intros Hin'. apply Hnl. eapply elem_of_sublist; [exact Hin'|].
      apply fmap_filter_sublist. }
    assert (o ∉ outers s3) as Hno3.
    { unfold outers. rewrite Ha3.
      eapply (omap_without_key (λ x, outer_of x.2)); [apply (wf_outers_nodup _ Hwf)|exact Hr|done]. }
    destruct st as [|[v| | |]|e]; try done.
    + by apply wf_exec.
    + by apply wf_settle_fresh.
Qed.

Lemma wf_receive_response key err result s :
  wf s → wf (receive_response key err result s).
Proof.
  intros Hwf. destruct (decide (key ∈ (listening s).*1)) as [Hin|Hnin].
  - apply list_elem_of_fmap in Hin as ([key' p] & -> & Hin). simpl.
    destruct (receive_response_cases key' p err result s Hwf Hin)
      as [Hwf3 [[_ ->]|(r & Hr & ->)]]; [done|].
    eapply (wf_react p r _ s _ key'); eauto.
  - by rewrite receive_response_miss.
Qed.

Lemma wf_step s a : wf s → wf (step s a).
Proof.
  intros Hwf. destruct a as [c|[e|ev0 id0 err result]];
    [| |change (step s (Receive (Response ev0 id0 err result)))
          with (receive_response (respName ev0 id0) err result s);
        generalize (respName ev0 id0); intros key]; simpl.
  - by apply wf_call.
  - eapply wf_same_correlator; [apply receive_pushed_correlator|done].
  - by apply wf_receive_response.
Qed.

Lemma wf_run acts : ∀ s, wf s → wf (run acts s).
Proof.
  induction acts as [|a acts IH]; intros s Hwf; simpl; [done|].
  apply IH. by apply wf_step.
Qed.

Lemma constructor_views :
  socket (constructor freshSocket) =
    Some (mkSocket [("page.listPagesResp1", 0)]
                   [mkRequest "page.listPages" (Some 1%N) []]) ∧
  reqId (constructor freshSocket) = 1%N ∧
  allPages (constructor freshSocket) = [] ∧
  promises (constructor freshSocket) = [Pending] ∧
  awaiting (constructor freshSocket) = [(0, ListPagesThen)] ∧
  emitted (constructor freshSocket) = [] ∧
  nextRef (constructor freshSocket) = 1%positive.
Proof. by vm_compute. Qed.

Lemma wf_constructor : wf (constructor freshSocket).
Proof.
  destruct constructor_views as (Hso & Hr & _ & Hp & Ha & _).
  constructor; unfold listening, sent_ids, sent, outers; rewrite ?Hso, ?Hr, ?Hp, ?Ha; simpl.
  - by eexists.
  - intros key p Hin%list_elem_of_singleton. injection Hin as -> ->.
    exists "page.listPages", 1%N. split; [by vm_compute|lia].
  - intros ev1 ev2 id p1 p2 H1%list_elem_of_singleton H2%list_elem_of_singleton.
    injection H1 as H1 _. injection H2 as H2 _. rewrite <-H2 in H1.
    by apply respName_inj in H1 as [? _].
  - apply NoDup_singleton.
  - apply NoDup_singleton.
  - intros key p Hin%list_elem_of_singleton. by injection Hin as -> ->.
  - apply NoDup_singleton.
  - intros p r Hin%list_elem_of_singleton. injection Hin as -> ->.
    by apply list_elem_of_singleton.
  - constructor.
  - intros o Hin. by apply elem_of_nil in Hin.
  - intros p Hin%list_elem_of_singleton. injection Hin as ->.
    by apply list_elem_of_singleton.
  - repeat constructor.
  - repeat constructor; lia.
Qed.

Lemma wf_session acts : wf (run acts (constructor freshSocket)).
Proof. apply wf_run, wf_constructor. Qed.

End Sessions.

Section Stability.
Context `{ChangeSetLib}.

(** *** What never goes away *)

Lemma grows_refl s : grows s s.
Proof. by split_and!. Qed.

Lemma grows_trans s1 s2 s3 : grows s1 s2 → grows s2 s3 → grows s1 s3.
Proof.
  intros (Hp1 & Hs1 & Hr1) (Hp2 & Hs2 & Hr2). split_and!.
  - eauto.
  - by etrans.
  - lia.
Qed.

Lemma extends_refl s : extends s s.
Proof. by split. Qed.

Lemma extends_trans s1 s2 s3 : extends s1 s2 → extends s2 s3 → extends s1 s3.
Proof. intros [??] [??]. split; eauto. Qed.

Lemma same_correlator_grows s s' : same_correlator s s' → grows s s'.
Proof.
  intros (Hso & Hr & Hp & Ha). unfold grows, sent. rewrite Hso, Hr, Hp. by split_and!.
Qed.

Lemma same_correlator_extends s s' : same_correlator s s' → extends s s'.
Proof.
  intros (Hso & Hr & Hp & Ha). unfold extends, listening. rewrite Hso, Ha. by split.
Qed.

Lemma settle_grows p st s : grows s (settle p st s).
Proof.
  destruct (settle_views p st s) as (_ & HS & _).
  destruct (settle_frame p st s) as (_ & Hr & _).
  split_and!.
  - intros q st' Hq Hne. by eapply settle_lookup_settled.
  - by rewrite HS.
  - by rewrite Hr.
Qed.

Lemma settle_extends p st s : extends s (settle p st s).
Proof.
  destruct (settle_views p st s) as (HL & _ & _).
  destruct (settle_frame p st s) as (_ & _ & _ & Ha & _).
  unfold extends. by rewrite HL, Ha.
Qed.

Lemma append_promise_grows s : grows s (set_promises (promises s ++ [Pending]) s).
Proof.
  split_and!; [|done..]. intros q st Hq _. simpl.
  rewrite lookup_app_l; [done|]. by eapply lookup_lt_Some.
Qed.

Lemma wsCall_grows ev args s : grows s (wsCall ev args s).2.
Proof.
  unfold wsCall, new_Promise. simpl.
  destruct (socket s) as [[L O]|] eqn:Hso; simpl.
  - split_and!.
    + intros q st Hq _. simpl. rewrite lookup_app_l; [done|]. by eapply lookup_lt_Some.
    + unfold sent. rewrite Hso. simpl. by apply prefix_app_r.
    + simpl. lia.
  - eapply grows_trans; [|apply settle_grows]. split_and!.
    + intros q st Hq _. simpl. rewrite lookup_app_l; [done|]. by eapply lookup_lt_Some.
    + unfold sent. simpl. by rewrite Hso.
    + simpl. lia.
Qed.

Lemma wsCall_extends ev args s : extends s (wsCall ev args s).2.
Proof.
  unfold wsCall, new_Promise. simpl.
  destruct (socket s) as [[L O]|] eqn:Hso; simpl.
  - unfold extends, listening. rewrite Hso. simpl. split; [|done].
    intros x Hx. apply elem_of_app. by left.
  - eapply extends_trans; [|apply settle_extends].
    unfold extends, listening. simpl. by rewrite Hso.
Qed.

Lemma exec_grows c : ∀ o s, grows s (exec o c s).
Proof.
  induction c as [a|e|k IH|ev args k _|yes IHy no IHn|ev args k IH|k IH];
    intros o s; simpl.
  - apply settle_grows.
  - apply settle_grows.
  - eapply grows_trans; [|apply IH]. split_and!; [done|done|simpl; lia].
  - pose proof (wsCall_grows ev args s) as Hg.
    destruct (wsCall ev args s) as [p s1]. simpl in Hg.
    eapply grows_trans; [exact Hg|].
    destruct (promises s1 !! p) as [[| |e]|]; try (by split_and!).
    apply settle_grows.
  - destruct (socket s); [apply IHy|apply IHn].
  - destruct (socket s) as [[L O]|] eqn:Hso; [|apply settle_grows].
    eapply grows_trans; [|apply IH]. split_and!; [done| |done].
    unfold sent. rewrite Hso. simpl. by apply prefix_app_r.
  - apply IH.
Qed.

Lemma exec_extends c : ∀ o s, extends s (exec o c s).
Proof.
  induction c as [a|e|k IH|ev args k _|yes IHy no IHn|ev args k IH|k IH];
    intros o s; simpl.
  - apply settle_extends.
  - apply settle_extends.
  - eapply extends_trans; [|apply IH]. by split.
  - pose proof (wsCall_extends ev args s) as Hg.
    destruct (wsCall ev args s) as [p s1]. simpl in Hg.
    eapply extends_trans; [exact Hg|].
    destruct (promises s1 !! p) as [[| |e]|];
      try (split; [done|]; simpl; intros x Hx; apply elem_of_app; by left).
    apply settle_extends.
  - destruct (socket s); [apply IHy|apply IHn].
  - destruct (socket s) as [[L O]|] eqn:Hso; [|apply settle_extends].
    eapply extends_trans; [|apply IH].
    unfold extends, listening. simpl. by rewrite Hso.
  - apply IH.
Qed.

Lemma call_grows c s : grows s (call c s).2.
Proof.
  unfold call, new_Promise. simpl.
  eapply grows_trans; [apply append_promise_grows|apply exec_grows].
Qed.

Lemma call_extends c s : extends s (call c s).2.
Proof.
  unfold call, new_Promise. simpl.
  eapply extends_trans; [|apply exec_extends]. by split.
Qed.

Lemma react_grows r st s : grows s (react r st s).
Proof.
  destruct r as [|k o], st as [|[v| | |]|e]; simpl; try apply grows_refl.
  - apply same_correlator_grows, then_listPages_correlator.
  - apply exec_grows.
  - apply settle_grows.
Qed.

Lemma react_extends r st s : extends s (react r st s).
Proof.
  destruct r as [|k o], st as [|[v| | |]|e]; simpl; try apply extends_refl.
  - apply same_correlator_extends, then_listPages_correlator.
  - apply exec_extends.
  - apply settle_extends.
Qed.

Lemma fired_grows key p st s :
  wf s → (key, p) ∈ listening s →
  grows s (set_awaiting (filter (λ x, x.1 ≠ p) (awaiting s))
             (settle p st (without_listeners key s))).
Proof.
  intros Hwf Hin.
  destruct (fired_views key p st s Hwf Hin)
    as (Hso3 & HL3 & HS3 & Hr3 & Hp3 & Ha3 & _).
  split_and!.
  - intros q st' Hq Hne. rewrite Hp3.
    rewrite list_lookup_insert_ne; [done|]. intros ->.
    rewrite (wf_targets_pending _ Hwf _ _ Hin) in Hq. congruence.
  - by rewrite HS3.
  - by rewrite Hr3.
Qed.

Lemma step_grows s a : wf s → grows s (step s a).
Proof.
  intros Hwf. destruct a as [c|[e|ev0 id0 err result]];
    [| |change (step s (Receive (Response ev0 id0 err result)))
          with (receive_response (respName ev0 id0) err result s);
        generalize (respName ev0 id0); intros key]; simpl.
  - apply call_grows.
  - apply same_correlator_grows, receive_pushed_correlator.
  - destruct (decide (key ∈ (listening s).*1)) as [Hin|Hnin].
    + apply list_elem_of_fmap in Hin as ([key' p] & -> & Hin). simpl.
      destruct (receive_response_cases key' p err result s Hwf Hin)
        as [Hwf3 [[_ ->]|(r & Hr & ->)]].
      * by apply fired_grows.
      * eapply grows_trans; [by apply fired_grows|apply react_grows].
    + rewrite receive_response_miss by done. apply grows_refl.
Qed.

Lemma run_grows acts : ∀ s, wf s → grows s (run acts s).
Proof.
  induction acts as [|a acts IH]; intros s Hwf; simpl; [apply grows_refl|].
  eapply grows_trans; [by apply step_grows|]. apply IH. by apply wf_step.
Qed.

(** *** A call waits until its own response *)

Lemma step_keeps s a key p :
  wf s → (key, p) ∈ listening s →
  (∀ ev id err result, a = Receive (Response ev id err result) → respName ev id ≠ key) →
  (key, p) ∈ listening (step s a) ∧
  ∀ r, (p, r) ∈ awaiting s → (p, r) ∈ awaiting (step s a).
Proof.
  intros Hwf Hin Ha. destruct a as [c|[e|ev0 id0 err result]].
  - change (step s (Invoke c)) with (call c s).2.
    destruct (call_extends c s) as [HL HA]. split; [by apply HL|]. intros r. apply HA.
  - change (step s (Receive (Pushed e))) with (receive_pushed e s).
    destruct (same_correlator_extends _ _ (receive_pushed_correlator e s)) as [HL HA].
    split; [by apply HL|]. intros r. apply HA.
  - change (step s (Receive (Response ev0 id0 err result)))
      with (receive_response (respName ev0 id0) err result s).
    assert (respName ev0 id0 ≠ key) as Hne by by eapply Ha.
    revert Hne. generalize (respName ev0 id0). intros key' Hne.
    destruct (decide (key' ∈ (listening s).*1)) as [Hin'|Hnin];
      [|by rewrite receive_response_miss].
    apply list_elem_of_fmap in Hin' as ([key2 p'] & -> & Hin'). simpl in *.
    destruct (fired_views key2 p' (outcome err result) s Hwf Hin')
      as (Hso3 & HL3 & HS3 & Hr3 & Hp3 & Ha3 & _).
    assert (p ≠ p') as Hpp.
    { intros ->. apply Hne.
      eapply NoDup_snd_functional; [apply (wf_targets_nodup _ Hwf)| |]; eauto. }
    set (s3 := set_awaiting _ _) in *.
    assert ((key, p) ∈ listening s3 ∧ ∀ r, (p, r) ∈ awaiting s → (p, r) ∈ awaiting s3)
      as [HinL HinA].
    { rewrite HL3, Ha3. split.
      - apply list_elem_of_filter. split; [simpl; congruence|done].
      - intros r Hr. apply list_elem_of_filter. split; [simpl; congruence|done]. }
    destruct (receive_response_cases key2 p' err result s Hwf Hin')
      as [Hwf3 [[_ ->]|(r & Hr & ->)]]; fold s3; [done|].
    destruct (react_extends r (outcome err result) s3) as [HL HA].
    split; [by apply HL|]. intros r' Hr'. by apply HA, HinA.
Qed.

Lemma run_keeps acts : ∀ s ev id p,
  wf s → (respName ev id, p) ∈ listening s →
  (∀ err result, Receive (Response ev id err result) ∉ acts) →
  (respName ev id, p) ∈ listening (run acts s) ∧
  ∀ r, (p, r) ∈ awaiting s → (p, r) ∈ awaiting (run acts s).
Proof.
  induction acts as [|a acts IH]; intros s ev id p Hwf Hin Hno; simpl; [done|].
  assert (∀ ev' id' err result,
            a = Receive (Response ev' id' err result) → respName ev' id' ≠ respName ev id)
    as Ha.
  { intros ev' id' err result -> [-> ->]%respName_inj. eapply Hno. by left. }
  destruct (step_keeps s a _ p Hwf Hin Ha) as [HinL HinA].
  destruct (IH (step s a) ev id p) as [HL HA].
  - by apply wf_step.
  - done.
  - intros err result Hin'. eapply Hno. by right.
  - split; [done|]. intros r Hr. by apply HA, HinA.
Qed.

End Stability.

(** ** The correlator *)

Section Correlator.
Context `{ChangeSetLib}.

(** What a response does to the promise of the call it answers. *)
Lemma response_settles key p err result s :
  wf s → (key, p) ∈ listening s →
  promises (receive_response key err result s) !! p = Some (outcome err result).
Proof.
  intros Hwf Hin.
  destruct (fired_views key p (outcome err result) s Hwf Hin)
    as (_ & _ & _ & _ & Hp3 & _).
  assert (promises (set_awaiting (filter (λ x, x.1 ≠ p) (awaiting s))
            (settle p (outcome err result) (without_listeners key s))) !! p
          = Some (outcome err result)) as Hp.
  { rewrite Hp3. apply list_lookup_insert_eq. by eapply wf_target_lt. }
  destruct (receive_response_cases key p err result s Hwf Hin)
    as [Hwf3 [[_ ->]|(r & Hr & ->)]]; [done|].
  eapply react_grows; [exact Hp|apply outcome_not_pending].
Qed.

(** A settled promise has no listener left. *)
Lemma settled_not_listening s p st :
  wf s → promises s !! p = Some st → st ≠ Pending → p ∉ (listening s).*2.
Proof.
  intros Hwf Hp Hst ([key p'] & -> & Hin)%list_elem_of_fmap. simpl in *.
  rewrite (wf_targets_pending _ Hwf _ _ Hin) in Hp. congruence.
Qed.

(** A call of [wsCall] in a session, and the session until the
    response to it arrives. *)
Lemma wsCall_waits (pre mid : list action) (ev : string) (args : list any) :
  let s0 := run pre (constructor freshSocket) in
  let p := (wsCall ev args s0).1 in
  let s1 := (wsCall ev args s0).2 in
  let id := reqId s1 in
  let s2 := run mid s1 in
  (∀ e r, Receive (Response ev id e r) ∉ mid) →
  wf s0 ∧ wf s2 ∧ id = (reqId s0 + 1)%N ∧
  listening s1 = listening s0 ++ [(respName ev id, p)] ∧
  sent s1 = sent s0 ++ [mkRequest ev (Some id) args] ∧
  (respName ev id, p) ∈ listening s2.
Proof.
  intros s0 p s1 id s2 Hmid.
  pose proof (wf_session pre) as Hwf0. fold s0 in Hwf0.
  pose proof (wf_wsCall ev args s0 Hwf0) as Hwf1. fold s1 in Hwf1.
  destruct (wf_socket _ Hwf0) as [[L O] Hso].
  pose proof (wsCall_attached ev args s0 _ Hso) as Hcall.
  assert (id = (reqId s0 + 1)%N) as Hid by (unfold id, s1; by rewrite Hcall).
  assert (p = length (promises s0)) as Hp by (unfold p; by rewrite Hcall).
  assert (listening s1 = listening s0 ++ [(respName ev id, p)]) as HL1.
  { rewrite Hid, Hp. unfold s1, listening. by rewrite Hcall, Hso. }
  assert (sent s1 = sent s0 ++ [mkRequest ev (Some id) args]) as HS1.
  { rewrite Hid. unfold s1, sent. by rewrite Hcall, Hso. }
  assert ((respName ev id, p) ∈ listening s1) as Hin1.
  { rewrite HL1. apply elem_of_app. right. by apply list_elem_of_singleton. }
  destruct (run_keeps mid s1 _ _ _ Hwf1 Hin1 Hmid) as [Hin2 _].
  split_and!; try done. by apply wf_run.
Qed.

(** C1. Whatever calls and messages came before ([pre]), a call of
    [wsCall] takes an identifier no request carried yet and registers
    its listener under the response name of that identifier.  Whatever
    happens until the response arrives ([mid]: other calls, other
    responses in any order), the promise stays pending and its listener
    is the only one for that identifier.  The response then settles
    this promise with its outcome and leaves every other waiting call
    waiting; and whatever follows ([post]), the promise keeps that
    outcome and no listener can settle it again. *)
Theorem wsCall_routes_by_identifier (pre mid post : list action)
    (ev : string) (args : list any) (err result : any) :
  let s0 := run pre (constructor freshSocket) in
  let p := (wsCall ev args s0).1 in
  let s1 := (wsCall ev args s0).2 in
  let id := reqId s1 in
  let s2 := run mid s1 in
  let s3 := receive (Response ev id err result) s2 in
  let s4 := run post s3 in
  (∀ e r, Receive (Response ev id e r) ∉ mid) →
  (id ∉ sent_ids s0) ∧
  listening s1 = listening s0 ++ [(respName ev id, p)] ∧
  sent s1 = sent s0 ++ [mkRequest ev (Some id) args] ∧
  promises s2 !! p = Some Pending ∧
  (∀ ev' q, (respName ev' id, q) ∈ listening s2 → ev' = ev ∧ q = p) ∧
  filter (λ x, x.1 = respName ev id) (listening s2) = [(respName ev id, p)] ∧
  promises s3 !! p = Some (outcome err result) ∧
  (∀ key' p', (key', p') ∈ listening s2 → key' ≠ respName ev id →
     (key', p') ∈ listening s3 ∧ promises s3 !! p' = Some Pending) ∧
  promises s4 !! p = Some (outcome err result) ∧
  p ∉ (listening s4).*2.
Proof.
  intros s0 p s1 id s2 s3 s4 Hmid.
  destruct (wsCall_waits pre mid ev args Hmid) as (Hwf0 & Hwf2 & Hid & HL1 & HS1 & Hin2).
  fold s0 p s1 id s2 in Hwf0, Hwf2, Hid, HL1, HS1, Hin2.
  pose proof (wf_step s2 (Receive (Response ev id err result)) Hwf2) as Hwf3.
  change (wf s3) in Hwf3.
  assert (promises s3 !! p = Some (outcome err result)) as Hp3.
  { by apply response_settles. }
  pose proof (run_grows post s3 Hwf3) as (Hg & _). fold s4 in Hg.
  pose proof (wf_run post s3 Hwf3) as Hwf4. fold s4 in Hwf4.
  pose proof (outcome_not_pending err result) as Hst.
  split_and!; try done.
  - intros Hin. pose proof (wf_sent_bound _ Hwf0) as Hb.
    rewrite Forall_forall in Hb. apply Hb in Hin. lia.
  - exact (wf_targets_pending _ Hwf2 _ _ Hin2).
  - intros ev' q Hq. pose proof (wf_ids _ Hwf2 _ _ _ _ _ Hq Hin2) as ->.
    split; [done|].
    eapply NoDup_fst_functional; [apply (wf_keys_nodup _ Hwf2)| |]; eauto.
  - by apply filter_key_hit; [apply Hwf2|].
  - intros key' p' Hin' Hne.
    destruct (step_keeps s2 (Receive (Response ev id err result)) key' p'
      Hwf2 Hin') as [HinL _]; [by intros ???? [= <- <- _ _]|].
    split; [done|]. exact (wf_targets_pending _ Hwf3 _ _ HinL).
  - by apply Hg.
  - eapply settled_not_listening; eauto.
Qed.

(** C2, as the code has it. Whenever the response to a call arrives,
    the promise of the call is rejected with the first field when that
    field is truthy, and otherwise fulfilled with the second field;
    [null] and [undefined] are two of the values that are not truthy. *)
Theorem wsCall_response_by_truthiness (pre mid : list action)
    (ev : string) (args : list any) (err result : any) :
  let s0 := run pre (constructor freshSocket) in
  let p := (wsCall ev args s0).1 in
  let s1 := (wsCall ev args s0).2 in
  let s2 := run mid s1 in
  let s3 := receive (Response ev (reqId s1) err result) s2 in
  (∀ e r, Receive (Response ev (reqId s1) e r) ∉ mid) →
  promises s2 !! p = Some Pending ∧
  (truthy err = true → promises s3 !! p = Some (Rejected err)) ∧
  (truthy err = false → promises s3 !! p = Some (Resolved (AValue result))) ∧
  truthy VNull = false ∧ truthy VUndefined = false.
Proof.
  intros s0 p s1 s2 s3 Hmid.
  destruct (wsCall_waits pre mid ev args Hmid) as (_ & Hwf2 & _ & _ & _ & Hin2).
  fold s0 p s1 s2 in Hwf2, Hin2.
  assert (promises s3 !! p = Some (outcome err result)) as Hp3.
  { by apply response_settles. }
  unfold outcome in Hp3.
  split_and!; try done.
  - exact (wf_targets_pending _ Hwf2 _ _ Hin2).
  - intros Ht. by rewrite Ht in Hp3.
  - intros Ht. by rewrite Ht in Hp3.
Qed.

(** C3. In any session, whatever methods are called ([openPage]
    among them) and whatever arrives, the identifiers of the requests
    sent are strictly increasing, so none is used twice; the first is
    [1], that of the [listPages] request of the constructor, so all are
    above zero. *)
Theorem request_identifiers_increase (acts : list action) :
  let s := run acts (constructor freshSocket) in
  StronglySorted N.lt (sent_ids s) ∧
  NoDup (sent_ids s) ∧
  Forall (λ id, 0 < id)%N (sent_ids s) ∧
  sent_ids s !! 0 = Some 1%N.
Proof.
  intros s. pose proof (wf_session acts) as Hwf. fold s in Hwf.
  pose proof (wf_sent_sorted _ Hwf) as Hsorted.
  split_and!.
  - done.
  - clear -Hsorted. induction Hsorted as [|x l _ IH Hx]; constructor; [|done].
    intros Hin. rewrite Forall_forall in Hx. apply Hx in Hin. lia.
  - eapply Forall_impl; [apply (wf_sent_bound _ Hwf)|]. simpl. intros; lia.
  - destruct (run_grows acts _ wf_constructor) as (_ & [rest Hrest] & _).
    fold s in Hrest. unfold sent_ids. rewrite Hrest.
    destruct constructor_views as (Hso & _). unfold sent. by rewrite Hso.
Qed.

End Correlator.

(** ** The page registry *)

(** *** Sets *)

Lemma Set_has_spec {A} (o : positive * A) (s : JSSet A) :
  Set_has o s = true ↔ o.1 ∈ s.*1.
Proof. unfold Set_has. apply bool_decide_eq_true. Qed.

Lemma Set_add_fresh {A} (o : positive * A) (s : JSSet A) :
  o.1 ∉ s.*1 → Set_add o s = s ++ [o].
Proof.
  intros Hn. unfold Set_add. destruct (Set_has o s) eqn:Hh; [|done].
  by apply Set_has_spec in Hh.
Qed.

Lemma Set_delete_sublist {A} (o : positive * A) (s : JSSet A) :
  Set_delete o s `sublist_of` s.
Proof. apply sublist_filter. Qed.

Lemma filter_all {A} (P : A → Prop) `{∀ x, Decision (P x)} (l : list A) :
  Forall P l → filter P l = l.
Proof.
  induction 1 as [|x l Hx _ IH]; [done|]. by rewrite filter_cons_True, IH.
Qed.

Lemma Set_delete_unique {A} (pre todo : JSSet A) (x : positive * A) :
  NoDup (pre ++ x :: todo).*1 → Set_delete x (pre ++ x :: todo) = pre ++ todo.
Proof.
  intros Hnd. unfold Set_delete, JSSet in *.
  rewrite fmap_app, fmap_cons in Hnd. apply NoDup_app in Hnd as (_ & Hdis & Hnd).
  apply NoDup_cons in Hnd as [Hx _].
  rewrite filter_app, filter_cons_False by (simpl; tauto).
  rewrite !filter_all; [done|..]; apply Forall_forall; intros y Hy; simpl.
  - intros Heq. apply Hx. rewrite <-Heq. apply list_elem_of_fmap. by exists y.
  - intros Heq. apply (Hdis y.1); [apply list_elem_of_fmap; by exists y|].
    rewrite Heq. by left.
Qed.

Lemma NoDup_fst_drop {A} (pre todo : list (positive * A)) (x : positive * A) :
  NoDup (pre ++ x :: todo).*1 → NoDup (pre ++ todo).*1 ∧ x.1 ∉ pre.*1.
Proof.
  rewrite !fmap_app, fmap_cons. intros (? & Hdis & [_ ?]%NoDup_cons)%NoDup_app.
  split.
  - apply NoDup_app. split_and!; try done. intros y Hy Hy'. apply (Hdis y Hy). by right.
  - intros Hin. apply (Hdis _ Hin). by left.
Qed.

(** *** What [new Set] keeps *)

Lemma distinct_from_sublist (l seen : list any) : distinct_from seen l `sublist_of` l.
Proof.
  revert seen. induction l as [|v l IH]; intros seen; simpl; [done|].
  destruct (negb (is_object v) && existsb (same_value v) seen).
  - by apply sublist_cons.
  - by apply sublist_skip.
Qed.


Lemma new_Set_go (l acc : list (positive * any)) :
  NoDup (acc ++ l).*1 →
  ∃ l', fold_left (λ s o, Set_add_value o s) l acc = acc ++ l' ∧
        l'.*2 = distinct_from acc.*2 l.*2 ∧ l' `sublist_of` l.
Proof.
  revert acc. induction l as [|o l IH]; intros acc Hnd.
  - exists []. by rewrite app_nil_r.
  - destruct (NoDup_fst_drop acc l o Hnd) as [Hnd2 Hfresh].
    assert (NoDup ((acc ++ [o]) ++ l).*1) as Hnd1 by by rewrite <-app_assoc.
    assert (∃ l', fold_left (λ s o, Set_add_value o s) l (acc ++ [o])
                  = acc ++ o :: l' ∧
                  l'.*2 = distinct_from (acc.*2 ++ [o.2]) l.*2 ∧ l' `sublist_of` l) as Hkeep.
    { destruct (IH _ Hnd1) as (l' & Hf & Hd & Hs). exists l'.
      rewrite <-app_assoc in Hf. rewrite fmap_app in Hd. done. }
    cbn [fold_left fmap list_fmap distinct_from].
    change (list_fmap _ _ snd l) with (l.*2).
    unfold Set_add_value at 2. destruct (is_object o.2) eqn:Hobj; cbn [negb andb].
    + rewrite Set_add_fresh by done.
      destruct Hkeep as (l' & Hf & Hd & Hs). exists (o :: l').
      split_and!; [done|by rewrite fmap_cons, Hd|by apply sublist_skip].
    + unfold Array_from.
      destruct (existsb (same_value o.2) acc.*2) eqn:Hex.
      * destruct (IH _ Hnd2) as (l' & Hf & Hd & Hs). exists l'.
        split_and!; [done|done|by apply sublist_cons].
      * destruct Hkeep as (l' & Hf & Hd & Hs). exists (o :: l').
        split_and!; [done|by rewrite fmap_cons, Hd|by apply sublist_skip].
Qed.

Lemma new_Set_spec (l : list (positive * any)) :
  NoDup l.*1 →
  Array_from (new_Set l) = distinct l.*2 ∧ new_Set l `sublist_of` l.
Proof.
  intros Hnd. destruct (new_Set_go l [] Hnd) as (l' & Hf & Hd & Hs).
  unfold new_Set, Array_from, distinct. rewrite Hf. done.
Qed.

(** *** The loop of [pageDeleted] *)

Lemma first_nullish (l : JSSet any) :
  Forall (λ o, nullish o.2 = false) l ∨
  ∃ t1 x t2, l = t1 ++ x :: t2 ∧
    Forall (λ o, nullish o.2 = false) t1 ∧ nullish x.2 = true.
Proof.
  induction l as [|o l IH]; [by left|].
  destruct (nullish o.2) eqn:Ho.
  - right. by exists [], o, l.
  - destruct IH as [Hall|(t1 & x & t2 & -> & Hall & Hx)].
    + left. by constructor.
    + right. exists (o :: t1), x, t2. split_and!; [done|by constructor|done].
Qed.

(** The loop goes through the entries that are neither [null] nor
    [undefined] and deletes those of the name. *)
Lemma forEach_delete_go (n : any) (t1 rest pre : JSSet any) :
  NoDup (pre ++ t1 ++ rest).*1 → Forall (λ o, nullish o.2 = false) t1 →
  forEach_from (delete_if_named n) (t1 ++ rest) (pre ++ t1 ++ rest) =
  forEach_from (delete_if_named n) rest
    ((pre ++ filter (λ o, not_named n o = true) t1) ++ rest).
Proof.
  intros Hnd Hall. revert pre Hnd. unfold JSSet in *.
  induction Hall as [|x t1 Hx _ IH]; intros pre Hnd.
  - by rewrite filter_nil, app_nil_r.
  - cbn [app forEach_from].
    assert (Set_has x (pre ++ x :: t1 ++ rest) = true) as ->.
    { apply Set_has_spec. rewrite fmap_app, fmap_cons. apply elem_of_app. right. by left. }
    unfold delete_if_named at 1. rewrite Hx.
    destruct (strict_eq n (prop "name" x.2)) eqn:Hn.
    + rewrite Set_delete_unique by done.
      rewrite filter_cons_False by (unfold not_named; rewrite Hn; done).
      apply IH. by apply NoDup_fst_drop in Hnd as [? _].
    + rewrite filter_cons_True by (unfold not_named; by rewrite Hn).
      rewrite (cons_middle x pre (t1 ++ rest)), app_assoc.
      rewrite IH by by rewrite <-app_assoc.
      by rewrite <-!app_assoc.
Qed.

Lemma forEach_delete_all (n : any) (s : JSSet any) :
  NoDup s.*1 → Forall (λ o, nullish o.2 = false) s →
  Set_forEach (delete_if_named n) s = (None, filter (λ o, not_named n o = true) s).
Proof.
  intros Hnd Hall. unfold Set_forEach.
  pose proof (forEach_delete_go n s [] [] ) as Hgo.
  rewrite !app_nil_r in Hgo. cbn [app forEach_from] in Hgo. by apply Hgo.
Qed.

Lemma forEach_delete_throws (n : any) (t1 t2 : JSSet any) (x : positive * any) :
  NoDup (t1 ++ x :: t2).*1 → Forall (λ o, nullish o.2 = false) t1 →
  nullish x.2 = true →
  Set_forEach (delete_if_named n) (t1 ++ x :: t2) =
    (Some TypeError, filter (λ o, not_named n o = true) t1 ++ x :: t2).
Proof.
  intros Hnd Hall Hx. unfold Set_forEach.
  pose proof (forEach_delete_go n t1 (x :: t2) [] Hnd Hall) as Hgo.
  cbn [app] in Hgo. rewrite Hgo. cbn [forEach_from].
  assert (Set_has x (filter (λ o, not_named n o = true) t1 ++ x :: t2) = true) as ->.
  { apply Set_has_spec. unfold JSSet in *. rewrite fmap_app, fmap_cons.
    apply elem_of_app. right. by left. }
  unfold delete_if_named. by rewrite Hx.
Qed.

Lemma forEach_delete_sublist (n : any) (s : JSSet any) :
  NoDup s.*1 → (Set_forEach (delete_if_named n) s).2 `sublist_of` s.
Proof.
  intros Hnd. destruct (first_nullish s) as [Hall|(t1 & x & t2 & -> & Hall & Hx)].
  - rewrite forEach_delete_all by done. apply sublist_filter.
  - rewrite forEach_delete_throws by done. simpl.
    apply sublist_app; [apply sublist_filter|done].
Qed.

Section Registry.
Context `{ChangeSetLib}.

Lemma registry_ok_same s s' : same_registry s s' → registry_ok s → registry_ok s'.
Proof. intros (Ha & _ & Hn). unfold registry_ok. by rewrite Ha, Hn. Qed.

Lemma page_names_same s s' : same_registry s s' → page_names s' = page_names s.
Proof. intros (Ha & _). unfold page_names. by rewrite Ha. Qed.

(** The registry after [pageCreated]: one more entry, last, unless
    the value is a primitive the set holds already. *)
Lemma pageCreated_spec meta s :
  registry_ok s →
  let s' := receive_pushed (pageCreated meta) s in
  allPages s' =
    (if negb (is_object meta) && existsb (same_value meta) (Array_from (allPages s))
     then allPages s else allPages s ++ [(nextRef s, meta)]) ∧
  nextRef s' = (nextRef s + 1)%positive ∧
  emitted s' = emitted s ++
    [pageCreated meta; pageListUpdated (Array_from (allPages s'))].
Proof.
  intros [Hnd Hb]. cbn [receive_pushed alloc]. unfold on_pageCreated, emit.
  cbn [allPages set_allPages set_emitted set_nextRef emitted nextRef].
  split_and!; [|done|by rewrite <-app_assoc].
  unfold Set_add_value. cbn [snd]. destruct (is_object meta); cbn [negb andb].
  - apply Set_add_fresh. simpl. intros Hin.
    rewrite Forall_forall in Hb. apply Hb in Hin. lia.
  - by destruct (existsb _ _).
Qed.

(** The registry after [pageDeleted]: the loop went through the whole
    set, or it stopped at the first entry that is [null] or
    [undefined]. *)
Lemma pageDeleted_spec n s :
  registry_ok s →
  let s' := receive_pushed (pageDeleted n) s in
  allPages s' `sublist_of` allPages s ∧
  nextRef s' = nextRef s ∧
  ((Forall (λ o, nullish o.2 = false) (allPages s) ∧
    allPages s' = filter (λ o, not_named n o = true) (allPages s) ∧
    emitted s' = emitted s ++
      [pageDeleted n; pageListUpdated (Array_from (allPages s'))]) ∨
   (∃ t1 x t2, allPages s = t1 ++ x :: t2 ∧
      Forall (λ o, nullish o.2 = false) t1 ∧ nullish x.2 = true ∧
      allPages s' = filter (λ o, not_named n o = true) t1 ++ x :: t2 ∧
      emitted s' = emitted s ++ [pageDeleted n])).
Proof.
  intros [Hnd _]. cbn [receive_pushed]. unfold on_pageDeleted.
  change (allPages (emit (pageDeleted n) s)) with (allPages s).
  pose proof (forEach_delete_sublist n (allPages s) Hnd) as Hsub.
  destruct (first_nullish (allPages s)) as [Hall|(t1 & x & t2 & Heq & Hall & Hx)].
  - rewrite forEach_delete_all in * by done. simpl in Hsub.
    split_and!; [done|done|]. left. split_and!; [done|done|].
    unfold emit. simpl. by rewrite <-app_assoc.
  - rewrite Heq in Hnd, Hsub |- *.
    rewrite forEach_delete_throws in * by done. simpl in Hsub.
    split_and!; [done|done|]. right. exists t1, x, t2. done.
Qed.

(** The registry after the callback of the constructor. *)
Lemma then_listPages_spec pages l s :
  iterate pages = Some l →
  let s' := then_listPages pages s in
  Array_from (allPages s') = distinct l ∧
  NoDup (allPages s').*1 ∧
  Forall (λ r, nextRef s ≤ r < nextRef s')%positive (allPages s').*1 ∧
  emitted s' = emitted s ++ [pageListUpdated (distinct l)].
Proof.
  intros Hl. unfold then_listPages. rewrite Hl.
  destruct (alloc_all_spec l s) as (_ & _ & He & Hsnd & Hnd & Hb & _).
  destruct (alloc_all l s) as [objs s1]. simpl in *.
  destruct (new_Set_spec objs Hnd) as [Hd Hs]. rewrite Hsnd in Hd.
  assert ((new_Set objs).*1 `sublist_of` objs.*1) as Hs1 by by apply fmap_sublist.
  unfold emit. simpl. rewrite Hd, He. split_and!; try done.
  - by eapply sublist_NoDup.
  - rewrite Forall_forall in *. intros r Hr. apply Hb. by eapply elem_of_sublist.
Qed.

Lemma then_listPages_throws pages s :
  iterate pages = None → then_listPages pages s = s.
Proof. intros Hl. unfold then_listPages. by rewrite Hl. Qed.

Lemma registry_ok_sublist s s' :
  allPages s' `sublist_of` allPages s → nextRef s' = nextRef s →
  registry_ok s → registry_ok s'.
Proof.
  intros Hs Hn [Hnd Hb]. unfold registry_ok. rewrite Hn.
  assert ((allPages s').*1 `sublist_of` (allPages s).*1) as Hs1 by by apply fmap_sublist.
  split; [by eapply sublist_NoDup|].
  rewrite Forall_forall in *. intros r Hr. apply Hb. by eapply elem_of_sublist.
Qed.

Lemma react_registry key p r err result s :
  wf s → (key, p) ∈ listening s → (p, r) ∈ awaiting s →
  let s3 := set_awaiting (filter (λ x, x.1 ≠ p) (awaiting s))
              (settle p (outcome err result) (without_listeners key s)) in
  let s' := react r (outcome err result) s3 in
  same_registry s s' ∨
  (key = "page.listPagesResp1" ∧ r = ListPagesThen ∧ truthy err = false ∧
   s' = then_listPages result s3 ∧ same_registry s s3).
Proof.
  intros Hwf Hin Hr s3 s'.
  destruct (fired_views key p (outcome err result) s Hwf Hin)
    as (_ & _ & _ & _ & _ & _ & Hg & He & Hn).
  fold s3 in Hg, He, Hn.
  assert (same_registry s s3) as Hsame by done.
  assert (∀ s'', same_registry s3 s'' → same_registry s s'') as Htrans.
  { intros s'' (? & ? & ?). destruct Hsame as (? & ? & ?). split_and!; congruence. }
  unfold s', outcome. destruct r as [|k o]; destruct (truthy err) eqn:Ht; simpl.
  - by left.
  - right. split_and!; try done.
    apply (wf_listPages _ Hwf) in Hr.
    eapply NoDup_snd_functional; [apply (wf_targets_nodup _ Hwf)| |]; eauto.
  - left. apply Htrans. destruct (settle_frame o (Rejected err) s3) as (_&_&?&_&?&?). done.
  - left. apply Htrans, exec_registry.
Qed.

(** What a response does to the registry: nothing, unless it is the
    answer to the request of the constructor, without an error and
    with something [new Set] can iterate. *)
Lemma response_registry key err result s :
  wf s →
  let s' := receive_response key err result s in
  same_registry s s' ∨
  (key = "page.listPagesResp1" ∧ truthy err = false ∧
   ∃ l s3, iterate result = Some l ∧ same_registry s s3 ∧
           s' = then_listPages result s3).
Proof.
  intros Hwf s'. unfold s'.
  destruct (decide (key ∈ (listening s).*1)) as [Hin|Hnin];
    [|left; by rewrite receive_response_miss].
  apply list_elem_of_fmap in Hin as ([key' p] & -> & Hin). simpl.
  destruct (fired_views key' p (outcome err result) s Hwf Hin)
    as (_ & _ & _ & _ & _ & _ & Hg & He & Hn).
  destruct (receive_response_cases key' p err result s Hwf Hin)
    as [Hwf3 [[_ ->]|(r & Hr & ->)]]; [by left|].
  destruct (react_registry key' p r err result s Hwf Hin Hr)
    as [Hsame|(-> & _ & Herr & -> & Hsame)]; [by left|].
  destruct (iterate result) as [l|] eqn:Hl.
  - right. split_and!; try done. by eexists l, _.
  - left. by rewrite then_listPages_throws.
Qed.

Lemma registry_ok_step s a : wf s → registry_ok s → registry_ok (step s a).
Proof.
  intros Hwf Hok. destruct a as [c|[e|ev id err result]].
  - eapply registry_ok_same; [apply call_registry|done].
  - change (step s (Receive (Pushed e))) with (receive_pushed e s).
    destruct e as [|args|meta|meta|n|ps]; try done.
    + destruct (pageCreated_spec meta s Hok) as (Ha & Hn & _).
      destruct Hok as [Hnd Hb]. unfold registry_ok. rewrite Ha, Hn.
      destruct (negb (is_object meta) && existsb _ _).
      { split; [done|]. eapply Forall_impl; [exact Hb|]. simpl. intros; lia. }
      rewrite fmap_app. simpl. split.
      * apply NoDup_app. split_and!; [done| |apply NoDup_singleton].
        intros r Hr. rewrite list_elem_of_singleton. intros ->.
        rewrite Forall_forall in Hb. apply Hb in Hr. lia.
      * apply Forall_app. split.
        -- eapply Forall_impl; [exact Hb|]. simpl. intros; lia.
        -- repeat constructor. lia.
    + destruct (pageDeleted_spec n s Hok) as (Hs & Hn & _).
      by eapply registry_ok_sublist.
  - change (step s (Receive (Response ev id err result)))
      with (receive_response (respName ev id) err result s).
    destruct (response_registry (respName ev id) err result s Hwf)
      as [Hsame|(_ & _ & l & s3 & Hl & Hsame & ->)].
    + by eapply registry_ok_same.
    + destruct (then_listPages_spec result l s3 Hl) as (_ & Hnd & Hb & _).
      split; [done|]. eapply Forall_impl; [exact Hb|]. simpl. intros; lia.
Qed.

Lemma registry_ok_constructor : registry_ok (constructor freshSocket).
Proof.
  destruct constructor_views as (_ & _ & Ha & _). unfold registry_ok.
  rewrite Ha. split; constructor.
Qed.

Lemma registry_ok_run acts : ∀ s, wf s → registry_ok s → registry_ok (run acts s).
Proof.
  induction acts as [|a acts IH]; intros s Hwf Hok; simpl; [done|].
  apply IH; [by apply wf_step|by apply registry_ok_step].
Qed.

Lemma session_registry_ok (acts : list action) :
  registry_ok (run acts (constructor freshSocket)).
Proof. apply registry_ok_run; [apply wf_constructor|apply registry_ok_constructor]. Qed.

End Registry.

Section RegistryEvents.
Context `{ChangeSetLib}.

Lemma call_listPages s :
  promises (call listPages s).2 !! (call listPages s).1 =
    Some (Resolved (APages (Array_from (allPages s)))).
Proof.
  unfold call, new_Promise, listPages. simpl.
  apply settle_lookup_pending. simpl. by apply list_lookup_middle.
Qed.

Lemma strict_eq_eq v w : strict_eq v w = true → v = w.
Proof.
  destruct v, w; simpl; try done.
  - by intros ->%Bool.eqb_prop.
  - by intros ->%Z.eqb_eq.
  - by intros ->%String.eqb_eq.
Qed.

Lemma not_named_spec n o :
  not_named (VStr n) o = true ↔ prop "name" o.2 ≠ VStr n.
Proof.
  unfold not_named. destruct (prop "name" o.2) as [| | | | |m| |]; simpl;
    try (split; [congruence|done]).
  rewrite negb_true_iff, String.eqb_neq. split; [congruence|].
  intros Hne ->. by apply Hne.
Qed.


Lemma names_once_step s a :
  wf s → registry_ok s → NoDup (page_names s) → names_once s a →
  NoDup (page_names (step s a)).
Proof.
  intros Hwf Hok Hnd Hnames. destruct a as [c|[e|ev id err result]].
  - change (step s (Invoke c)) with (call c s).2.
    by rewrite (page_names_same _ _ (call_registry c s)).
  - change (step s (Receive (Pushed e))) with (receive_pushed e s).
    destruct e as [|args|meta|meta|n|ps]; try done.
    + destruct (pageCreated_spec meta s Hok) as (Ha & _).
      unfold page_names, Array_from in *. rewrite Ha.
      destruct (negb (is_object meta) && existsb _ _); [done|].
      rewrite !fmap_app.
      apply NoDup_app. split_and!; [done| |apply NoDup_singleton].
      intros x Hx. simpl. rewrite list_elem_of_singleton. intros ->. by apply Hnames.
    + destruct (pageDeleted_spec n s Hok) as (Hs & _).
      eapply sublist_NoDup; [exact Hnd|].
      unfold page_names, Array_from. by do 2 apply fmap_sublist.
  - change (step s (Receive (Response ev id err result)))
      with (receive_response (respName ev id) err result s).
    simpl in Hnames.
    destruct (response_registry (respName ev id) err result s Hwf)
      as [Hsame|(Hkey & _ & l & s3 & Hl & Hsame & ->)].
    + by rewrite (page_names_same _ _ Hsame).
    + destruct (then_listPages_spec result l s3 Hl) as (Ha & _).
      unfold page_names. rewrite Ha.
      eapply sublist_NoDup; [by apply (Hnames Hkey)|].
      apply fmap_sublist, distinct_from_sublist.
Qed.

Lemma names_once_run acts : ∀ s,
  wf s → registry_ok s → NoDup (page_names s) → names_once_all acts s →
  NoDup (page_names (run acts s)).
Proof.
  induction acts as [|a acts IH]; intros s Hwf Hok Hnd Hall; simpl; [done|].
  destruct Hall as [Ha Hall]. apply IH; try done.
  - by apply wf_step.
  - by apply registry_ok_step.
  - by apply names_once_step.
Qed.

Lemma names_once_take acts : ∀ k s,
  names_once_all acts s → names_once_all (take k acts) s.
Proof.
  induction acts as [|a acts IH]; intros [|k] s; simpl; try done.
  intros [Ha Hall]. split; [done|]. by apply IH.
Qed.

(** C8, as the code has it. The registry is a set: at every point of a
    session, whatever the server sent, it holds no object twice.  It
    holds no name twice either, as long as the server names no page
    twice. *)
Theorem page_set_unique_by_name_when_named_once (acts : list action) (k : nat) :
  let s := run (take k acts) (constructor freshSocket) in
  NoDup (allPages s).*1 ∧
  (names_once_all acts (constructor freshSocket) → NoDup (page_names s)).
Proof.
  intros s. split.
  - apply (session_registry_ok (take k acts)).
  - intros Hall. apply names_once_run.
    + apply wf_constructor.
    + apply registry_ok_constructor.
    + unfold page_names. destruct constructor_views as (_ & _ & -> & _). constructor.
    + by apply names_once_take.
Qed.


End RegistryEvents.

(** ** The methods *)

Section Methods.
Context `{ChangeSetLib}.

(** *** A method that awaits a call *)

(** Running a body that starts with [await this.wsCall(...)]. *)
Lemma exec_Await o ev args k s :
  wf s →
  let s' := exec o (Await ev args k) s in
  let p := length (promises s) in
  listening s' = listening s ++ [(respName ev (reqId s + 1), p)] ∧
  awaiting s' = awaiting s ++ [(p, AsyncCont k o)] ∧
  sent s' = sent s ++ [mkRequest ev (Some (reqId s + 1)%N) args] ∧
  reqId s' = (reqId s + 1)%N ∧
  promises s' = promises s ++ [Pending].
Proof.
  intros Hwf. destruct (wf_socket _ Hwf) as [[L O] Hso]. simpl.
  rewrite (wsCall_attached _ _ _ _ Hso). cbn [fst snd promises].
  rewrite (list_lookup_middle _ [] Pending) by done.
  unfold listening, sent. rewrite Hso. simpl. done.
Qed.

(** What the state after a response holds for the method that waited:
    its own promise is pending and nothing else refers to it. *)
Lemma fired_outer_ready key p k o st s :
  wf s → (key, p) ∈ listening s → (p, AsyncCont k o) ∈ awaiting s →
  let s3 := set_awaiting (filter (λ x, x.1 ≠ p) (awaiting s))
              (settle p st (without_listeners key s)) in
  promises s3 !! o = Some Pending ∧ (o ∉ (listening s3).*2) ∧ o ∉ outers s3.
Proof.
  intros Hwf Hin Hr s3.
  destruct (fired_views key p st s Hwf Hin)
    as (Hso3 & HL3 & HS3 & Hr3 & Hp3 & Ha3 & _). fold s3 in Hso3, HL3, HS3, Hr3, Hp3, Ha3.
  assert (o ∈ outers s) as Ho by (apply elem_of_outers; eauto).
  destruct (wf_outers_pending _ Hwf o Ho) as [Hpo Hnl].
  assert (o ≠ p) as Hne.
  { intros ->. apply Hnl. apply list_elem_of_fmap. by exists (key, p). }
  split_and!.
  - by rewrite Hp3, list_lookup_insert_ne.
  - rewrite HL3. intros Hin'. apply Hnl. eapply elem_of_sublist; [exact Hin'|].
    apply fmap_filter_sublist.
  - unfold outers. rewrite Ha3.
    eapply (omap_without_key (λ x, outer_of x.2));
      [apply (wf_outers_nodup _ Hwf)|exact Hr|done].
Qed.

(** The response to the call a method waits for: the state in which the
    method goes on, or in which its promise is rejected. *)
Lemma response_resumes key p k o err result s :
  wf s → (key, p) ∈ listening s → (p, AsyncCont k o) ∈ awaiting s →
  let s3 := set_awaiting (filter (λ x, x.1 ≠ p) (awaiting s))
              (settle p (outcome err result) (without_listeners key s)) in
  receive_response key err result s =
    if truthy err then settle o (Rejected err) s3 else exec o (k result) s3.
Proof.
  intros Hwf Hin Hr s3.
  destruct (receive_response_cases key p err result s Hwf Hin)
    as [_ [[Hnot _]|(r & Hr' & ->)]].
  { destruct Hnot. apply list_elem_of_fmap. by exists (p, AsyncCont k o). }
  assert (r = AsyncCont k o) as ->.
  { eapply NoDup_fst_functional; [apply (wf_awaiting_nodup _ Hwf)| |]; eauto. }
  fold s3. unfold outcome. by destruct (truthy err).
Qed.


Lemma wf_new_Promise s :
  wf s →
  let s' := set_promises (promises s ++ [Pending]) s in
  let o := length (promises s) in
  wf s' ∧ promises s' !! o = Some Pending ∧ (o ∉ (listening s').*2) ∧ o ∉ outers s'.
Proof.
  intros Hwf s' o.
  assert (wf s') as Hwf'.
  { destruct Hwf as [Hso Hk Hid Hkn Htn Htp Han Hal Hon Hop Hlp Hss Hsb].
    constructor; try done.
    - intros key p Hin. simpl. rewrite lookup_app_l; [by eapply Htp|].
      eapply lookup_lt_Some, Htp, Hin.
    - intros o' Ho. destruct (Hop o' Ho) as [Hp ?]. split; [|done]. simpl.
      rewrite lookup_app_l; [done|]. by eapply lookup_lt_Some. }
  split_and!; [done|..].
  - simpl. by apply list_lookup_middle.
  - intros Hin. apply (wf_target_lt' _ _ Hwf) in Hin. unfold o in Hin. lia.
  - intros Hin. apply (wf_outer_lt _ _ Hwf) in Hin. unfold o in Hin. lia.
Qed.

(** *** The update exchange *)

Lemma Array_map_throwing_effects (es : list StateEffect) :
  Array_map_throwing pullUpdates_effect ((λ e, VObj [("value", value e)]) <$> es)
  = inr ((λ e, cursorEffect_of (value e)) <$> es).
Proof.
  induction es as [|e es IH]; [done|]. rewrite !fmap_cons. cbn [Array_map_throwing].
  change (pullUpdates_effect (VObj [("value", value e)]))
    with (inr (B := StateEffect) (A := any) (cursorEffect_of (value e))).
  by rewrite IH.
Qed.

(** C4, as the code has it. What [pullUpdates] makes of an update in
    the form [pushUpdates] sends has the same client identifier and an
    equal change set and no effects: the cursor values travel under
    [cursors], and [pullUpdates] reads [effects].  It rebuilds cursor
    effects from a wire object that holds, under [effects], objects
    with the values under [value]. *)
Theorem pushed_update_pulled_without_effects (u : Update) :
  json_roundtrip →
  pullUpdates_update (pushUpdates_wire u)
    = inr (mkUpdate (changes u) None (clientID u)) ∧
  ∀ es : list StateEffect,
    pullUpdates_update
      (VObj [("clientID", clientID u);
             ("changes", toJSON (changes u));
             ("effects", VArr ((λ e, VObj [("value", value e)]) <$> es))])
    = inr (mkUpdate (changes u)
             (Some ((λ e, cursorEffect_of (value e)) <$> es)) (clientID u)).
Proof.
  intros Hjson. split.
  - unfold pullUpdates_update, pushUpdates_wire. simpl. by rewrite Hjson.
  - intros es. unfold pullUpdates_update. simpl. rewrite Hjson. simpl.
    by rewrite Array_map_throwing_effects.
Qed.

(** *** The index *)

(** C5, what the code does. [indexDeletePrefixForPage(pageName,
    keyPrefix)] sends one request, and after the identifier that
    request carries the key prefix alone. *)
Theorem indexDeletePrefixForPage_sends_prefix_only (pre : list action)
    (pageName keyPrefix : string) :
  let s0 := run pre (constructor freshSocket) in
  let s1 := (call (indexDeletePrefixForPage pageName keyPrefix) s0).2 in
  sent s1 = sent s0 ++
    [mkRequest "index.deletePrefixForPage" (Some (reqId s0 + 1)%N) [VStr keyPrefix]].
Proof.
  intros s0 s1. pose proof (wf_session pre) as Hwf. fold s0 in Hwf.
  destruct (wf_new_Promise s0 Hwf) as (Hwf' & _).
  unfold s1, call, new_Promise, indexDeletePrefixForPage. cbn [fst snd].
  destruct (exec_Await (length (promises s0)) "index.deletePrefixForPage"
    [VStr keyPrefix] (λ _, Return (AValue VUndefined)) _ Hwf') as (_ & _ & HS & _).
  exact HS.
Qed.

End Methods.

Section PushAndBatch.
Context `{ChangeSetLib}.


(** *** The batch *)

Lemma index_set_requests_app pageName first kvs kvs' :
  index_set_requests pageName first (kvs ++ kvs') =
    index_set_requests pageName first kvs ++
    index_set_requests pageName (first + N.of_nat (length kvs)) kvs'.
Proof.
  revert first. induction kvs as [|[key v] kvs IH]; intros first; simpl.
  - by rewrite N.add_0_r.
  - rewrite IH. do 3 f_equal. lia.
Qed.

(** The loop of [indexBatchSet] after the responses [oks], none of them
    an error, to its first requests. *)
Lemma indexBatchSet_progress (pageName : string) (o : nat) :
  ∀ (oks : list (any * any)) (kvs : list KV) s,
  wf s → promises s !! o = Some Pending → o ∉ (listening s).*2 → o ∉ outers s →
  Forall (λ r, truthy r.1 = false) oks → (length oks ≤ length kvs)%nat →
  let s2 := run (index_set_responses (reqId s + 1) oks)
              (exec o (indexBatchSet pageName kvs) s) in
  wf s2 ∧
  sent s2 = sent s ++
    index_set_requests pageName (reqId s + 1) (take (S (length oks)) kvs) ∧
  (length oks = length kvs →
     promises s2 !! o = Some (Resolved (AValue VUndefined)) ∧
     listening s2 = listening s ∧ awaiting s2 = awaiting s) ∧
  ((length oks < length kvs)%nat →
     ∃ p,
       listening s2 = listening s ++
         [(respName "index.set" (reqId s + 1 + N.of_nat (length oks)), p)] ∧
       awaiting s2 = awaiting s ++
         [(p, AsyncCont (λ _, indexBatchSet pageName (drop (S (length oks)) kvs)) o)]).
Proof.
  induction oks as [|[e r] oks IH]; intros kvs s Hwf Hpo Hnl Hno Hoks Hlen s2.
  - destruct kvs as [|[key v] rest]; unfold s2; simpl.
    + split_and!.
      * by apply wf_settle_fresh.
      * destruct (settle_views o (Resolved (AValue VUndefined)) s) as (_ & -> & _).
        by rewrite app_nil_r.
      * intros _. destruct (settle_views o (Resolved (AValue VUndefined)) s) as (-> & _ & _).
        destruct (settle_frame o (Resolved (AValue VUndefined)) s) as (_ & _ & _ & -> & _).
        split_and!; try done. by apply settle_lookup_pending.
      * lia.
    + set (k := λ _ : any, indexBatchSet pageName rest).
      set (args := [VStr pageName; VStr key; v]).
      pose proof (exec_Await o "index.set" args k s Hwf) as (HL & HA & HS & _).
      pose proof (wf_exec (Await "index.set" args k) o s Hwf Hpo Hnl Hno) as Hwf1.
      cbn [exec] in HL, HA, HS, Hwf1.
      split_and!.
      * exact Hwf1.
      * exact HS.
      * lia.
      * intros _. eexists. rewrite N.add_0_r. split; [exact HL|exact HA].
  - destruct kvs as [|[key v] rest]; [simpl in Hlen; lia|].
    apply Forall_cons in Hoks as [He Hoks]. simpl in He, Hlen.
    set (k := λ _ : any, indexBatchSet pageName rest).
    set (args := [VStr pageName; VStr key; v]).
    set (s1 := exec o (Await "index.set" args k) s).
    assert (exec o (indexBatchSet pageName ((key, v) :: rest)) s = s1) as Hs1 by done.
    pose proof (exec_Await o "index.set" args k s Hwf) as (HL & HA & HS & HR & HP).
    fold s1 in HL, HA, HS, HR, HP.
    pose proof (wf_exec (Await "index.set" args k) o s Hwf Hpo Hnl Hno) as Hwf1.
    fold s1 in Hwf1.
    set (p := length (promises s)) in *.
    set (key1 := respName "index.set" (reqId s + 1)) in *.
    assert ((key1, p) ∈ listening s1) as Hin1.
    { rewrite HL. apply elem_of_app. right. by apply list_elem_of_singleton. }
    assert ((p, AsyncCont k o) ∈ awaiting s1) as Hr1.
    { rewrite HA. apply elem_of_app. right. by apply list_elem_of_singleton. }
    pose proof (response_resumes key1 p k o e r s1 Hwf1 Hin1 Hr1) as Hstep.
    rewrite He in Hstep. cbn beta zeta in Hstep.
    destruct (fired_views key1 p (outcome e r) s1 Hwf1 Hin1)
      as (_ & HL3 & HS3 & HR3 & _ & HA3 & _).
    destruct (fired_outer_ready key1 p k o (outcome e r) s1 Hwf1 Hin1 Hr1)
      as (Hpo3 & Hnl3 & Hno3).
    pose proof (wf_fired key1 p (outcome e r) s1 Hwf1 Hin1 (outcome_not_pending e r)) as Hwf3.
    set (s3 := set_awaiting _ _) in *.
    assert (listening s3 = listening s) as HL3'.
    { rewrite HL3, HL, filter_app.
      pose proof (wf_keys_nodup _ Hwf1) as Hnd. rewrite HL, fmap_app in Hnd.
      apply NoDup_app in Hnd as (_ & Hdis & _).
      destruct (filter_key_none (listening s) key1) as [_ ->].
      { intros Hin. apply (Hdis _ Hin). simpl. by left. }
      rewrite filter_cons_False by (simpl; tauto). by rewrite app_nil_r. }
    assert (awaiting s3 = awaiting s) as HA3'.
    { rewrite HA3, HA, filter_app.
      pose proof (wf_awaiting_nodup _ Hwf1) as Hnd. rewrite HA, fmap_app in Hnd.
      apply NoDup_app in Hnd as (_ & Hdis & _).
      destruct (filter_key_none (awaiting s) p) as [_ ->].
      { intros Hin. apply (Hdis _ Hin). simpl. by left. }
      rewrite filter_cons_False by (simpl; tauto). by rewrite app_nil_r. }
    assert (s2 = run (index_set_responses (reqId s3 + 1) oks)
                   (exec o (indexBatchSet pageName rest) s3)) as Hs2.
    { unfold s2. change (exec o (indexBatchSet pageName ((key, v) :: rest)) s) with s1.
      cbn [index_set_responses run fold_left step receive fst snd].
      fold key1. rewrite Hstep. by rewrite HR3, HR. }
    destruct (IH rest s3 Hwf3 Hpo3 Hnl3 Hno3 Hoks) as (Hwf2 & HS2 & Hdone & Hmore); [lia|].
    rewrite <-Hs2 in Hwf2, HS2, Hdone, Hmore.
    rewrite HL3', HA3', HS3, HS, HR3, HR in *.
    split_and!.
    + done.
    + rewrite HS2, <-app_assoc. done.
    + intros Heq. apply Hdone. simpl in Heq. lia.
    + intros Hlt. destruct Hmore as (p' & HL2 & HA2); [simpl in Hlt; lia|].
      exists p'. rewrite HL2, HA2. split; [|done].
      do 4 f_equal. simpl. lia.
Qed.

End PushAndBatch.

Section Batch.
Context `{ChangeSetLib}.

(** When the call that fails was the last one registered, what is left
    is what was there before it. *)
Lemma fired_last key p r st s L A :
  wf s → listening s = L ++ [(key, p)] → awaiting s = A ++ [(p, r)] →
  let s3 := set_awaiting (filter (λ x, x.1 ≠ p) (awaiting s))
              (settle p st (without_listeners key s)) in
  listening s3 = L ∧ awaiting s3 = A ∧ sent s3 = sent s.
Proof.
  intros Hwf HL HA s3.
  assert ((key, p) ∈ listening s) as Hin.
  { rewrite HL. apply elem_of_app. right. by apply list_elem_of_singleton. }
  destruct (fired_views key p st s Hwf Hin) as (_ & HL3 & HS3 & _ & _ & HA3 & _).
  fold s3 in HL3, HS3, HA3. split_and!; [| |done].
  - rewrite HL3, HL, filter_app.
    pose proof (wf_keys_nodup _ Hwf) as Hnd. rewrite HL, fmap_app in Hnd.
    apply NoDup_app in Hnd as (_ & Hdis & _).
    destruct (filter_key_none L key) as [_ ->].
    { intros Hin'. apply (Hdis _ Hin'). simpl. by left. }
    rewrite filter_cons_False by (simpl; tauto). by rewrite app_nil_r.
  - rewrite HA3, HA, filter_app.
    pose proof (wf_awaiting_nodup _ Hwf) as Hnd. rewrite HA, fmap_app in Hnd.
    apply NoDup_app in Hnd as (_ & Hdis & _).
    destruct (filter_key_none A p) as [_ ->].
    { intros Hin'. apply (Hdis _ Hin'). simpl. by left. }
    rewrite filter_cons_False by (simpl; tauto). by rewrite app_nil_r.
Qed.

(** C9. [indexBatchSet] sends its requests one at a time and in the
    order of the batch: after the responses [oks], none an error, to
    the first requests, exactly one more request has gone out, and the
    promise of the batch is fulfilled once every entry is answered.
    When instead the next response is an error, nothing more is sent,
    the promise of the batch is rejected with that error, and no
    listener or suspended loop is left to send the rest. *)
Theorem indexBatchSet_stops_at_first_failure (pre : list action)
    (pageName : string) (kvs : list KV) (oks : list (any * any))
    (err result : any) :
  let batch := indexBatchSet pageName kvs in
  let s0 := run pre (constructor freshSocket) in
  let o := (call batch s0).1 in
  let s1 := (call batch s0).2 in
  let first := (reqId s0 + 1)%N in
  let i := length oks in
  let s2 := run (index_set_responses first oks) s1 in
  let s3 :=
    receive (Response "index.set" (first + N.of_nat i) err result) s2 in
  Forall (λ r, truthy r.1 = false) oks → (i ≤ length kvs)%nat →
  truthy err = true →
  sent s2 = sent s0 ++ index_set_requests pageName first (take (S i) kvs) ∧
  (i = length kvs → promises s2 !! o = Some (Resolved (AValue VUndefined))) ∧
  ((i < length kvs)%nat →
     promises s2 !! o = Some Pending ∧
     sent s3 = sent s2 ∧
     promises s3 !! o = Some (Rejected err) ∧
     listening s3 = listening s0 ∧ awaiting s3 = awaiting s0).
Proof.
  intros batch s0 o s1 first i s2 s3 Hoks Hlen Herr.
  pose proof (wf_session pre) as Hwf0. fold s0 in Hwf0.
  destruct (wf_new_Promise s0 Hwf0) as (Hwf' & Hpo & Hnl & Hno).
  set (sp := set_promises (promises s0 ++ [Pending]) s0) in *.
  destruct (indexBatchSet_progress pageName (length (promises s0)) oks kvs sp
              Hwf' Hpo Hnl Hno Hoks Hlen) as (Hwf2 & HS2 & Hdone & Hmore).
  change (run _ _) with s2 in Hwf2, HS2, Hdone, Hmore.
  change (reqId sp) with (reqId s0) in HS2, Hmore. fold first in HS2, Hmore.
  change (sent sp) with (sent s0) in HS2.
  change (listening sp) with (listening s0) in Hdone, Hmore.
  change (awaiting sp) with (awaiting s0) in Hdone, Hmore.
  change (length (promises s0)) with o in Hdone, Hmore.
  split_and!.
  - done.
  - intros Heq. by apply Hdone.
  - intros Hlt. destruct (Hmore Hlt) as (p & HL2 & HA2). fold i in HL2, HA2.
    set (key := respName "index.set" (first + N.of_nat i)) in *.
    set (k := λ _ : any, indexBatchSet pageName (drop (S i) kvs)) in *.
    assert ((key, p) ∈ listening s2) as Hin2.
    { rewrite HL2. apply elem_of_app. right. by apply list_elem_of_singleton. }
    assert ((p, AsyncCont k o) ∈ awaiting s2) as Hr2.
    { rewrite HA2. apply elem_of_app. right. by apply list_elem_of_singleton. }
    pose proof (response_resumes key p k o err result s2 Hwf2 Hin2 Hr2) as Hstep.
    rewrite Herr in Hstep. cbn beta zeta in Hstep.
    change (receive_response key err result s2) with s3 in Hstep.
    destruct (fired_outer_ready key p k o (outcome err result) s2 Hwf2 Hin2 Hr2)
      as (Hpo3 & _).
    destruct (fired_last key p (AsyncCont k o) (outcome err result) s2 _ _ Hwf2 HL2 HA2)
      as (HL3 & HA3 & HS3).
    set (s3' := set_awaiting _ _) in *.
    destruct (settle_views o (Rejected err) s3') as (HLs & HSs & _).
    destruct (settle_frame o (Rejected err) s3') as (_ & _ & _ & HAs & _).
    rewrite <-Hstep in HLs, HSs, HAs.
    split_and!.
    + apply (wf_outers_pending _ Hwf2). apply elem_of_outers. eauto.
    + by rewrite HSs.
    + rewrite Hstep. by apply settle_lookup_pending.
    + by rewrite HLs.
    + by rewrite HAs.
Qed.

End Batch.

(** ** A method that makes one request *)

Section SingleRequest.
Context `{ChangeSetLib}.

(** A method whose body starts with [await this.wsCall(...)], called in
    a session, and the session until the response arrives. *)
Lemma call_Await_waits (pre mid : list action) (ev : string) (args : list any)
    (k : any → proc) :
  let s0 := run pre (constructor freshSocket) in
  let o := (call (Await ev args k) s0).1 in
  let s1 := (call (Await ev args k) s0).2 in
  let key := respName ev (reqId s0 + 1) in
  let s2 := run mid s1 in
  (∀ e r, Receive (Response ev (reqId s0 + 1) e r) ∉ mid) →
  wf s2 ∧
  sent s1 = sent s0 ++ [mkRequest ev (Some (reqId s0 + 1)%N) args] ∧
  reqId s1 = (reqId s0 + 1)%N ∧
  ∃ p, (key, p) ∈ listening s2 ∧ (p, AsyncCont k o) ∈ awaiting s2.
Proof.
  intros s0 o s1 key s2 Hmid.
  pose proof (wf_session pre) as Hwf0. fold s0 in Hwf0.
  destruct (wf_new_Promise s0 Hwf0) as (Hwf' & Hpo & Hnl & Hno).
  set (sp := set_promises (promises s0 ++ [Pending]) s0) in *.
  assert (s1 = exec (length (promises s0)) (Await ev args k) sp) as Hs1 by done.
  assert (o = length (promises s0)) as Ho by done.
  destruct (exec_Await (length (promises s0)) ev args k sp Hwf')
    as (HL1 & HA1 & HS1 & HR1 & _). rewrite <-Hs1 in HL1, HA1, HS1, HR1.
  change (reqId sp) with (reqId s0) in HL1, HS1, HR1.
  change (sent sp) with (sent s0) in HS1.
  fold key in HL1. rewrite <-Ho in HA1.
  assert (wf s1) as Hwf1 by (rewrite Hs1; by apply wf_exec).
  set (p := length (promises sp)) in *.
  assert ((key, p) ∈ listening s1) as Hin1.
  { rewrite HL1. apply elem_of_app. right. by apply list_elem_of_singleton. }
  assert ((p, AsyncCont k o) ∈ awaiting s1) as Hr1.
  { rewrite HA1. apply elem_of_app. right. by apply list_elem_of_singleton. }
  destruct (run_keeps mid s1 _ _ _ Hwf1 Hin1 Hmid) as [Hin2 HA2].
  split_and!; [by apply wf_run|done|done|].
  exists p. split; [done|by apply HA2].
Qed.

(** The same for a body run for a promise already made. *)
Lemma exec_Await_waits (mid : list action) (ev : string) (args : list any)
    (k : any → proc) (o : nat) (s : Space) :
  wf s → promises s !! o = Some Pending → o ∉ (listening s).*2 → o ∉ outers s →
  let s1 := exec o (Await ev args k) s in
  let key := respName ev (reqId s + 1) in
  let s2 := run mid s1 in
  (∀ e r, Receive (Response ev (reqId s + 1) e r) ∉ mid) →
  wf s2 ∧
  sent s1 = sent s ++ [mkRequest ev (Some (reqId s + 1)%N) args] ∧
  reqId s1 = (reqId s + 1)%N ∧
  ∃ p, (key, p) ∈ listening s2 ∧ (p, AsyncCont k o) ∈ awaiting s2.
Proof.
  intros Hwf Hpo Hnl Hno s1 key s2 Hmid.
  destruct (exec_Await o ev args k s Hwf) as (HL1 & HA1 & HS1 & HR1 & _).
  fold s1 key in HL1, HA1, HS1, HR1.
  assert (wf s1) as Hwf1 by by apply wf_exec.
  set (p := length (promises s)) in *.
  assert ((key, p) ∈ listening s1) as Hin1.
  { rewrite HL1. apply elem_of_app. right. by apply list_elem_of_singleton. }
  assert ((p, AsyncCont k o) ∈ awaiting s1) as Hr1.
  { rewrite HA1. apply elem_of_app. right. by apply list_elem_of_singleton. }
  destruct (run_keeps mid s1 _ _ _ Hwf1 Hin1 Hmid) as [Hin2 HA2].
  split_and!; [by apply wf_run|done|done|].
  exists p. split; [done|by apply HA2].
Qed.

(** The response to a method that has nothing left to do but return or
    throw: its promise is settled, nothing is sent, nothing waits. *)
Lemma response_finishes key p k o err result s :
  wf s → (key, p) ∈ listening s → (p, AsyncCont k o) ∈ awaiting s →
  let s' := receive_response key err result s in
  let final :=
    if truthy err then Some (Rejected err)
    else match k result with
         | Return a => Some (Resolved a)
         | Throw e => Some (Rejected e)
         | _ => None
         end in
  ∀ st, final = Some st →
  promises s' !! o = Some st ∧ sent s' = sent s ∧ reqId s' = reqId s ∧
  (∀ x, x ∈ listening s' → x ∈ listening s) ∧
  (∀ x, x ∈ awaiting s' → x ∈ awaiting s).
Proof.
  intros Hwf Hin Hr s' final st Hfinal.
  pose proof (response_resumes key p k o err result s Hwf Hin Hr) as Hstep.
  destruct (fired_outer_ready key p k o (outcome err result) s Hwf Hin Hr) as (Hpo & _).
  destruct (fired_views key p (outcome err result) s Hwf Hin)
    as (_ & HL3 & HS3 & HR3 & _ & HA3 & _).
  cbn zeta in Hstep. fold s' in Hstep.
  set (s3 := set_awaiting _ _) in *.
  assert (∃ st', s' = settle o st' s3 ∧ st = st') as (st' & -> & <-).
  { unfold final in Hfinal. rewrite Hstep. destruct (truthy err).
    - injection Hfinal as <-. eauto.
    - destruct (k result); simplify_eq/=; eauto. }
  destruct (settle_views o st s3) as (HLs & HSs & _).
  destruct (settle_frame o st s3) as (_ & HRs & _ & HAs & _).
  split_and!.
  - by apply settle_lookup_pending.
  - by rewrite HSs.
  - by rewrite HRs.
  - intros x. rewrite HLs, HL3. by intros [_ ?]%list_elem_of_filter.
  - intros x. rewrite HAs, HA3. by intros [_ ?]%list_elem_of_filter.
Qed.

End SingleRequest.

(** ** The request methods *)

Section RequestMethods.
Context `{ChangeSetLib}.

Lemma method_body_Await (m : request_method) :
  ∃ k, method_body m = Await (method_event m) (method_arguments m) k ∧
       ∀ r, k r = Return (AValue (if hands_back m then r else VUndefined)).
Proof. destruct m; eexists; split; reflexivity || done. Qed.

(** X1. Each of [readPage], [writePage], [deletePage], [getPageMeta],
    [indexSet], [indexGet], [indexScanPrefixForPage],
    [indexScanPrefixGlobal] and [indexDelete], called at any point of a
    session, sends exactly one message: the event of the method, the
    next identifier, and the arguments of the call in their order.  It
    sends nothing more when the response arrives. *)
Theorem request_methods_send_their_arguments (pre mid : list action)
    (m : request_method) (err result : any) :
  let s0 := run pre (constructor freshSocket) in
  let s1 := (call (method_body m) s0).2 in
  let s2 := run mid s1 in
  let s3 := receive (Response (method_event m) (reqId s0 + 1) err result) s2 in
  (∀ e r, Receive (Response (method_event m) (reqId s0 + 1) e r) ∉ mid) →
  sent s1 = sent s0 ++
    [mkRequest (method_event m) (Some (reqId s0 + 1)%N) (method_arguments m)] ∧
  reqId s1 = (reqId s0 + 1)%N ∧
  sent s3 = sent s2 ∧ reqId s3 = reqId s2.
Proof.
  intros s0 s1 s2 s3 Hmid.
  set (key := respName (method_event m) (reqId s0 + 1)).
  destruct (method_body_Await m) as (k & Hbody & Hk).
  pose proof (call_Await_waits pre mid (method_event m) (method_arguments m) k) as Hw.
  rewrite <-Hbody in Hw.
  destruct (Hw Hmid) as (Hwf2 & HS1 & HR1 & p & Hin2 & Hr2).
  destruct (response_finishes key p k _ err result _ Hwf2 Hin2 Hr2
              (if truthy err then Rejected err
               else Resolved (AValue (if hands_back m then result else VUndefined))))
    as (_ & HS3 & HR3 & _).
  { rewrite Hk. by destruct (truthy err). }
  by split_and!.
Qed.

(** X2. The promise of such a method stays pending until the response
    to its request arrives.  An error response rejects it with the
    error.  Otherwise the methods that return the answer are fulfilled
    with the second field of the response, and [indexSet] and
    [indexDelete], which only await it, with [undefined] whatever the
    server answered. *)
Theorem request_methods_take_the_response (pre mid : list action)
    (m : request_method) (err result : any) :
  let s0 := run pre (constructor freshSocket) in
  let o := (call (method_body m) s0).1 in
  let s1 := (call (method_body m) s0).2 in
  let s2 := run mid s1 in
  let s3 := receive (Response (method_event m) (reqId s0 + 1) err result) s2 in
  (∀ e r, Receive (Response (method_event m) (reqId s0 + 1) e r) ∉ mid) →
  promises s2 !! o = Some Pending ∧
  promises s3 !! o =
    Some (if truthy err then Rejected err
          else Resolved (AValue (if hands_back m then result else VUndefined))).
Proof.
  intros s0 o s1 s2 s3 Hmid.
  set (key := respName (method_event m) (reqId s0 + 1)).
  destruct (method_body_Await m) as (k & Hbody & Hk).
  pose proof (call_Await_waits pre mid (method_event m) (method_arguments m) k) as Hw.
  rewrite <-Hbody in Hw.
  destruct (Hw Hmid) as (Hwf2 & _ & _ & p & Hin2 & Hr2).
  split.
  - apply (wf_outers_pending _ Hwf2). apply elem_of_outers. eauto.
  - eapply (response_finishes key p k _ err result _ Hwf2 Hin2 Hr2).
    rewrite Hk. by destruct (truthy err).
Qed.

(** X3. [closePage] does not wait: at any point of a session it sends
    one [page.closePage] message that carries the name and no
    identifier, leaves the counter, the listeners and the waiting
    methods as they are, and its promise is fulfilled at once. *)
Theorem closePage_fire_and_forget (pre : list action) (name : string) :
  let s0 := run pre (constructor freshSocket) in
  let o := (call (closePage name) s0).1 in
  let s1 := (call (closePage name) s0).2 in
  sent s1 = sent s0 ++ [mkRequest "page.closePage" None [VStr name]] ∧
  sent_ids s1 = sent_ids s0 ∧
  reqId s1 = reqId s0 ∧
  listening s1 = listening s0 ∧
  awaiting s1 = awaiting s0 ∧
  promises s1 !! o = Some (Resolved (AValue VUndefined)).
Proof.
  intros s0 o s1.
  pose proof (wf_session pre) as Hwf0. fold s0 in Hwf0.
  destruct (wf_socket _ Hwf0) as [[L O] Hso].
  unfold o, s1, call, new_Promise, closePage. cbn [fst snd exec socket set_promises].
  rewrite Hso. cbn [exec].
  set (s' := set_socket _ _).
  destruct (settle_views (length (promises s0)) (Resolved (AValue VUndefined)) s')
    as (-> & HS & _).
  destruct (settle_frame (length (promises s0)) (Resolved (AValue VUndefined)) s')
    as (_ & -> & _ & -> & _).
  unfold sent_ids. rewrite HS. unfold s', sent, listening. cbn. rewrite Hso. cbn.
  split_and!; try done.
  - by rewrite omap_app, app_nil_r.
  - apply settle_lookup_pending. cbn. by apply list_lookup_middle.
Qed.

(** X4. [listPages] is local: in any state, with or without a socket,
    it sends nothing, moves no counter and registers nothing, and two
    calls in a row are fulfilled with the same array, the pages of the
    registry in insertion order. *)
Theorem listPages_is_local_and_repeatable (s : Space) :
  let o1 := (call listPages s).1 in
  let s1 := (call listPages s).2 in
  let o2 := (call listPages s1).1 in
  let s2 := (call listPages s1).2 in
  promises s1 !! o1 = Some (Resolved (APages (Array_from (allPages s)))) ∧
  promises s2 !! o2 = Some (Resolved (APages (Array_from (allPages s)))) ∧
  promises s2 !! o1 = promises s1 !! o1 ∧
  same_registry s s2 ∧
  socket s2 = socket s ∧ reqId s2 = reqId s ∧ awaiting s2 = awaiting s.
Proof.
  intros o1 s1 o2 s2.
  assert (∀ s, same_registry s (call listPages s).2 ∧
               socket (call listPages s).2 = socket s ∧
               reqId (call listPages s).2 = reqId s ∧
               awaiting (call listPages s).2 = awaiting s) as Hframe.
  { intros t. unfold call, new_Promise, listPages. cbn [fst snd exec].
    set (t' := set_promises _ t).
    destruct (settle_frame (length (promises t))
                (Resolved (APages (Array_from (allPages t')))) t')
      as (E1 & E2 & E3 & E4 & E5 & E6).
    unfold same_registry. rewrite E1, E2, E3, E4, E5, E6. done. }
  destruct (Hframe s) as ((Ha1 & He1 & Hn1) & Hso1 & Hr1 & Haw1).
  destruct (Hframe s1) as ((Ha2 & He2 & Hn2) & Hso2 & Hr2 & Haw2).
  fold s1 in Ha1, He1, Hn1, Hso1, Hr1, Haw1. fold s2 in Ha2, He2, Hn2, Hso2, Hr2, Haw2.
  pose proof (call_listPages s) as Hp1. fold o1 s1 in Hp1.
  pose proof (call_listPages s1) as Hp2. fold o2 s2 in Hp2. rewrite Ha1 in Hp2.
  split_and!; try congruence.
  - rewrite Hp1. eapply call_grows; [exact Hp1|done].
  - split_and!; congruence.
Qed.

End RequestMethods.

(** ** Opening a page *)

Section OpenAndPull.
Context `{ChangeSetLib}.

(** [openPage] in a session: the state in which its [wsCall] runs. *)
Lemma call_openPage (pre : list action) (name : string) :
  let s0 := run pre (constructor freshSocket) in
  let o := (call (openPage name) s0).1 in
  let sp := set_reqId (reqId s0 + 1) (set_promises (promises s0 ++ [Pending]) s0) in
  (call (openPage name) s0).2 =
    exec o (Await "page.openPage" [VStr name] new_CollabDocument) sp ∧
  wf sp ∧ promises sp !! o = Some Pending ∧ (o ∉ (listening sp).*2) ∧ o ∉ outers sp.
Proof.
  intros s0 o sp. split; [done|].
  pose proof (wf_session pre) as Hwf0. fold s0 in Hwf0.
  destruct (wf_new_Promise s0 Hwf0) as (Hwf' & Hpo & Hnl & Hno).
  split_and!; try done. apply wf_set_reqId; [done|]. simpl. lia.
Qed.

(** X5. [openPage] moves the counter twice.  Its request carries the
    second identifier after the last one handed out, and the one in
    between is used by no request, then or ever after. *)
Theorem openPage_takes_two_identifiers (pre post : list action) (name : string) :
  let s0 := run pre (constructor freshSocket) in
  let s1 := (call (openPage name) s0).2 in
  let s4 := run post s1 in
  sent s1 = sent s0 ++ [mkRequest "page.openPage" (Some (reqId s0 + 2)%N) [VStr name]] ∧
  reqId s1 = (reqId s0 + 2)%N ∧
  (reqId s0 + 1)%N ∉ sent_ids s4.
Proof.
  intros s0 s1 s4.
  destruct (call_openPage pre name) as (Hs1 & Hwf' & Hpo & Hnl & Hno).
  fold s0 s1 in Hs1. set (sp := set_reqId _ _) in *. set (o := (call _ _).1) in *.
  destruct (exec_Await o "page.openPage" [VStr name] new_CollabDocument sp Hwf')
    as (_ & _ & HS1 & HR1 & _). rewrite <-Hs1 in HS1, HR1.
  change (reqId sp) with (reqId s0 + 1)%N in HS1, HR1.
  change (sent sp) with (sent s0) in HS1.
  replace (reqId s0 + 1 + 1)%N with (reqId s0 + 2)%N in HS1, HR1 by lia.
  split_and!; [done|done|].
  pose proof (wf_session pre) as Hwf0. fold s0 in Hwf0.
  assert (wf s1) as Hwf1 by (rewrite Hs1; by apply wf_exec).
  pose proof (wf_run post s1 Hwf1) as Hwf4. fold s4 in Hwf4.
  destruct (run_grows post s1 Hwf1) as (_ & [more Hmore] & _). fold s4 in Hmore.
  pose proof (wf_sent_sorted _ Hwf4) as Hsorted.
  unfold sent_ids in Hsorted |- *. rewrite Hmore, HS1 in Hsorted |- *.
  rewrite !omap_app in Hsorted |- *. simpl in Hsorted |- *.
  rewrite !elem_of_app. intros [[Hin|Hin]|Hin].
  - pose proof (wf_sent_bound _ Hwf0) as Hb. rewrite Forall_forall in Hb.
    apply Hb in Hin. lia.
  - apply list_elem_of_singleton in Hin. lia.
  - eapply (StronglySorted_app_1_elem_of _ _ _ (reqId s0 + 2)%N) in Hsorted; [|
      apply elem_of_app; right; by apply list_elem_of_singleton|exact Hin]. lia.
Qed.

(** X6. The promise of [openPage] is rejected with the error of an
    error response, and with a [TypeError] when the server answers no
    page at all ([null] or [undefined]): the method reads [.text] of
    the answer.  Otherwise it is rejected with what [Text.of] throws
    at the text of the answer, if it throws, and with a [TypeError]
    when the answer has no cursors; and when [Text.of] builds a text
    and there are cursors, it is fulfilled with a document made of
    that text, the version and the cursors of the answer. *)
Theorem openPage_builds_the_document (pre mid : list action) (name : string)
    (err result : any) :
  let s0 := run pre (constructor freshSocket) in
  let o := (call (openPage name) s0).1 in
  let s1 := (call (openPage name) s0).2 in
  let s2 := run mid s1 in
  let s3 := receive (Response "page.openPage" (reqId s0 + 2) err result) s2 in
  (∀ e r, Receive (Response "page.openPage" (reqId s0 + 2) e r) ∉ mid) →
  promises s2 !! o = Some Pending ∧
  (truthy err = true → promises s3 !! o = Some (Rejected err)) ∧
  (truthy err = false → nullish result = true →
     promises s3 !! o = Some (Rejected TypeError)) ∧
  (truthy err = false → nullish result = false →
   (∀ e, Text_of (prop "text" result) = inl e →
      promises s3 !! o = Some (Rejected e)) ∧
   (∀ text, Text_of (prop "text" result) = inr text →
      promises s3 !! o =
        Some (if nullish (prop "cursors" result) then Rejected TypeError
              else Resolved (ADocument (mkCollabDocument text
                               (prop "version" result) (prop "cursors" result)))))).
Proof.
  intros s0 o s1 s2 s3 Hmid.
  destruct (call_openPage pre name) as (Hs1 & Hwf' & Hpo & Hnl & Hno).
  fold s0 s1 o in Hs1, Hpo, Hnl, Hno. set (sp := set_reqId _ _) in *.
  pose proof (exec_Await_waits mid "page.openPage" [VStr name] new_CollabDocument
                o sp Hwf' Hpo Hnl Hno) as Hw.
  rewrite <-Hs1 in Hw. change (reqId sp) with (reqId s0 + 1)%N in Hw.
  replace (reqId s0 + 1 + 1)%N with (reqId s0 + 2)%N in Hw by lia.
  destruct (Hw Hmid) as (Hwf2 & _ & _ & p & Hin2 & Hr2).
  pose proof (response_finishes _ p new_CollabDocument o err result _ Hwf2 Hin2 Hr2)
    as Hfin. cbn zeta in Hfin.
  split_and!.
  - apply (wf_outers_pending _ Hwf2). apply elem_of_outers. eauto.
  - intros Ht. apply Hfin. by rewrite Ht.
  - intros Ht Hnull. apply Hfin. rewrite Ht. unfold new_CollabDocument. by rewrite Hnull.
  - intros Ht Hnn. split.
    + intros e Htext. apply Hfin. rewrite Ht.
      unfold new_CollabDocument. by rewrite Hnn, Htext.
    + intros text Htext. apply Hfin. rewrite Ht.
      unfold new_CollabDocument. rewrite Hnn, Htext.
      by destruct (nullish (prop "cursors" result)).
Qed.

End OpenAndPull.

(** ** Calls without a socket *)

Section NoSocket.
Context `{ChangeSetLib}.

Lemma settle_last P st s :
  promises s = P ++ [Pending] →
  settle (length P) st s = set_promises (P ++ [st]) s.
Proof.
  intros HP. unfold settle. rewrite HP, (list_lookup_middle _ [] Pending) by done.
  rewrite insert_app_r_alt by done. by rewrite Nat.sub_diag.
Qed.

(** A body that starts with [wsCall], called without a socket. *)
Lemma exec_Await_no_socket o ev args k s P :
  socket s = None → promises s = P ++ [Pending] → o = length P →
  exec o (Await ev args k) s =
    set_promises (P ++ [Rejected TypeError; Rejected TypeError])
      (set_reqId (reqId s + 1) s).
Proof.
  intros Hso HP ->. cbn [exec]. unfold wsCall, new_Promise.
  cbn [fst snd socket set_reqId set_promises promises reqId]. rewrite Hso, HP.
  set (s1 := set_reqId _ _).
  rewrite (settle_last (P ++ [Pending]) (Rejected TypeError) s1) by done.
  cbn [promises set_promises]. rewrite length_app. cbn [length].
  rewrite (list_lookup_middle _ [] (Rejected TypeError)) by (rewrite length_app; done).
  unfold settle. cbn [promises set_promises].
  rewrite <-app_assoc. cbn [app].
  rewrite (list_lookup_middle _ [Rejected TypeError] Pending) by done.
  rewrite insert_app_r_alt by done. rewrite Nat.sub_diag. cbn.
  unfold s1. by destruct s.
Qed.

(** X7. Without a socket the methods that go through [wsCall] do not
    hang: the promise of each request method, of [pullUpdates] and of
    [openPage] is rejected with the [TypeError] of [this.socket!.once],
    after the counter has moved, once for the request methods and
    [pullUpdates], twice for [openPage].  [closePage] is rejected the
    same way and moves no counter.  None of them leaves anything
    waiting. *)
Theorem requests_without_socket_are_rejected (s : Space) (m : request_method)
    (pageName name : string) (version : Z) :
  let d := set_socket None s in
  let rejected (c : proc) (n : N) :=
    promises (call c d).2 !! (call c d).1 = Some (Rejected TypeError) ∧
    reqId (call c d).2 = (reqId s + n)%N ∧
    awaiting (call c d).2 = awaiting s ∧
    socket (call c d).2 = None in
  rejected (method_body m) 1%N ∧
  rejected (pullUpdates pageName version) 1%N ∧
  rejected (openPage name) 2%N ∧
  rejected (closePage name) 0%N.
Proof.
  intros d rejected.
  assert (∀ ev args k, rejected (Await ev args k) 1%N) as HAwait.
  { intros ev args k. unfold rejected, call, new_Promise. cbn [fst snd].
    rewrite (exec_Await_no_socket _ ev args k _ (promises d)) by done.
    split_and!; try done. cbn [promises set_promises].
    by apply (list_lookup_middle _ [Rejected TypeError]). }
  split_and!.
  - destruct (method_body_Await m) as (k & -> & _). apply HAwait.
  - apply HAwait.
  - unfold rejected, call, new_Promise, openPage. cbn [fst snd].
    change (exec ?o (IncReqId ?c) ?t) with (exec o c (set_reqId (reqId t + 1) t)).
    rewrite (exec_Await_no_socket _ _ _ _ _ (promises d)) by done.
    split_and!; try done.
    + cbn [promises set_promises]. by apply (list_lookup_middle _ [Rejected TypeError]).
    + cbn. lia.
  - unfold rejected, call, new_Promise, closePage. cbn [fst snd exec socket set_promises d set_socket].
    set (t := set_promises _ _).
    rewrite (settle_last (promises d) (Rejected TypeError) t) by done.
    split_and!; try done.
    + cbn. by apply list_lookup_middle.
    + cbn. lia.
Qed.

End NoSocket.

(** ** Pulling updates *)

Section Pull.
Context `{ChangeSetLib}.

(** *** Mapping a function that can throw *)

Lemma Array_map_throwing_inr {A} (f : any → any + A) (l : list any) (r : list A) :
  Array_map_throwing f l = inr r ↔ Forall2 (λ x y, f x = inr y) l r.
Proof.
  revert r. induction l as [|x l IH]; intros r; simpl.
  - split; [intros [= <-]; constructor|by intros ->%Forall2_nil_inv_l].
  - split.
    + destruct (f x) as [e|y] eqn:Hx; [done|].
      destruct (Array_map_throwing f l) as [e|ys]; [done|].
      intros [= <-]. constructor; [done|]. by apply IH.
    + intros (y & ys & Hx & Hrest & ->)%Forall2_cons_inv_l.
      rewrite Hx. apply IH in Hrest. by rewrite Hrest.
Qed.

Lemma Array_map_throwing_inl {A} (f : any → any + A) (good : list any)
    (bad : any) (rest : list any) (r : list A) (e : any) :
  Forall2 (λ x y, f x = inr y) good r → f bad = inl e →
  Array_map_throwing f (good ++ bad :: rest) = inl e.
Proof.
  intros Hgood Hbad. induction Hgood as [|x y good r Hx _ IH]; simpl.
  - by rewrite Hbad.
  - by rewrite Hx, IH.
Qed.

Lemma pullUpdates_Await (pageName : string) (version : Z) :
  ∃ k, pullUpdates pageName version =
         Await "page.pullUpdates" [VStr pageName; VNum version] k ∧
       ∀ r, k r = match r with
                  | VArr us =>
                      match Array_map_throwing pullUpdates_update us with
                      | inl e => Throw e
                      | inr l => Return (AUpdates l)
                      end
                  | _ => Throw TypeError
                  end.
Proof. eexists. split; reflexivity. Qed.

(** X8. [pullUpdates] sends one [page.pullUpdates] request with the
    page name and the version.  When the answer is an array whose
    entries can all be read, its promise is fulfilled with the updates
    read, as many as there are entries and in their order; an empty
    array gives no update. *)
Theorem pullUpdates_returns_the_updates_read (pre mid : list action)
    (pageName : string) (version : Z) (us : list any) (l : list Update) :
  let s0 := run pre (constructor freshSocket) in
  let o := (call (pullUpdates pageName version) s0).1 in
  let s1 := (call (pullUpdates pageName version) s0).2 in
  let s2 := run mid s1 in
  let s3 := receive (Response "page.pullUpdates" (reqId s0 + 1) VNull (VArr us)) s2 in
  (∀ e r, Receive (Response "page.pullUpdates" (reqId s0 + 1) e r) ∉ mid) →
  Forall2 (λ w u, pullUpdates_update w = inr u) us l →
  sent s1 = sent s0 ++
    [mkRequest "page.pullUpdates" (Some (reqId s0 + 1)%N) [VStr pageName; VNum version]] ∧
  promises s2 !! o = Some Pending ∧
  promises s3 !! o = Some (Resolved (AUpdates l)) ∧
  length l = length us.
Proof.
  intros s0 o s1 s2 s3 Hmid Hall.
  set (key := respName "page.pullUpdates" (reqId s0 + 1)).
  destruct (pullUpdates_Await pageName version) as (k & Hbody & Hk).
  pose proof (call_Await_waits pre mid "page.pullUpdates"
                [VStr pageName; VNum version] k) as Hw.
  rewrite <-Hbody in Hw.
  destruct (Hw Hmid) as (Hwf2 & HS1 & _ & p & Hin2 & Hr2).
  split_and!.
  - exact HS1.
  - apply (wf_outers_pending _ Hwf2). apply elem_of_outers. eauto.
  - eapply (response_finishes key p k _ VNull (VArr us) _ Hwf2 Hin2 Hr2).
    cbn. by rewrite Hk, (proj2 (Array_map_throwing_inr _ _ _) Hall).
  - symmetry. by eapply Forall2_length.
Qed.

(** X9. [pullUpdates] gives all or nothing.  Its promise is rejected
    with the error of an error response, with a [TypeError] when the
    answer is not an array, and, when an entry of the array cannot be
    read, with the error of the first such entry, whatever comes after
    it and however many entries before it were read. *)
Theorem pullUpdates_rejects_as_a_whole (pre mid : list action)
    (pageName : string) (version : Z) (err result : any) :
  let s0 := run pre (constructor freshSocket) in
  let o := (call (pullUpdates pageName version) s0).1 in
  let s1 := (call (pullUpdates pageName version) s0).2 in
  let s2 := run mid s1 in
  let s3 := receive (Response "page.pullUpdates" (reqId s0 + 1) err result) s2 in
  (∀ e r, Receive (Response "page.pullUpdates" (reqId s0 + 1) e r) ∉ mid) →
  (truthy err = true → promises s3 !! o = Some (Rejected err)) ∧
  (truthy err = false → (∀ us, result ≠ VArr us) →
     promises s3 !! o = Some (Rejected TypeError)) ∧
  (truthy err = false →
   ∀ good read bad rest e,
     result = VArr (good ++ bad :: rest) →
     Forall2 (λ w u, pullUpdates_update w = inr u) good read →
     pullUpdates_update bad = inl e →
     promises s3 !! o = Some (Rejected e)).
Proof.
  intros s0 o s1 s2 s3 Hmid.
  set (key := respName "page.pullUpdates" (reqId s0 + 1)).
  destruct (pullUpdates_Await pageName version) as (k & Hbody & Hk).
  pose proof (call_Await_waits pre mid "page.pullUpdates"
                [VStr pageName; VNum version] k) as Hw.
  rewrite <-Hbody in Hw.
  destruct (Hw Hmid) as (Hwf2 & _ & _ & p & Hin2 & Hr2).
  pose proof (response_finishes key p k _ err result _ Hwf2 Hin2 Hr2) as Hfin.
  cbn zeta in Hfin. rewrite Hk in Hfin.
  split_and!.
  - intros Ht. apply Hfin. by rewrite Ht.
  - intros Ht Hna. apply Hfin. rewrite Ht.
    destruct result as [| | | | | |us|]; try done. by destruct (Hna us).
  - intros Ht good read bad rest e -> Hgood Hbad. apply Hfin. rewrite Ht.
    by rewrite (Array_map_throwing_inl _ good bad rest read e Hgood Hbad).
Qed.

(** X10. What [pullUpdates] reads from one entry, when it can read
    it: the client identifier is the one of the entry, the change set
    is what [ChangeSet.fromJSON] makes of its [changes], and the
    effects are absent when [effects] is [null] or [undefined] and
    otherwise one cursor effect for each entry of the array under
    [effects], in order, holding that entry's [value]. *)
Theorem pulled_update_has_cursor_effects_only (w : any) (u : Update) :
  pullUpdates_update w = inr u →
  clientID u = prop "clientID" w ∧
  fromJSON (prop "changes" w) = Some (changes u) ∧
  (effects u = None ↔ nullish (prop "effects" w) = true) ∧
  ∀ es, effects u = Some es →
    Forall (λ e, effectType e = cursorEffect) es ∧
    ∃ ws, prop "effects" w = VArr ws ∧ value <$> es = prop "value" <$> ws.
Proof.
  unfold pullUpdates_update. destruct (nullish w); [done|].
  destruct (fromJSON (prop "changes" w)) as [cs|]; [|done].
  destruct (pullUpdates_effects (prop "effects" w)) as [e|effs] eqn:Heffs; [done|].
  intros [= <-]. cbn [clientID changes effects]. split_and!; try done.
  - unfold pullUpdates_effects in Heffs.
    destruct (prop "effects" w) as [| | | | | |ws|]; simplify_eq/=; try done.
    destruct (Array_map_throwing pullUpdates_effect ws); simplify_eq/=. done.
  - intros es ->. unfold pullUpdates_effects in Heffs.
    destruct (prop "effects" w) as [| | | | | |ws|]; simplify_eq/=.
    destruct (Array_map_throwing pullUpdates_effect ws) as [e|l] eqn:Hmap; simplify_eq/=.
    apply Array_map_throwing_inr in Hmap.
    split.
    + induction Hmap as [|x y ws l Hx _ IH]; constructor; [|done].
      unfold pullUpdates_effect in Hx. destruct (nullish x); by simplify_eq/=.
    + exists ws. split; [done|].
      induction Hmap as [|x y ws l Hx _ IH]; [done|]. rewrite !fmap_cons, IH. f_equal.
      unfold pullUpdates_effect in Hx. destruct (nullish x); by simplify_eq/=.
Qed.

End Pull.

(** ** The registry over a session *)

Section RegistryMore.
Context `{ChangeSetLib}.

(** X11. [pageDeleted(name)] removes from the registry the entries
    whose name is [name] and no other: the other entries stay, in
    their order.  A name the registry does not hold leaves it as it
    is.  The event is passed on and one [pageListUpdated] with the
    entries left follows it.  This is so when no entry of the registry
    is [null] or [undefined].  When one is, reading its name throws:
    the entries before the first such entry are gone through as said,
    that entry and those after it stay whatever their name, and the
    event is passed on with no [pageListUpdated] after it. *)
Theorem pageDeleted_removes_the_name_only (acts : list action) (n : any) :
  let s := run acts (constructor freshSocket) in
  let s' := receive (Pushed (pageDeleted n)) s in
  (Forall (λ o, nullish o.2 = false) (allPages s) →
     allPages s' = filter (λ o, not_named n o = true) (allPages s) ∧
     (∀ m, n = VStr m →
        ∀ o, o ∈ allPages s' ↔ o ∈ allPages s ∧ prop "name" o.2 ≠ VStr m) ∧
     (n ∉ page_names s → allPages s' = allPages s) ∧
     emitted s' = emitted s ++
       [pageDeleted n; pageListUpdated (Array_from (allPages s'))]) ∧
  (∀ before x after, allPages s = before ++ x :: after →
     Forall (λ o, nullish o.2 = false) before → nullish x.2 = true →
     allPages s' = filter (λ o, not_named n o = true) before ++ x :: after ∧
     emitted s' = emitted s ++ [pageDeleted n]).
Proof.
  intros s s'. pose proof (session_registry_ok acts) as Hok. fold s in Hok.
  destruct (pageDeleted_spec n s Hok) as (_ & _ & Hcases).
  change (receive_pushed (pageDeleted n) s) with s' in Hcases.
  split.
  - intros Hall.
    destruct Hcases as [(_ & Ha & He)|(t1 & x & t2 & Heq & _ & Hx & _)].
    + split_and!; [done| | |done].
      { intros m -> o. rewrite Ha, list_elem_of_filter, not_named_spec. tauto. }
      intros Hn. rewrite Ha. apply filter_all, Forall_forall.
      intros o Ho. unfold not_named. apply negb_true_iff.
      destruct (strict_eq n (prop "name" o.2)) eqn:Heq; [|done].
      apply strict_eq_eq in Heq. destruct Hn. rewrite Heq.
      unfold page_names, Array_from.
      apply list_elem_of_fmap. exists o.2. split; [done|].
      apply list_elem_of_fmap. by exists o.
    + rewrite Heq in Hall. apply Forall_app in Hall as [_ Hall].
      apply Forall_cons in Hall as [Hx' _]. congruence.
  - intros before x after Heq Hall Hx.
    destruct Hok as [Hnd _]. rewrite Heq in Hnd.
    unfold s'. cbn [receive receive_pushed]. unfold on_pageDeleted.
    change (allPages (emit (pageDeleted n) s)) with (allPages s).
    rewrite Heq, forEach_delete_throws by done. done.
Qed.

(** X12. [pageCreated(meta)] adds as [Set.add] does.  A page meta, as
    any object that arrives, is always added: the registry gets one
    more entry, last, whether or not it already holds a page of that
    name.  A value that is no object is added unless the registry
    holds the same value.  In every case the event is passed on and
    one [pageListUpdated] with the registry follows it. *)
Theorem pageCreated_always_adds (acts : list action) (meta : any) :
  let s := run acts (constructor freshSocket) in
  let s' := receive (Pushed (pageCreated meta)) s in
  (is_object meta = true →
     Array_from (allPages s') = Array_from (allPages s) ++ [meta] ∧
     page_names s' = page_names s ++ [prop "name" meta]) ∧
  (is_object meta = false →
     Array_from (allPages s') =
       if existsb (same_value meta) (Array_from (allPages s))
       then Array_from (allPages s)
       else Array_from (allPages s) ++ [meta]) ∧
  emitted s' = emitted s ++
    [pageCreated meta; pageListUpdated (Array_from (allPages s'))].
Proof.
  intros s s'. destruct (pageCreated_spec meta s (session_registry_ok acts)) as (Ha & _ & He).
  change (receive_pushed (pageCreated meta) s) with s' in Ha, He.
  split_and!; [| |done].
  - intros Hobj. rewrite Hobj in Ha. cbn [negb andb] in Ha.
    unfold page_names, Array_from. rewrite Ha, !fmap_app. done.
  - intros Hobj. rewrite Hobj in Ha. cbn [negb andb] in Ha. rewrite Ha.
    destruct (existsb _ _); [done|]. unfold Array_from. by rewrite fmap_app.
Qed.

(** X13. The registry and the events handed to subscribers change only
    when the server pushes an event or answers the [listPages] request
    of the constructor.  No method call changes them, [deletePage] and
    [writePage] included, and no other response does.  [connect],
    [cursorSnapshot] and [pageChanged] are passed on and leave the
    pages as they are: a changed page keeps its old entry. *)
Theorem registry_changes_on_pushed_events_only (acts : list action) :
  let s := run acts (constructor freshSocket) in
  (∀ c, same_registry s (step s (Invoke c))) ∧
  (∀ ev id err result, respName ev id ≠ "page.listPagesResp1" →
     same_registry s (receive (Response ev id err result) s)) ∧
  (∀ e, e = connect ∨ (∃ args, e = cursorSnapshot args) ∨ (∃ meta, e = pageChanged meta) →
     allPages (receive (Pushed e) s) = allPages s ∧
     emitted (receive (Pushed e) s) = emitted s ++ [e]).
Proof.
  intros s. pose proof (wf_session acts) as Hwf. fold s in Hwf. split_and!.
  - intros c. apply call_registry.
  - intros ev id err result Hkey.
    change (receive (Response ev id err result) s)
      with (receive_response (respName ev id) err result s).
    by destruct (response_registry (respName ev id) err result s Hwf)
      as [Hsame|(Heq & _)].
  - intros e [->|[[args ->]|[meta ->]]]; done.
Qed.

(** X14. When the server answers the [listPages] request of the
    constructor with an error, nothing happens to the registry and no
    event is emitted: the promise of the request is rejected and
    nothing is chained on its rejection. *)
Theorem failed_listing_changes_nothing (mid : list action) (err result : any) :
  let s := run mid (constructor freshSocket) in
  let s' := receive (Response "page.listPages" 1 err result) s in
  (∀ e r, Receive (Response "page.listPages" 1 e r) ∉ mid) →
  truthy err = true →
  same_registry s s' ∧
  promises s' !! 0 = Some (Rejected err) ∧
  sent s' = sent s ∧
  awaiting s' = filter (λ x, x.1 ≠ 0) (awaiting s).
Proof.
  intros s s' Hmid Herr.
  destruct constructor_views as (Hso & _ & _ & _ & Ha0 & _).
  assert ((respName "page.listPages" 1, 0) ∈ listening (constructor freshSocket)) as Hin0.
  { unfold listening. rewrite Hso. by apply list_elem_of_singleton. }
  assert ((0, ListPagesThen) ∈ awaiting (constructor freshSocket)) as Hr0.
  { rewrite Ha0. by apply list_elem_of_singleton. }
  pose proof (wf_session mid) as Hwf. fold s in Hwf.
  destruct (run_keeps mid _ _ _ _ wf_constructor Hin0 Hmid) as [Hin HA].
  fold s in Hin, HA. specialize (HA _ Hr0).
  set (key := respName "page.listPages" 1) in *.
  destruct (fired_views key 0 (outcome err result) s Hwf Hin)
    as (_ & _ & HS & _ & Hp & Haw & Hg & He & Hn).
  destruct (receive_response_cases key 0 err result s Hwf Hin)
    as [_ [[Hnot _]|(r & Hr & Hs')]].
  { destruct Hnot. apply list_elem_of_fmap. by exists (0, ListPagesThen). }
  assert (r = ListPagesThen) as ->.
  { eapply NoDup_fst_functional; [apply (wf_awaiting_nodup _ Hwf)| |]; eauto. }
  change (receive_response _ _ _ s) with s' in Hs'.
  unfold outcome in *. rewrite Herr in *. simpl in Hs'. rewrite Hs'.
  split_and!; try done. rewrite Hp. apply list_lookup_insert_eq.
  by eapply wf_target_lt.
Qed.

End RegistryMore.

(** ** What the subscribers hold, and responses that find no listener *)

Lemma last_page_list_listed (log : list SpaceEvents) (ps : list any) :
  last_page_list (log ++ [pageListUpdated ps]) = Some ps.
Proof. unfold last_page_list. rewrite omap_app. simpl. apply last_snoc. Qed.

Lemma last_page_list_other (log : list SpaceEvents) (e : SpaceEvents) :
  page_list_of e = None → last_page_list (log ++ [e]) = last_page_list log.
Proof. intros He. unfold last_page_list. rewrite omap_app. simpl. by rewrite He, app_nil_r. Qed.

Section Subscribers.
Context `{ChangeSetLib}.

Lemma listed_same s s' : same_registry s s' → listed s → listed s'.
Proof. intros (Ha & He & _). unfold listed. by rewrite Ha, He. Qed.

Lemma listed_emit e s : page_list_of e = None → listed s → listed (emit e s).
Proof.
  intros He. unfold listed, emit. simpl. by rewrite last_page_list_other.
Qed.

Lemma listed_step s a : wf s → registry_ok s → listed s → listed (step s a).
Proof.
  intros Hwf Hok Hl. destruct a as [c|[e|ev id err result]].
  - eapply listed_same; [apply call_registry|done].
  - change (step s (Receive (Pushed e))) with (receive_pushed e s).
    destruct e as [|args|meta|meta|n|ps]; try done; try by apply listed_emit.
    + left. cbn [receive_pushed alloc]. unfold on_pageCreated, emit. simpl.
      apply last_page_list_listed.
    + destruct (pageDeleted_spec n s Hok)
        as (_ & _ & [(_ & _ & He)|(t1 & x & t2 & _ & _ & Hx & Ha & _)]).
      * left. rewrite He, (cons_middle (pageDeleted n)), app_assoc.
        apply last_page_list_listed.
      * right. right. rewrite Ha. apply Exists_app. right. by left.
  - change (step s (Receive (Response ev id err result)))
      with (receive_response (respName ev id) err result s).
    destruct (response_registry (respName ev id) err result s Hwf)
      as [Hsame|(_ & _ & l & s3 & Hl' & Hsame & ->)].
    + by eapply listed_same.
    + destruct (then_listPages_spec result l s3 Hl') as (Ha & _ & _ & He').
      left. rewrite He', Ha. apply last_page_list_listed.
Qed.

Lemma listed_run acts : ∀ s, wf s → registry_ok s → listed s → listed (run acts s).
Proof.
  induction acts as [|a acts IH]; intros s Hwf Hok Hl; simpl; [done|].
  apply IH; [by apply wf_step|by apply registry_ok_step|by apply listed_step].
Qed.

(** X15. Subscribers that keep the list of the last [pageListUpdated]
    hold the registry: at every point of a session the last such event
    carries exactly the entries [listPages] would answer with, in the
    same order, and as long as none was emitted the registry is
    empty.  The one exception is a registry that holds an entry that
    is [null] or [undefined], at which [pageDeleted] throws before it
    emits. *)
Theorem last_pageListUpdated_is_the_registry (acts : list action) :
  let s := run acts (constructor freshSocket) in
  last_page_list (emitted s) = Some (Array_from (allPages s)) ∨
  (last_page_list (emitted s) = None ∧ Array_from (allPages s) = []) ∨
  Exists (λ v, nullish v = true) (Array_from (allPages s)).
Proof.
  intros s.
  destruct (listed_run acts _ wf_constructor registry_ok_constructor) as [Hl|[[Hl Ha]|Hex]].
  - right. left. destruct constructor_views as (_ & _ & -> & _ & _ & -> & _). done.
  - by left.
  - right. left. fold s in Hl, Ha. by rewrite Ha.
  - right. right. fold s in Hex. unfold Array_from. by apply Exists_fmap.
Qed.

(** *** Listeners are registered under new identifiers only *)

Lemma new_or_old_same s s' :
  listening s' = listening s → new_or_old s s'.
Proof. intros HL x. rewrite HL. by left. Qed.

Lemma new_or_old_trans s1 s2 s3 :
  (reqId s1 ≤ reqId s2)%N → new_or_old s1 s2 → new_or_old s2 s3 → new_or_old s1 s3.
Proof.
  intros Hle H12 H23 x Hx. destruct (H23 x Hx) as [Hin|(ev & id & ? & ?)].
  - by apply H12.
  - right. exists ev, id. split; [done|lia].
Qed.

Lemma settle_new_or_old p st s : new_or_old s (settle p st s).
Proof. apply new_or_old_same. by destruct (settle_views p st s) as (-> & _). Qed.

Lemma exec_new_or_old c : ∀ o s, new_or_old s (exec o c s).
Proof.
  induction c as [a|e|k IH|ev args k _|yes IHy no IHn|ev args k IH|k IH];
    intros o s; simpl.
  - apply settle_new_or_old.
  - apply settle_new_or_old.
  - apply (new_or_old_trans s (set_reqId (reqId s + 1) s)); [simpl; lia|by apply new_or_old_same|apply IH].
  - assert (new_or_old s (wsCall ev args s).2) as Hw.
    { unfold wsCall, new_Promise. simpl.
      destruct (socket s) as [[L O]|] eqn:Hso; simpl.
      - intros x. unfold listening. simpl. rewrite Hso. simpl.
        intros [?|Hx%list_elem_of_singleton]%elem_of_app; [by left|]. subst x.
        right. exists ev, (reqId s + 1)%N. split; [done|lia].
      - set (s1 := set_reqId _ _).
        apply (new_or_old_trans s s1); [simpl; lia|by apply new_or_old_same|].
        apply settle_new_or_old. }
    pose proof (wsCall_grows ev args s) as (_ & _ & Hle).
    destruct (wsCall ev args s) as [p s1]. simpl in *.
    eapply new_or_old_trans; [exact Hle|exact Hw|].
    destruct (promises s1 !! p) as [[| |e]|]; try by apply new_or_old_same.
    apply settle_new_or_old.
  - destruct (socket s); [apply IHy|apply IHn].
  - destruct (socket s) as [[L O]|] eqn:Hso; [|apply settle_new_or_old].
    set (s1 := set_socket _ s).
    apply (new_or_old_trans s s1); [done| |apply IH].
    apply new_or_old_same. unfold listening. simpl. by rewrite Hso.
  - apply IH.
Qed.

Lemma react_new_or_old r st s : new_or_old s (react r st s).
Proof.
  destruct r as [|k o], st as [|[v| | |]|e]; simpl; try by apply new_or_old_same.
  - apply new_or_old_same.
    destruct (then_listPages_correlator v s) as (Hso & _). unfold listening. by rewrite Hso.
  - apply exec_new_or_old.
  - apply settle_new_or_old.
Qed.

Lemma step_stays_unheard s a key :
  wf s → not_to_come s key → key ∉ (listening s).*1 →
  not_to_come (step s a) key ∧ key ∉ (listening (step s a)).*1.
Proof.
  intros Hwf Hkey Hnot.
  destruct (step_grows s a Hwf) as (_ & _ & Hle).
  split.
  { intros ev id Heq. specialize (Hkey ev id Heq). lia. }
  assert (new_or_old s (step s a)) as Hnew.
  { destruct a as [c|[e|ev0 id0 err result]].
    - change (step s (Invoke c)) with (call c s).2. unfold call, new_Promise. simpl.
      set (s1 := set_promises _ s).
      apply (new_or_old_trans s s1); [done|by apply new_or_old_same|apply exec_new_or_old].
    - apply new_or_old_same.
      destruct (receive_pushed_correlator e s) as (Hso & _).
      simpl. unfold listening. by rewrite Hso.
    - change (step s (Receive (Response ev0 id0 err result)))
        with (receive_response (respName ev0 id0) err result s).
      generalize (respName ev0 id0). intros key'.
      destruct (decide (key' ∈ (listening s).*1)) as [Hin|Hnin];
        [|rewrite receive_response_miss by done; by apply new_or_old_same].
      apply list_elem_of_fmap in Hin as ([key2 p] & -> & Hin). simpl in *.
      destruct (fired_views key2 p (outcome err result) s Hwf Hin)
        as (_ & HL3 & _ & HR3 & _).
      set (s3 := set_awaiting _ _) in *.
      assert (new_or_old s s3) as H3.
      { intros x. rewrite HL3. intros [_ ?]%list_elem_of_filter. by left. }
      destruct (receive_response_cases key2 p err result s Hwf Hin)
        as [_ [[_ ->]|(r & Hr & ->)]]; fold s3; [done|].
      eapply new_or_old_trans; [|exact H3|apply react_new_or_old]. by rewrite HR3. }
  intros ([key' p] & -> & Hin)%list_elem_of_fmap. simpl in *.
  destruct (Hnew _ Hin) as [Hold|(ev & id & Heq & Hlt)].
  - apply Hnot. apply list_elem_of_fmap. by exists (key', p).
  - simpl in Heq. specialize (Hkey ev id Heq). lia.
Qed.

Lemma run_stays_unheard acts : ∀ s key,
  wf s → not_to_come s key → key ∉ (listening s).*1 →
  key ∉ (listening (run acts s)).*1.
Proof.
  induction acts as [|a acts IH]; intros s key Hwf Hkey Hnot; simpl; [done|].
  destruct (step_stays_unheard s a key Hwf Hkey Hnot) as [Hkey' Hnot'].
  apply IH; [by apply wf_step|done..].
Qed.

(** X16. The listeners of [wsCall] are one-shot for good.  A response
    to a request already made, one whose identifier has been handed
    out, is heard at most once: after it has arrived, the same
    response arriving again, at once or at any later point of the
    session and whatever it carries, changes nothing. *)
Theorem responses_are_heard_once (pre post : list action) (ev : string) (id : N)
    (err result err' result' : any) :
  let s := run pre (constructor freshSocket) in
  let s' := receive (Response ev id err result) s in
  let s'' := run post s' in
  (id ≤ reqId s)%N →
  receive (Response ev id err' result') s'' = s''.
Proof.
  intros s s' s'' Hid.
  pose proof (wf_session pre) as Hwf. fold s in Hwf.
  assert (wf s') as Hwf' by exact (wf_step s (Receive (Response ev id err result)) Hwf).
  assert (not_to_come s (respName ev id)) as Hkey.
  { by intros ev' id' [_ <-]%respName_inj. }
  change (receive (Response ev id err' result') s'')
    with (receive_response (respName ev id) err' result' s'').
  assert (s' = receive_response (respName ev id) err result s) as Hs'def by done.
  pose proof (step_grows s (Receive (Response ev id err result)) Hwf) as (_ & _ & Hle).
  change (step s _) with s' in Hle.
  revert Hkey Hs'def. generalize (respName ev id). intros key Hkey Hs'def.
  assert (not_to_come s' key ∧ key ∉ (listening s').*1) as [Hkey' Hnot'].
  { split.
    - intros ev0 id0 Heq. specialize (Hkey ev0 id0 Heq). lia.
    - rewrite Hs'def. clear Hs'def Hwf' Hle s''. clearbody s.
      destruct (decide (key ∈ (listening s).*1)) as [Hin|Hnin].
      + apply list_elem_of_fmap in Hin as ([key' p] & -> & Hin). simpl in *.
        destruct (fired_views key' p (outcome err result) s Hwf Hin)
          as (_ & HL3 & _ & HR3 & _).
        destruct (receive_response_cases key' p err result s Hwf Hin)
          as [_ [[_ Hs']|(r & Hr & Hs')]]; rewrite Hs';
          set (s3 := set_awaiting _ _) in *.
        * rewrite HL3. intros ([k q] & -> & [Hne _]%list_elem_of_filter)%list_elem_of_fmap.
          by apply Hne.
        * intros ([k q] & -> & Hin')%list_elem_of_fmap. simpl in *.
          destruct (react_new_or_old r (outcome err result) s3 _ Hin')
            as [Hold|(ev1 & id1 & Heq & Hlt)].
          -- rewrite HL3 in Hold. apply list_elem_of_filter in Hold as [Hne _]. by apply Hne.
          -- simpl in Heq. specialize (Hkey ev1 id1 Heq).
             assert (reqId s3 = reqId s) as HR3' by exact HR3. lia.
      + by rewrite receive_response_miss. }
  apply receive_response_miss. by apply run_stays_unheard.
Qed.

(** X17. A response for an identifier that was not handed out yet finds
    no listener and changes nothing: it is not kept for the request
    that will carry that identifier. *)
Theorem early_responses_are_lost (pre : list action) (ev : string) (id : N)
    (err result : any) :
  let s := run pre (constructor freshSocket) in
  (reqId s < id)%N →
  receive (Response ev id err result) s = s.
Proof.
  intros s Hid. pose proof (wf_session pre) as Hwf. fold s in Hwf.
  simpl. apply receive_response_miss.
  intros ([key p] & Heq & Hin)%list_elem_of_fmap. simpl in Heq. subst key.
  destruct (wf_keys _ Hwf _ _ Hin) as (ev' & id' & Heq & Hle).
  apply respName_inj in Heq as [_ ->]. lia.
Qed.

End Subscribers.

(** ** The events of the socket *)

Lemma passed_on_app (l1 l2 : list SpaceEvents) :
  passed_on (l1 ++ l2) = passed_on l1 ++ passed_on l2.
Proof. unfold passed_on. apply filter_app. Qed.

Section Forwarding.
Context `{ChangeSetLib}.

Lemma passed_on_same s s' :
  same_registry s s' → passed_on (emitted s') = passed_on (emitted s).
Proof. intros (_ & -> & _). done. Qed.

Lemma on_pageDeleted_passed_on n s :
  passed_on (emitted (on_pageDeleted n s)) = passed_on (emitted s).
Proof.
  unfold on_pageDeleted. destruct (Set_forEach _ _) as [[e|] pages]; [done|].
  unfold emit. simpl. rewrite passed_on_app. simpl. by rewrite app_nil_r.
Qed.

Lemma passed_on_step s a :
  wf s →
  passed_on (emitted (step s a)) = passed_on (emitted s) ++ option_list (heard a).
Proof.
  intros Hwf. destruct a as [c|[e|ev id err result]].
  - rewrite (passed_on_same s) by apply call_registry. simpl. by rewrite app_nil_r.
  - change (step s (Receive (Pushed e))) with (receive_pushed e s).
    destruct e as [|args|meta|meta|n|ps];
      try (simpl; unfold on_pageCreated, emit; simpl;
           rewrite ?passed_on_app, ?app_nil_r; done).
    cbn [receive_pushed]. rewrite on_pageDeleted_passed_on.
    unfold emit. simpl. by rewrite passed_on_app.
  - change (step s (Receive (Response ev id err result)))
      with (receive_response (respName ev id) err result s).
    simpl. rewrite app_nil_r.
    destruct (response_registry (respName ev id) err result s Hwf)
      as [Hsame|(_ & _ & l & s3 & Hl & Hsame & ->)]; [by apply passed_on_same|].
    destruct (then_listPages_spec result l s3 Hl) as (_ & _ & _ & ->).
    rewrite passed_on_app, (passed_on_same s s3) by done. simpl. by rewrite app_nil_r.
Qed.

Lemma passed_on_run acts : ∀ s,
  wf s → passed_on (emitted (run acts s)) = passed_on (emitted s) ++ omap heard acts.
Proof.
  induction acts as [|a acts IH]; intros s Hwf; simpl; [by rewrite app_nil_r|].
  rewrite IH by by apply wf_step. rewrite passed_on_step by done.
  rewrite <-app_assoc. f_equal. by destruct (heard a).
Qed.

(** X18. The events of the socket reach the subscribers as they came:
    what is emitted over a session, the [pageListUpdated] of the class
    itself left out, is exactly the [connect], [cursorSnapshot],
    [pageCreated], [pageChanged] and [pageDeleted] events the socket
    delivered, each once, in the order of delivery and with the payload
    it came with.  No method call and no response adds an event of
    these kinds. *)
Theorem socket_events_are_passed_on_in_order (acts : list action) :
  passed_on (emitted (run acts (constructor freshSocket))) = omap heard acts.
Proof.
  rewrite passed_on_run by apply wf_constructor.
  by destruct constructor_views as (_ & _ & _ & _ & _ & -> & _).
Qed.

End Forwarding.

(** ** The theorems on concrete sessions *)

#[local] Existing Instance retaining.

Lemma retaining_json_roundtrip : json_roundtrip.
Proof. intros cs. by apply (mapM_fmap_Some as_length VNum). Qed.

Ltac no_such_response :=
  let e := fresh in let r := fresh in let Hin := fresh in
  intros e r Hin;
  repeat (apply elem_of_cons in Hin as [Hin|Hin]; [vm_compute in Hin; discriminate Hin|]);
  by apply elem_of_nil in Hin.

Lemma wsCall_routes_by_identifier_witness :
  let pre := [Invoke (readPage "a")] in
  let mid := [Invoke (openPage "c");
              Receive (Response "page.readPage" 2 VNull (VStr "text of a"))] in
  let s0 := run pre (constructor freshSocket) in
  let s1 := (wsCall "page.readPage" [VStr "b"] s0).2 in
  let s2 := run mid s1 in
  let s3 := receive (Response "page.readPage" 3 VNull (VStr "text of b")) s2 in
  (∀ e r, Receive (Response "page.readPage" (reqId s1) e r) ∉ mid) ∧
  promises s3 !! 3 = Some (Resolved (AValue (VStr "text of b"))).
Proof.
  assert (∀ e r,
    Receive (Response "page.readPage" (reqId (wsCall "page.readPage" [VStr "b"] (run [Invoke (readPage "a")] (constructor freshSocket))).2) e r)
    ∉ [Invoke (openPage "c");
       Receive (Response "page.readPage" 2 VNull (VStr "text of a"))]) as Hmid
    by no_such_response.
  split; [exact Hmid|].
  exact (proj1 (proj2 (proj2 (proj2 (proj2 (proj2 (proj2
    (wsCall_routes_by_identifier [Invoke (readPage "a")] _
       [Receive (Response "page.readPage" 3 VNull VNull)]
       "page.readPage" [VStr "b"] VNull (VStr "text of b") Hmid)))))))).
Defined.

Lemma wsCall_response_by_truthiness_witness :
  let mid := [Invoke (readPage "b")] in
  let s0 := constructor freshSocket in
  let s1 := (wsCall "page.readPage" [VStr "a"] s0).2 in
  let s3 := receive (Response "page.readPage" 2 (VStr "no such page") VNull)
              (run mid s1) in
  (∀ e r, Receive (Response "page.readPage" (reqId s1) e r) ∉ mid) ∧
  promises s3 !! 1 = Some (Rejected (VStr "no such page")).
Proof.
  assert (∀ e r,
    Receive (Response "page.readPage" (reqId (wsCall "page.readPage" [VStr "a"] (run [] (constructor freshSocket))).2)
      e r) ∉ [Invoke (readPage "b")]) as Hmid by no_such_response.
  split; [exact Hmid|].
  destruct (wsCall_response_by_truthiness [] _ "page.readPage" [VStr "a"]
              (VStr "no such page") VNull Hmid) as (_ & Hrej & _).
  exact (Hrej eq_refl).
Defined.

(** C2 as the specification words it does not hold: the empty string
    is an error indicator that is not [null], and the promise is
    fulfilled. *)
Lemma falsy_error_resolves :
  let s1 := (wsCall "page.readPage" [VStr "a"] (constructor freshSocket)).2 in
  let s2 :=
    receive (Response "page.readPage" 2 (VStr EmptyString) (VStr "text")) s1 in
  nullish (VStr EmptyString) = false ∧
  promises s1 !! 1 = Some Pending ∧
  promises s2 !! 1 = Some (Resolved (AValue (VStr "text"))) ∧
  promises s2 !! 1 ≠ Some (Rejected (VStr EmptyString)).
Proof. by vm_compute. Qed.

Lemma pushed_update_pulled_without_effects_witness :
  json_roundtrip ∧
  pullUpdates_update (pushUpdates_wire update_with_cursor)
    = inr (mkUpdate [3%Z] None (VStr "c1")).
Proof.
  split; [exact retaining_json_roundtrip|].
  exact (proj1 (pushed_update_pulled_without_effects update_with_cursor
                  retaining_json_roundtrip)).
Defined.

(** C4 as the specification words it does not hold: the wire form
    carries the cursor value 7 under [cursors], and the update read
    back has no effects, not the cursor effect of 7. *)
Lemma pushed_cursors_not_pulled :
  prop "cursors" (pushUpdates_wire update_with_cursor) = VArr [VNum 7] ∧
  ∃ u', pullUpdates_update (pushUpdates_wire update_with_cursor) = inr u' ∧
        clientID u' = VStr "c1" ∧ changes u' = [3%Z] ∧
        effects u' = None ∧
        effects u' ≠ Some [cursorEffect_of (VNum 7)].
Proof. split; [done|]. eexists. by split_and!. Qed.


Ltac not_among :=
  let Hin := fresh in
  intros Hin;
  repeat (apply elem_of_cons in Hin as [Hin|Hin]; [discriminate Hin|]);
  by apply elem_of_nil in Hin.

Ltac all_distinct :=
  repeat (apply NoDup_cons; split; [not_among|]); apply NoDup_nil; exact I.



(** C8 as the specification words it does not hold: the server
    announces a page of the same name twice and the registry holds two
    entries of that name. *)
Lemma same_name_created_twice :
  let s := run [Receive (Pushed (pageCreated page_a));
                Receive (Pushed (pageCreated page_a))] (constructor freshSocket) in
  page_names s = [VStr "a"; VStr "a"] ∧ ¬ NoDup (page_names s).
Proof.
  split; [by vm_compute|]. vm_compute.
  intros Hnd. apply NoDup_cons in Hnd as [Hnot _]. apply Hnot. by left.
Qed.

Lemma page_set_unique_by_name_when_named_once_witness :
  names_once_all listed_then_changed (constructor freshSocket) ∧
  page_names (run (take 3 listed_then_changed) (constructor freshSocket))
    = [VStr "b"; VStr "a"] ∧
  NoDup (page_names (run (take 3 listed_then_changed) (constructor freshSocket))).
Proof.
  assert (names_once_all listed_then_changed (constructor freshSocket)) as Hall.
  { split; [|split; [exact I|split; [|exact I]]].
    - intros _ l Hl. vm_compute in Hl. injection Hl as <-. simpl. all_distinct.
    - vm_compute. not_among. }
  split_and!; [exact Hall|by vm_compute|].
  exact (proj2 (page_set_unique_by_name_when_named_once listed_then_changed 3) Hall).
Defined.

Lemma indexBatchSet_stops_at_first_failure_witness :
  let s0 := constructor freshSocket in
  let s1 := (call (indexBatchSet "page" three_entries) s0).2 in
  let s2 := run (index_set_responses 2 [(VNull, VNull)]) s1 in
  let s3 := receive (Response "index.set" 3 (VStr "disk full") VNull) s2 in
  Forall (λ r : any * any, truthy r.1 = false) [(VNull, VNull)] ∧
  (1 ≤ length three_entries)%nat ∧
  truthy (VStr "disk full") = true ∧
  sent s3 =
    [mkRequest "page.listPages" (Some 1%N) [];
     mkRequest "index.set" (Some 2%N) [VStr "page"; VStr "k1"; VNum 1];
     mkRequest "index.set" (Some 3%N) [VStr "page"; VStr "k2"; VNum 2]] ∧
  promises s3 !! 1 = Some (Rejected (VStr "disk full")).
Proof.
  assert (Forall (λ r : any * any, truthy r.1 = false) [(VNull, VNull)]) as Hoks
    by (repeat constructor).
  assert (1 ≤ length three_entries)%nat as Hlen by (simpl; lia).
  split_and!; [exact Hoks|exact Hlen|reflexivity|..];
    destruct (indexBatchSet_stops_at_first_failure [] "page" three_entries
                [(VNull, VNull)] (VStr "disk full") VNull Hoks Hlen eq_refl)
      as (Hsent & _ & Hfail);
    destruct Hfail as (_ & Hsame & Hrej & _); [simpl; lia| |simpl; lia|].
  - etrans; [exact Hsame|]. etrans; [exact Hsent|]. by vm_compute.
  - exact Hrej.
Defined.


(** [openPage] moves the counter twice: its request skips a number. *)
Example openPage_skips_an_identifier :
  sent_ids (run [Invoke (readPage "a"); Invoke (openPage "b"); Invoke (readPage "c")]
              (constructor freshSocket)) = [1; 2; 4; 5]%N.
Proof. by vm_compute. Qed.

(** C5 at a concrete call, and the call next to it that does send the
    page name. *)
Example indexDeletePrefixForPage_drops_the_page :
  sent (run [Invoke (indexDeletePrefixForPage "page1" "todo:");
             Invoke (indexScanPrefixForPage "page1" "todo:")]
          (constructor freshSocket)) =
  [mkRequest "page.listPages" (Some 1%N) [];
   mkRequest "index.deletePrefixForPage" (Some 2%N) [VStr "todo:"];
   mkRequest "index.scanPrefixForPage" (Some 3%N) [VStr "page1"; VStr "todo:"]].
Proof. by vm_compute. Qed.

Lemma request_methods_send_their_arguments_witness :
  let mid := [Invoke (closePage "b")] in
  let s0 := constructor freshSocket in
  let s1 := (call (writePage "a" "hello") s0).2 in
  let s3 := receive (Response "page.writePage" 2 VNull VNull) (run mid s1) in
  (∀ e r, Receive (Response "page.writePage" (reqId s0 + 1) e r) ∉ mid) ∧
  sent s1 =
    [mkRequest "page.listPages" (Some 1%N) [];
     mkRequest "page.writePage" (Some 2%N) [VStr "a"; VStr "hello"]] ∧
  reqId s3 = 2%N.
Proof.
  assert (∀ e r,
    Receive (Response (method_event (WritePage "a" "hello")) (reqId (run [] (constructor freshSocket)) + 1) e r)
    ∉ [Invoke (closePage "b")]) as Hmid by no_such_response.
  split; [exact Hmid|].
  destruct (request_methods_send_their_arguments [] _ (WritePage "a" "hello")
              VNull VNull Hmid) as (Hsent & _ & _ & Hid).
  split; [exact Hsent|]. etrans; [exact Hid|]. by vm_compute.
Defined.

Lemma request_methods_take_the_response_witness :
  let mid := [Invoke (indexGet "p" "k")] in
  let s0 := constructor freshSocket in
  let s1 := (call (indexSet "p" "k" (VNum 1)) s0).2 in
  let s3 := receive (Response "index.set" 2 VNull (VStr "stored")) (run mid s1) in
  (∀ e r, Receive (Response "index.set" (reqId s0 + 1) e r) ∉ mid) ∧
  promises s3 !! 1 = Some (Resolved (AValue VUndefined)).
Proof.
  assert (∀ e r,
    Receive (Response (method_event (IndexSet "p" "k" (VNum 1))) (reqId (run [] (constructor freshSocket)) + 1) e r)
    ∉ [Invoke (indexGet "p" "k")]) as Hmid by no_such_response.
  split; [exact Hmid|].
  exact (proj2 (request_methods_take_the_response [] _ (IndexSet "p" "k" (VNum 1))
                  VNull (VStr "stored") Hmid)).
Defined.

Lemma openPage_builds_the_document_witness :
  let mid := [Invoke (readPage "b")] in
  let s0 := constructor freshSocket in
  let s1 := (call (openPage "a") s0).2 in
  let s3 := receive (Response "page.openPage" 3 VNull opened_page) (run mid s1) in
  (∀ e r, Receive (Response "page.openPage" (reqId s0 + 2) e r) ∉ mid) ∧
  promises s3 !! 1 =
    Some (Resolved (ADocument (mkCollabDocument [VStr "# Title"; VStr "body"]
                                 (VNum 4) (VObj [("c1", VNum 7)])))).
Proof.
  assert (∀ e r,
    Receive (Response "page.openPage" (reqId (run [] (constructor freshSocket)) + 2) e r)
    ∉ [Invoke (readPage "b")]) as Hmid by no_such_response.
  split; [exact Hmid|].
  destruct (openPage_builds_the_document [] _ "a" VNull opened_page Hmid)
    as (_ & _ & _ & Hdoc).
  exact (proj2 (Hdoc eq_refl eq_refl) [VStr "# Title"; VStr "body"] eq_refl).
Defined.

Lemma pullUpdates_returns_the_updates_read_witness :
  let mid := [Receive (Pushed connect)] in
  let us := [pulled_with_cursor; pushUpdates_wire update_with_cursor] in
  let l := [update_pulled; mkUpdate [3%Z] None (VStr "c1")] in
  let s0 := constructor freshSocket in
  let s1 := (call (pullUpdates "a" 4) s0).2 in
  let s3 := receive (Response "page.pullUpdates" 2 VNull (VArr us)) (run mid s1) in
  (∀ e r, Receive (Response "page.pullUpdates" (reqId s0 + 1) e r) ∉ mid) ∧
  Forall2 (λ w u, pullUpdates_update w = inr u) us l ∧
  promises s3 !! 1 = Some (Resolved (AUpdates l)).
Proof.
  assert (∀ e r,
    Receive (Response "page.pullUpdates" (reqId (run [] (constructor freshSocket)) + 1) e r)
    ∉ [Receive (Pushed connect)]) as Hmid by no_such_response.
  assert (Forall2 (λ w u, pullUpdates_update w = inr u)
            [pulled_with_cursor; pushUpdates_wire update_with_cursor]
            [update_pulled; mkUpdate [3%Z] None (VStr "c1")]) as Hread
    by (repeat constructor).
  split_and!; [exact Hmid|exact Hread|].
  destruct (pullUpdates_returns_the_updates_read [] _ "a" 4 _ _ Hmid Hread)
    as (_ & _ & Hres & _).
  exact Hres.
Defined.

Lemma pullUpdates_rejects_as_a_whole_witness :
  let mid := [Receive (Pushed connect)] in
  let us := [pulled_with_cursor; VObj [("clientID", VStr "c3")]; pulled_with_cursor] in
  let s0 := constructor freshSocket in
  let s1 := (call (pullUpdates "a" 4) s0).2 in
  let s3 := receive (Response "page.pullUpdates" 2 VNull (VArr us)) (run mid s1) in
  (∀ e r, Receive (Response "page.pullUpdates" (reqId s0 + 1) e r) ∉ mid) ∧
  promises s3 !! 1 = Some (Rejected RangeError).
Proof.
  assert (∀ e r,
    Receive (Response "page.pullUpdates" (reqId (run [] (constructor freshSocket)) + 1) e r)
    ∉ [Receive (Pushed connect)]) as Hmid by no_such_response.
  split; [exact Hmid|].
  destruct (pullUpdates_rejects_as_a_whole [] _ "a" 4 VNull
              (VArr [pulled_with_cursor; VObj [("clientID", VStr "c3")];
                     pulled_with_cursor]) Hmid) as (_ & _ & Hbad).
  apply (Hbad eq_refl [pulled_with_cursor]
           [update_pulled]
           (VObj [("clientID", VStr "c3")]) [pulled_with_cursor] RangeError eq_refl).
  - repeat constructor.
  - reflexivity.
Defined.

Lemma pulled_update_has_cursor_effects_only_witness :
  pullUpdates_update pulled_with_cursor = inr update_pulled ∧
  ∀ es, effects update_pulled = Some es →
    Forall (λ e, effectType e = cursorEffect) es.
Proof.
  split; [reflexivity|]. intros es Hes.
  exact (proj1 (proj2 (proj2 (proj2
    (pulled_update_has_cursor_effects_only pulled_with_cursor _ eq_refl))) es Hes)).
Defined.

Lemma failed_listing_changes_nothing_witness :
  let mid := [Receive (Pushed (pageCreated page_a))] in
  let s := run mid (constructor freshSocket) in
  let s' := receive (Response "page.listPages" 1 (VStr "unavailable") VNull) s in
  (∀ e r, Receive (Response "page.listPages" 1 e r) ∉ mid) ∧
  truthy (VStr "unavailable") = true ∧
  promises s' !! 0 = Some (Rejected (VStr "unavailable")) ∧
  same_registry s s'.
Proof.
  assert (∀ e r, Receive (Response "page.listPages" 1 e r)
                 ∉ [Receive (Pushed (pageCreated page_a))]) as Hmid
    by no_such_response.
  split_and!; [exact Hmid|reflexivity|..];
    destruct (failed_listing_changes_nothing _ (VStr "unavailable") VNull Hmid eq_refl)
      as (Hsame & Hrej & _).
  - exact Hrej.
  - exact Hsame.
Defined.

Lemma responses_are_heard_once_witness :
  let post := [Invoke (readPage "a")] in
  let s := constructor freshSocket in
  let s'' := run post (receive (Response "page.listPages" 1 VNull (VArr [])) s) in
  (1 ≤ reqId s)%N ∧
  receive (Response "page.listPages" 1 VNull listed_a_b) s'' = s''.
Proof.
  assert (1 ≤ reqId (run [] (constructor freshSocket)))%N as Hid by by vm_compute.
  split; [exact Hid|].
  exact (responses_are_heard_once [] [Invoke (readPage "a")] "page.listPages" 1
           VNull (VArr []) VNull listed_a_b Hid).
Defined.

Lemma early_responses_are_lost_witness :
  let s := constructor freshSocket in
  let s1 := receive (Response "page.readPage" 2 VNull (VStr "text")) s in
  let o := (call (readPage "a") s1).1 in
  let s2 := (call (readPage "a") s1).2 in
  (reqId s < 2)%N ∧ s1 = s ∧
  sent_ids s2 = [1; 2]%N ∧ promises s2 !! o = Some Pending.
Proof.
  assert (reqId (run [] (constructor freshSocket)) < 2)%N as Hid by by vm_compute.
  split; [exact Hid|].
  pose proof (early_responses_are_lost [] "page.readPage" 2 VNull (VStr "text") Hid) as Hs.
  split; [exact Hs|]. by vm_compute.
Defined.

Lemma pageDeleted_removes_the_name_only_witness :
  let s := run [Receive (Response "page.listPages" 1 VNull listed_with_null)]
             (constructor freshSocket) in
  let s' := receive (Pushed (pageDeleted (VStr "a"))) s in
  allPages s = [(1%positive, VObj [("name", VStr "a")])] ++
                 (2%positive, VNull) :: [(3%positive, VObj [("name", VStr "a")])] ∧
  Array_from (allPages s') = [VNull; VObj [("name", VStr "a")]] ∧
  emitted s' = emitted s ++ [pageDeleted (VStr "a")].
Proof.
  split; [reflexivity|].
  destruct (proj2 (pageDeleted_removes_the_name_only
                     [Receive (Response "page.listPages" 1 VNull listed_with_null)]
                     (VStr "a"))
              [(1%positive, VObj [("name", VStr "a")])] (2%positive, VNull)
              [(3%positive, VObj [("name", VStr "a")])] eq_refl)
    as [Ha He]; [by repeat constructor|reflexivity|].
  split; [|exact He].
  etrans; [exact (f_equal Array_from Ha)|]. reflexivity.
Defined.

Lemma pageCreated_always_adds_witness :
  let s := run [Receive (Response "page.listPages" 1 VNull listed_a_b)]
             (constructor freshSocket) in
  let s' := receive (Pushed (pageCreated page_c)) s in
  is_object page_c = true ∧
  Array_from (allPages s') =
    [VObj [("name", VStr "a")]; VObj [("name", VStr "b")]; page_c] ∧
  emitted s' = emitted s ++
    [pageCreated page_c;
     pageListUpdated [VObj [("name", VStr "a")]; VObj [("name", VStr "b")]; page_c]].
Proof.
  split; [reflexivity|].
  destruct (pageCreated_always_adds
              [Receive (Response "page.listPages" 1 VNull listed_a_b)] page_c)
    as (Hobj & _ & He).
  split; [exact (proj1 (Hobj eq_refl))|exact He].
Defined.
